(** * BookLocalizer: the context-windowed translation pipeline of
      [app/translator.py], embedded and verified.

    Python values are modelled as follows.
    - [str] is a list of Unicode code points ([N]); [len], indexing and
      slicing are those of lists.
    - [int] is [Z].
    - [Dict[str, str]] is an insertion-ordered association list with unique
      keys ([dict]); [Dict[int, str]] (only looked up by key) is a [gmap].
    - The translation backend, the two [threading.Event] flags and the two
      user callbacks are the outside world: replies and flag values are
      oracles indexed by the number of calls / observations made so far, and
      callback invocations are recorded in a trace. *)

From Stdlib Require Import ZArith NArith List Ascii String Lia DecimalString
  DecimalPos.
From stdpp Require Import base list gmap.

Local Open Scope N_scope.

Abbreviation str := (list N).

(** ** String literals: UTF-8 bytes of a Rocq string to code points *)

Fixpoint utf8_decode (bs : list N) : str :=
  match bs with
  | [] => []
  | b0 :: r0 =>
    if b0 <? 128 then b0 :: utf8_decode r0
    else if b0 <? 224 then
      match r0 with
      | b1 :: r1 => ((b0 mod 32) * 64 + b1 mod 64) :: utf8_decode r1
      | _ => []
      end
    else if b0 <? 240 then
      match r0 with
      | b1 :: b2 :: r2 =>
        ((b0 mod 16) * 4096 + (b1 mod 64) * 64 + b2 mod 64) :: utf8_decode r2
      | _ => []
      end
    else
      match r0 with
      | b1 :: b2 :: b3 :: r3 =>
        ((b0 mod 8) * 262144 + (b1 mod 64) * 4096 + (b2 mod 64) * 64 + b3 mod 64)
          :: utf8_decode r3
      | _ => []
      end
  end.

Definition lit (s : string) : str :=
  utf8_decode (map N_of_ascii (list_ascii_of_string s)).

(** ** Unicode character database

    The classification of code points is Python's runtime, not code of the
    repository.  On ASCII it is fixed below; beyond ASCII it is a parameter. *)

Class Unicode := {
  uni_isspace : N → bool;       (* Py_UNICODE_ISSPACE: str.strip, regex \s *)
  uni_isdecimal : N → bool;     (* category Nd: regex \d *)
  uni_isdigit : N → bool;       (* str.isdigit of a one-character string *)
  uni_isupper : N → bool;       (* str.isupper of a one-character string *)
  uni_lower : str → str;        (* str.lower of a string that is not ASCII *)
}.

Definition between (lo hi c : N) : bool := (lo <=? c) && (c <=? hi).

Definition is_ascii_char (c : N) : bool := c <? 128.

(** [str.isascii] *)
Definition isascii (s : str) : bool := forallb is_ascii_char s.

Definition ascii_lower (c : N) : N := if between 65 90 c then c + 32 else c.

Section Builtins.
Context {U : Unicode}.

Definition isspace (c : N) : bool :=
  if is_ascii_char c
  then between 9 13 c || between 28 31 c || (c =? 32)
  else uni_isspace c.

Definition isdecimal (c : N) : bool :=
  if is_ascii_char c then between 48 57 c else uni_isdecimal c.

Definition isdigit (c : N) : bool :=
  if is_ascii_char c then between 48 57 c else uni_isdigit c.

Definition isupper (c : N) : bool :=
  if is_ascii_char c then between 65 90 c else uni_isupper c.

(** [str.lower] *)
Definition lower (s : str) : str :=
  if isascii s then map ascii_lower s else uni_lower s.

Fixpoint drop_while (p : N → bool) (s : str) : str :=
  match s with
  | [] => []
  | c :: r => if p c then drop_while p r else s
  end.

Fixpoint take_while (p : N → bool) (s : str) : str :=
  match s with
  | [] => []
  | c :: r => if p c then c :: take_while p r else []
  end.

(** [str.strip()] *)
Definition strip (s : str) : str :=
  rev (drop_while isspace (rev (drop_while isspace s))).

End Builtins.

(** [str.startswith] *)
Fixpoint startswith (s p : str) {struct p} : bool :=
  match p, s with
  | [], _ => true
  | _ :: _, [] => false
  | a :: p', b :: s' => (a =? b) && startswith s' p'
  end.

(** [sub in s] *)
Fixpoint contains (s sub : str) : bool :=
  startswith s sub ||
  match s with
  | [] => false
  | _ :: s' => contains s' sub
  end.

(** [s.find(sub)]: the least index at which [sub] occurs. *)
Fixpoint find (s sub : str) : option nat :=
  if startswith s sub then Some 0%nat
  else match s with
       | [] => None
       | _ :: s' => S <$> find s' sub
       end.

(** [s.split(sep, 1)] for a [sep] that occurs in [s]: the text before the
    first occurrence and the text after it. *)
Definition split_once (s sep : str) : option (str * str) :=
  match find s sep with
  | Some i => Some (take i s, drop (i + length sep)%nat s)
  | None => None
  end.

(** [sep.join(parts)] *)
Fixpoint join (sep : str) (parts : list str) : str :=
  match parts with
  | [] => []
  | [p] => p
  | p :: rest => p ++ sep ++ join sep rest
  end.

(** [s.replace(old, new)]: every non-overlapping occurrence, left to right;
    an empty [old] matches before every character and at the end. *)
Fixpoint replace_from (fuel : nat) (s old new : str) : str :=
  match fuel with
  | O => s
  | S fuel' =>
    match s with
    | [] => []
    | c :: s' =>
      if startswith s old
      then new ++ replace_from fuel' (drop (length old) s) old new
      else c :: replace_from fuel' s' old new
    end
  end.

Definition replace (s old new : str) : str :=
  match old with
  | [] => new ++ flat_map (λ c, c :: new) s
  | _ :: _ => replace_from (length s) s old new
  end.

(** [str(n)] for an [int] *)
Definition str_of_int (n : Z) : str :=
  lit (NilEmpty.string_of_int (Z.to_int n)).

(** [str.splitlines()]: the line boundaries of the Python documentation. *)
Definition is_linebreak (c : N) : bool :=
  between 10 13 c || between 28 30 c || (c =? 133) || (c =? 8232) || (c =? 8233).

Fixpoint splitlines_from (s : str) (line : str) : list str :=
  match s with
  | [] => match line with [] => [] | _ :: _ => [line] end
  | c :: r =>
    if is_linebreak c then
      match c, r with
      | 13, 10 :: r' => line :: splitlines_from r' []
      | _, _ => line :: splitlines_from r []
      end
    else splitlines_from r (line ++ [c])
  end.

Definition splitlines (s : str) : list str := splitlines_from s [].

(** ** Errors *)

Inductive exn :=
| KeyError (key : Z)      (* subscript of a dict by a missing key *)
| IndexError              (* subscript of a string out of range *)
| ValueError              (* tuple unpacking of the wrong length *)
| RuntimeError.           (* raised by the module itself on a transport failure *)

Inductive result (A : Type) :=
| Ok (a : A)
| Err (e : exn).
Arguments Ok {A} a.
Arguments Err {A} e.

Definition result_bind {A B} (r : result A) (k : A → result B) : result B :=
  match r with
  | Ok a => k a
  | Err e => Err e
  end.

(** ** Insertion-ordered dictionaries with string keys *)

Abbreviation dict := (list (str * str)).

Fixpoint dict_get (d : dict) (k : str) : option str :=
  match d with
  | [] => None
  | (k', v) :: d' => if decide (k' = k) then Some v else dict_get d' k
  end.

(** [k in d] *)
Definition dict_mem (d : dict) (k : str) : bool :=
  match dict_get d k with Some _ => true | None => false end.

(** [d[k] = v]: an existing key keeps its position and takes the new value,
    a new key is appended. *)
Fixpoint dict_set (d : dict) (k v : str) : dict :=
  match d with
  | [] => [(k, v)]
  | (k', v') :: d' =>
    if decide (k' = k) then (k', v) :: d' else (k', v') :: dict_set d' k v
  end.

(** [d.update(u)] *)
Definition dict_update (d u : dict) : dict :=
  fold_left (λ acc kv, dict_set acc kv.1 kv.2) u d.

Definition nonempty_dict (d : dict) : bool :=
  match d with [] => false | _ :: _ => true end.

(** ** Markers (module constants) *)

Definition START_MARK : str := lit "<<<START>>>".
Definition END_MARK : str := lit "<<<END>>>".
Definition TITLE_START : str := lit "<<<TITLE_START>>>".
Definition TITLE_END : str := lit "<<<TITLE_END>>>".
Definition GLOSSARY_START : str := lit "<<<GLOSSARY_START>>>".
Definition GLOSSARY_END : str := lit "<<<GLOSSARY_END>>>".
Definition ARROW : str := lit "->".

(** [re.search(re.escape(start) + "(.*?)" + re.escape(end), text, re.S)],
    returning group 1: the match is tried at every position from the left;
    at a position where [start] occurs the lazy group stops at the nearest
    [end]; without one the search moves on to the next position. *)
Fixpoint search_marked (text start_mark end_mark : str) : option str :=
  let here :=
    if startswith text start_mark then
      let rest := drop (length start_mark) text in
      match find rest end_mark with
      | Some j => Some (take j rest)
      | None => None
      end
    else None in
  match here with
  | Some g => Some g
  | None =>
    match text with
    | [] => None
    | _ :: text' => search_marked text' start_mark end_mark
    end
  end.

Definition nonempty (s : str) : bool :=
  match s with [] => false | _ :: _ => true end.

Section Parsing.
Context {U : Unicode}.

Definition prune_marked (text start_mark end_mark : str) : str :=
  match search_marked text start_mark end_mark with
  | Some g => strip g
  | None => strip text
  end.

Definition apply_glossary (text : str) (glossary : dict) : str :=
  match glossary with
  | [] => text
  | _ :: _ => fold_left (λ text kv, replace text kv.1 kv.2) glossary text
  end.

(** *** split_sentences *)

(** [ch in ".!?"] for a one-character [ch] *)
Definition is_terminator (c : N) : bool := (c =? 46) || (c =? 33) || (c =? 63).

(** [i < n and p(text[i])] *)
Definition char_at (text : str) (i : nat) (p : N → bool) : bool :=
  match text !! i with
  | Some c => p c
  | None => false
  end.

(** One iteration of the [while i < n] loop; every path through the body
    advances [i] by exactly one. *)
Definition split_step (text : str) (st : str * list str) (i : nat)
  : str * list str :=
  let '(buffer, sentences) := st in
  match text !! i with
  | None => (buffer, sentences)
  | Some ch =>
    let buffer := buffer ++ [ch] in
    if is_terminator ch then
      if char_at text (i + 1) is_terminator then (buffer, sentences)
      else if (ch =? 46) && (0 <? i)%nat && char_at text (i - 1) isdigit
              && char_at text (i + 1) isdigit
      then (buffer, sentences)
      else ([], sentences ++ [strip buffer])
    else (buffer, sentences)
  end.

Definition split_sentences (text : str) : list str :=
  let '(buffer, sentences) :=
    fold_left (split_step text) (seq 0 (length text)) ([], []) in
  if nonempty (strip buffer) then sentences ++ [strip buffer] else sentences.

(** *** parse_translation_and_glossary *)

(** The verdict of the loop body on one line of the glossary block:
    [None] for a line that is skipped ([continue]), the pair to store
    otherwise. *)
Definition glossary_line (glossary : dict) (line : str)
  : result (option (str * str)) :=
  if negb (contains line ARROW) then Ok None
  else
    match split_once line ARROW with
    | None => Err ValueError
    | Some (a, b) =>
      let src := strip a in
      let dst := strip b in
      if negb (nonempty src && nonempty dst)
         || bool_decide (lower src = lower dst) then Ok None
      else if nonempty_dict glossary && dict_mem glossary src then Ok None
      else if (length src <=? 1)%nat then Ok None
      else
        match src with
        | [] => Err IndexError
        | c0 :: _ =>
          if negb (isupper c0 || negb (isascii src)) then Ok None
          else Ok (Some (src, dst))
        end
    end.

Fixpoint glossary_lines (glossary : dict) (lines : list str) (updates : dict)
  : result dict :=
  match lines with
  | [] => Ok updates
  | line :: rest =>
    result_bind (glossary_line glossary line) (λ verdict,
      match verdict with
      | None => glossary_lines glossary rest updates
      | Some (src, dst) => glossary_lines glossary rest (dict_set updates src dst)
      end)
  end.

Definition parse_translation_and_glossary
    (text : str) (glossary : dict) (start_mark end_mark : str)
  : result (str * dict) :=
  let translation := prune_marked text start_mark end_mark in
  match search_marked text GLOSSARY_START GLOSSARY_END with
  | Some block =>
    result_bind (glossary_lines glossary (splitlines block) [])
                (λ updates, Ok (translation, updates))
  | None => Ok (translation, [])
  end.

End Parsing.

(** A concrete database: nothing beyond ASCII is a space, a digit or cased.
    It is used to run the model on concrete inputs. *)
Definition plain_unicode : Unicode :=
  {| uni_isspace := λ _, false;
     uni_isdecimal := λ _, false;
     uni_isdigit := λ _, false;
     uni_isupper := λ _, false;
     uni_lower := λ s, s |}.

(** ** The outside world

    A run interacts with a translation backend, two [threading.Event] flags
    owned by the caller, and two caller callbacks.  The world keeps a clock
    (advanced by every observation of a flag and every [sleep]), the number
    of backend calls made, and the trace of requests sent and callbacks
    invoked. *)

Inductive event :=
| Request (text : str)              (* the prompt (Ollama) or sentence (pipeline) sent *)
| Token (idx : Z) (text : str)      (* token_callback(idx, text) *)
| Progress (processed total : Z).   (* progress_callback(processed / total) *)

Record world := World { clock : nat; calls : nat; trace : list event }.

(** One line of a streaming reply: its response delta (empty when the line
    has none) and its done mark. *)
Record chunk := Chunk { delta : str; done : bool }.

(** A [threading.Event] as seen by the run: its value at each clock tick. *)
Abbreviation flag := (nat → bool).

Record backend := Backend {
  (* POST /api/generate, stream=False: the "response" field of the n-th call,
     [None] for a [requests.RequestException] *)
  ollama_generate : nat → str → option str;
  (* POST /api/generate, stream=True: the non-blank lines of the n-th call,
     [None] for a [requests.RequestException] raised before a line is read;
     a stream that breaks off after some of its lines is not modelled: a
     reply that starts is read to its end *)
  ollama_stream : nat → str → option (list chunk);
  (* translator(sent)[0]["translation_text"] of the n-th call, for a
     pipeline that has been built *)
  hf_translate : nat → str → str;
  (* the number of polls after which a paused run counts as hanging *)
  patience : nat;
}.

Inductive outcome (A : Type) :=
| Return (a : A) (w : world)
| Raise (e : exn) (w : world)
| Hang.
Arguments Return {A} a w.
Arguments Raise {A} e w.
Arguments Hang {A}.

Definition M (A : Type) : Type := world → outcome A.

#[export] Instance M_ret : MRet M := λ A a w, Return a w.
#[export] Instance M_bind : MBind M := λ A B k m w,
  match m w with
  | Return a w' => k a w'
  | Raise e w' => Raise e w'
  | Hang => Hang
  end.

Definition raise {A} (e : exn) : M A := λ w, Raise e w.
Definition hang {A} : M A := λ _, Hang.

Definition lift {A} (r : result A) : M A :=
  match r with
  | Ok a => mret a
  | Err e => raise e
  end.

Definition tick : M unit :=
  λ w, Return () (World (S (clock w)) (calls w) (trace w)).

Definition emit (e : event) : M unit :=
  λ w, Return () (World (clock w) (calls w) (trace w ++ [e])).

(** [ev.is_set()] *)
Definition observe (ev : flag) : M bool :=
  λ w, Return (ev (clock w)) (World (S (clock w)) (calls w) (trace w)).

(** [ev and ev.is_set()] *)
Definition is_set (ev : option flag) : M bool :=
  match ev with
  | None => mret false
  | Some f => observe f
  end.

(** The n-th backend call: the request is recorded and the call counted. *)
Definition call {A} (reply : nat → str → A) (text : str) : M A :=
  λ w, Return (reply (calls w) text)
              (World (clock w) (S (calls w)) (trace w ++ [Request text])).

(** ** Slices and ranges *)

Local Open Scope Z_scope.

(** A slice bound [i] of a sequence of length [len]: negative bounds count
    from the end, and every bound is clipped to [0, len]. *)
Definition slice_bound (len i : Z) : Z :=
  if i <? 0 then Z.max (len + i) 0 else Z.min i len.

(** [l[a:b]] *)
Definition slice {A} (l : list A) (a b : Z) : list A :=
  let len := Z.of_nat (length l) in
  let lo := slice_bound len a in
  let hi := slice_bound len b in
  take (Z.to_nat (hi - lo)) (drop (Z.to_nat lo) l).

(** [range(start, stop, step)] for a positive [step] *)
Definition py_range (start stop step : Z) : list Z :=
  (λ k, start + k * step) <$> seqZ 0 ((stop - start + step - 1) `div` step).

(** [m.setdefault(k, v)] *)
Definition setdefault (m : gmap Z str) (k : Z) (v : str) : gmap Z str :=
  match m !! k with
  | Some _ => m
  | None => <[k := v]> m
  end.

(** [[m[i] for i in keys]] *)
Fixpoint collect (m : gmap Z str) (keys : list Z) : result (list str) :=
  match keys with
  | [] => Ok []
  | i :: rest =>
    match m !! i with
    | None => Err (KeyError i)
    | Some v => result_bind (collect m rest) (λ vs, Ok (v :: vs))
    end
  end.

Definition NL : str := [10%N].

(** [prompt_tmpl.format(...)] *)
Definition render_prompt
    (glossary_str target_lang start_mark end_mark gstart gend text : str) : str :=
  lit "You are an expert literary translator. Your goal is to produce fluent, natural English while preserving tone. "
  ++ lit "Use the glossary consistently. Avoid adding explanations. Use double line breaks between paragraphs." ++ NL
  ++ lit "--- Glossary ---" ++ NL ++ glossary_str ++ NL ++ lit "---" ++ NL
  ++ lit "Translate the text to " ++ target_lang
  ++ lit ". Place your translation between " ++ start_mark ++ lit " and " ++ end_mark ++ lit ". "
  ++ lit "After that, list any new names or terms as 'source -> translation' between "
  ++ gstart ++ lit " and " ++ gend ++ lit "." ++ NL ++ text.

(** ["\n".join(f"{k} -> {v}" for k, v in glossary.items())] *)
Definition glossary_text (glossary : dict) : str :=
  join NL ((λ kv, kv.1 ++ lit " -> " ++ kv.2) <$> glossary).

Record loop_state := LoopState {
  translated : gmap Z str;
  raw_map : gmap Z str;
  all_updates : dict;
}.

Section Pipeline.
Context {U : Unicode} (B : backend).

(** *** Pause

    [while pause_event.is_set(): if cancel_event and cancel_event.is_set():
    break; time.sleep(0.1)], given up after [fuel] sleeps. *)
Fixpoint wait_while_paused (fuel : nat) (cancel_event : option flag)
    (pause : flag) : M unit :=
  paused ← observe pause;
  if paused : bool then
    cancelled ← is_set cancel_event;
    if cancelled : bool then mret ()
    else match fuel with
         | O => hang
         | S fuel' => tick;; wait_while_paused fuel' cancel_event pause
         end
  else mret ().

(** [if pause_event: while pause_event.is_set(): ...] *)
Definition pause_point (cancel_event pause_event : option flag) : M unit :=
  match pause_event with
  | None => mret ()
  | Some pause => wait_while_paused (patience B) cancel_event pause
  end.

(** *** translate_with_ollama *)

(** The loop over [resp.iter_lines()] of a streaming reply. *)
Fixpoint read_stream (token_callback : option (Z → str → M unit)) (idx : Z)
    (start_mark end_mark : str) (parts : list chunk) (raw : str) : M str :=
  match parts with
  | [] => mret raw
  | part :: rest =>
    raw ← (if nonempty (delta part) then
             let raw := raw ++ delta part in
             match token_callback with
             | Some cb => cb idx (prune_marked raw start_mark end_mark);; mret raw
             | None => mret raw
             end
           else mret raw);
    if done part then mret raw
    else read_stream token_callback idx start_mark end_mark rest raw
  end.

Fixpoint ollama_loop (target_lang : str) (glossary : dict) (stream : bool)
    (token_callback : option (Z → str → M unit))
    (cancel_event pause_event : option flag) (start_mark end_mark : str)
    (idx : Z) (sentences : list str)
    (outputs : list str) (new_terms : dict) (raw_outputs : list str)
  : M (list str * dict * list str) :=
  match sentences with
  | [] => mret (outputs, new_terms, raw_outputs)
  | sentence :: rest =>
    cancelled ← is_set cancel_event;
    if cancelled : bool then mret (outputs, new_terms, raw_outputs)
    else
      pause_point cancel_event pause_event;;
      let prompt :=
        render_prompt (glossary_text glossary) target_lang start_mark end_mark
                      GLOSSARY_START GLOSSARY_END sentence in
      raw ← (if stream then
               reply ← call (ollama_stream B) prompt;
               match reply with
               | None => raise RuntimeError
               | Some parts =>
                 read_stream token_callback idx start_mark end_mark parts []
               end
             else
               reply ← call (ollama_generate B) prompt;
               match reply with
               | None => raise RuntimeError
               | Some response => mret response
               end);
      '(cleaned, updates) ←
        lift (parse_translation_and_glossary raw glossary start_mark end_mark);
      match token_callback with
      | Some cb => if negb stream then cb idx cleaned else mret ()
      | None => mret ()
      end;;
      ollama_loop target_lang glossary stream token_callback cancel_event
                  pause_event start_mark end_mark (idx + 1) rest
                  (outputs ++ [cleaned]) (dict_update new_terms updates)
                  (raw_outputs ++ [raw])
  end.

Definition translate_with_ollama (sentences : list str) (target_lang : str)
    (glossary : dict) (stream : bool)
    (token_callback : option (Z → str → M unit))
    (cancel_event pause_event : option flag) (start_mark end_mark : str)
  : M (list str * dict * list str) :=
  ollama_loop target_lang glossary stream token_callback cancel_event
              pause_event start_mark end_mark 0 sentences [] [] [].

(** *** translate_sentences

    Without Ollama the source first builds the pipeline,
    [pipeline(translation, model=model_name, tgt_lang=target_lang)], and
    then loops over the sentences.  The model starts from the built
    pipeline, [hf_translate]: what building it does, loading the model or
    failing to, is not modelled, and the statements about this branch are
    about calls whose pipeline has been built. *)

Fixpoint pipeline_loop (cancel_event pause_event : option flag)
    (sentences : list str) (outs : list str) : M (list str) :=
  match sentences with
  | [] => mret outs
  | sent :: rest =>
    cancelled ← is_set cancel_event;
    if cancelled : bool then mret outs
    else
      pause_point cancel_event pause_event;;
      out ← call (hf_translate B) sent;
      pipeline_loop cancel_event pause_event rest (outs ++ [out])
  end.

Definition translate_sentences (sentences : list str) (target_lang : str)
    (use_ollama : bool) (token_callback : option (Z → str → M unit))
    (glossary : dict) (cancel_event pause_event : option flag)
    (start_mark end_mark : str) : M (list str * dict * list str) :=
  if use_ollama then
    translate_with_ollama sentences target_lang glossary
      (match token_callback with Some _ => true | None => false end)
      token_callback cancel_event pause_event start_mark end_mark
  else
    outs ← pipeline_loop cancel_event pause_event sentences [];
    mret (outs, [], outs).

(** *** translate_with_context *)

(** [re.sub] of the pattern [^\[\d+\]\s*] by the empty string: a leading
    bracketed run of decimal digits and the whitespace after it are removed. *)
Definition strip_tag (out : str) : str :=
  match out with
  | 91%N :: rest =>
    let digits := take_while isdecimal rest in
    match digits, drop (length digits) rest with
    | _ :: _, 93%N :: rest' => drop_while isspace rest'
    | _, _ => out
    end
  | _ => out
  end.

(** [f"[{n}] {s}"] *)
Definition tag (n : Z) (s : str) : str :=
  lit "[" ++ str_of_int n ++ lit "] " ++ s.

(** [[f"[{start + i}] {s}" for i, s in enumerate(sents)]] *)
Definition tag_window (start : Z) (sents : list str) : list str :=
  imap (λ i s, tag (start + Z.of_nat i) s) sents.

(** [for idx, (out, raw) in enumerate(zip(outs, raws))]: the loop that
    stores a window's outputs, from [sent_id = start + idx] on. *)
Fixpoint store_outputs (glossary : dict) (sent_id : Z)
    (pairs : list (str * str)) (st : loop_state) : loop_state :=
  match pairs with
  | [] => st
  | (out, raw) :: rest =>
    let cleaned := strip (strip_tag out) in
    let cleaned := apply_glossary cleaned glossary in
    store_outputs glossary (sent_id + 1) rest
      (LoopState (setdefault (translated st) sent_id cleaned)
                 (setdefault (raw_map st) sent_id raw)
                 (all_updates st))
  end.

Fixpoint window_loop (sentences : list str) (target_lang : str)
    (use_ollama : bool) (window step : Z)
    (progress_callback token_callback : bool) (glossary : dict)
    (cancel_event pause_event : option flag)
    (starts : list Z) (st : loop_state) : M loop_state :=
  match starts with
  | [] => mret st
  | start :: later =>
    cancelled ← is_set cancel_event;
    if cancelled : bool then mret st
    else
      pause_point cancel_event pause_event;;
      let window_sents := tag_window start (slice sentences start (start + window)) in
      '(outs, updates, raws) ←
        translate_sentences window_sents target_lang use_ollama
          (if token_callback
           then Some (λ idx text, emit (Token (start + idx) text))
           else None)
          glossary cancel_event pause_event START_MARK END_MARK;
      let st := store_outputs glossary start (zip outs raws) st in
      let st :=
        if nonempty_dict updates
        then LoopState (translated st) (raw_map st)
                       (dict_update (all_updates st) updates)
        else st in
      let total := Z.of_nat (length sentences) in
      let processed := Z.min total (start + step) in
      (if progress_callback then emit (Progress processed total) else mret ());;
      window_loop sentences target_lang use_ollama window step
                  progress_callback token_callback glossary
                  cancel_event pause_event later st
  end.

(** The caller's callbacks are opaque: whether one is registered is all the
    model keeps of it, and its invocations are recorded in the trace. *)
Definition translate_with_context (sentences : list str) (target_lang : str)
    (use_ollama : bool) (window overlap : Z)
    (progress_callback token_callback : bool) (glossary : dict)
    (cancel_event pause_event : option flag)
  : M (list str * dict * list str) :=
  match sentences with
  | [] => mret ([], [], [])
  | _ :: _ =>
    let step := Z.max 1 (window - overlap) in
    let total := Z.of_nat (length sentences) in
    st ← window_loop sentences target_lang use_ollama window step
           progress_callback token_callback glossary cancel_event pause_event
           (py_range 0 total step) (LoopState ∅ ∅ []);
    let indices := py_range 0 total 1 in
    ts ← lift (collect (translated st) indices);
    rs ← lift (collect (raw_map st) indices);
    mret (ts, all_updates st, rs)
  end.

End Pipeline.

(** ** Reference definitions

    The sentence scan as the specification words it: a boundary predicate
    on positions, and a scan that cuts the text after every boundary. *)

(** [marked text s e]: somewhere in [text] the marker [s] occurs and is
    followed, not necessarily at once, by the marker [e]. *)
Definition marked (text s e : str) : Prop :=
  ∃ a b c, text = a ++ s ++ b ++ e ++ c.

Section Reference.
Context {U : Unicode}.

Definition followed_by (text : str) (i : nat) (p : N → bool) : bool :=
  char_at text (S i) p.

Definition preceded_by (text : str) (i : nat) (p : N → bool) : bool :=
  match i with
  | O => false
  | S j => char_at text j p
  end.

Definition boundary (text : str) (i : nat) : bool :=
  char_at text i is_terminator
  && negb (followed_by text i is_terminator)
  && negb (char_at text i (λ c, c =? 46)%N
           && preceded_by text i isdigit && followed_by text i isdigit).

Fixpoint reference_scan (text : str) (i : nat) (rest buffer : str) : list str :=
  match rest with
  | [] => if nonempty (strip buffer) then [strip buffer] else []
  | ch :: rest' =>
    if boundary text i
    then strip (buffer ++ [ch]) :: reference_scan text (S i) rest' []
    else reference_scan text (S i) rest' (buffer ++ [ch])
  end.

Definition segment (text : str) : list str := reference_scan text 0 text [].

End Reference.

(** The response of the glossary-filter test of the repository. *)
Definition example_response : str :=
  lit "<<<START>>>Hello<<<END>>>" ++ NL
  ++ lit "<<<GLOSSARY_START>>>" ++ NL
  ++ lit "Lord -> Lord" ++ NL
  ++ lit "英雄 -> hero" ++ NL
  ++ lit "<<<GLOSSARY_END>>>".

(** ** A run that is neither cancelled nor failed, described window by window

    These definitions say what an undisturbed run of [translate_with_context]
    asks of the backend and what it gets back; the properties below relate
    them to the run itself. *)

Section Undisturbed.
Context {U : Unicode} (B : backend).
Context (sentences : list str) (target_lang : str)
        (use_ollama : bool) (window step : Z)
        (progress_callback token_callback : bool) (glossary : dict).

(** The text accumulated from a streaming reply: the deltas up to and
    including the first line marked done. *)
Fixpoint stream_text (parts : list chunk) : str :=
  match parts with
  | [] => []
  | part :: rest => delta part ++ (if done part then [] else stream_text rest)
  end.

(** The partial translations decoded while a streaming reply arrives, one
    for every non-empty delta. *)
Fixpoint stream_partials (raw : str) (parts : list chunk) : list str :=
  match parts with
  | [] => []
  | part :: rest =>
    (if nonempty (delta part)
     then [prune_marked (raw ++ delta part) START_MARK END_MARK] else [])
    ++ (if done part then [] else stream_partials (raw ++ delta part) rest)
  end.

Definition prompt_of (sentence : str) : str :=
  render_prompt (glossary_text glossary) target_lang START_MARK END_MARK
                GLOSSARY_START GLOSSARY_END sentence.

(** What is sent to the backend for a sentence. *)
Definition request_of (sentence : str) : str :=
  if use_ollama then prompt_of sentence else sentence.

(** The raw text the backend returns on its [c]-th call, made for
    [sentence]. *)
Definition reply_raw (c : nat) (sentence : str) : str :=
  if use_ollama then
    if token_callback
    then stream_text (default [] (ollama_stream B c (prompt_of sentence)))
    else default [] (ollama_generate B c (prompt_of sentence))
  else hf_translate B c sentence.

(** The translation the backend invoker extracts from a raw reply. *)
Definition reply_cleaned (raw : str) : str :=
  if use_ollama then prune_marked raw START_MARK END_MARK else raw.

(** The glossary updates the backend invoker extracts from a raw reply. *)
Definition reply_updates (raw : str) : dict :=
  if use_ollama then
    match parse_translation_and_glossary raw glossary START_MARK END_MARK with
    | Ok (_, updates) => updates
    | Err _ => []
    end
  else [].

(** The partial translations streamed to the token callback during the
    [c]-th call. *)
Definition reply_partials (c : nat) (sentence : str) : list str :=
  if use_ollama && token_callback
  then stream_partials [] (default [] (ollama_stream B c (prompt_of sentence)))
  else [].

(** The entry stored for a sentence whose raw reply is [raw]. *)
Definition entry_of (raw : str) : str :=
  apply_glossary (strip (strip_tag (reply_cleaned raw))) glossary.

(** The tagged sentences of the window that starts at [start]. *)
Definition window_sents (start : Z) : list str :=
  tag_window start (slice sentences start (start + window)).

(** The windows in processing order, each with the number of backend calls
    made before it begins. *)
Fixpoint schedule (starts : list Z) (made : nat) : list (Z * nat) :=
  match starts with
  | [] => []
  | start :: later =>
    (start, made) :: schedule later (made + length (window_sents start))
  end.

(** The events of one window: for each of its sentences in turn the
    request and then the streamed tokens, which carry the window start plus
    the position in the window; then the progress report. *)
Definition window_events (sm : Z * nat) : list event :=
  let '(start, made) := sm in
  concat (imap (λ k s,
                  Request (request_of s)
                  :: (Token (start + Z.of_nat k) <$> reply_partials (made + k) s))
               (window_sents start))
  ++ (if progress_callback
      then [Progress (Z.min (Z.of_nat (length sentences)) (start + step))
                     (Z.of_nat (length sentences))]
      else []).

(** The raw replies of one window. *)
Definition window_raws (sm : Z * nat) : list str :=
  imap (λ k s, reply_raw (sm.2 + k) s) (window_sents sm.1).

(** The glossary updates of each sentence of one window, in order. *)
Definition window_updates (sm : Z * nat) : list dict :=
  reply_updates <$> window_raws sm.

(** The state of the loop once the outputs of a window are stored and its
    updates merged. *)
Definition window_store (st : loop_state) (sm : Z * nat) : loop_state :=
  let raws := window_raws sm in
  let st := store_outputs glossary sm.1 (zip (reply_cleaned <$> raws) raws) st in
  LoopState (translated st) (raw_map st)
            (dict_update (all_updates st)
                         (fold_left dict_update (window_updates sm) [])).

(** The sentence at index [i], for the indices that have one. *)
Definition sentence_at (i : Z) : str := default [] (sentences !! Z.to_nat i).

(** The number of the backend call that first translates sentence [i]:
    the call made for it in the earliest window that covers it. *)
Fixpoint first_call (sched : list (Z * nat)) (i : Z) : option nat :=
  match sched with
  | [] => None
  | (start, made) :: later =>
    if bool_decide (start ≤ i < start + Z.of_nat (length (window_sents start)))
    then Some (made + Z.to_nat (i - start))%nat
    else first_call later i
  end.

End Undisturbed.

(** A flag that is never seen set. *)
Definition never_set (ev : option flag) : Prop :=
  match ev with
  | None => True
  | Some f => ∀ t, f t = false
  end.

(** A flag that is clear from time [t0] on. *)
Definition clear_from (t0 : nat) (ev : option flag) : Prop :=
  match ev with
  | None => True
  | Some f => ∀ t, (t0 ≤ t)%nat → f t = false
  end.

(** A backend whose transport never fails. *)
Definition reachable (B : backend) : Prop :=
  ∀ c p, is_Some (ollama_generate B c p) ∧ is_Some (ollama_stream B c p).

(** [later_than w w']: [w'] differs from [w] by the passing of time only. *)
Definition later_than (w w' : world) : Prop :=
  (clock w ≤ clock w')%nat ∧ calls w' = calls w ∧ trace w' = trace w.

(** ** Concrete inputs *)

Definition en : str := lit "en".

Definition fresh : world := World 0 0 [].

(** A backend that returns every request as its own answer. *)
Definition echo : backend :=
  {| ollama_generate := λ _ prompt, Some prompt;
     ollama_stream := λ _ prompt, Some [Chunk prompt true];
     hf_translate := λ _ sentence, sentence;
     patience := 0 |}.

(** A flag that is set from the start. *)
Definition already_set : option flag := Some (λ _, true).

(** The requests of a trace, in the order they were sent. *)
Definition requests (events : list event) : list str :=
  flat_map (λ e, match e with Request text => [text] | _ => [] end) events.

(** The target that the last dictionary of [ds] holding [k] gives it. *)
Fixpoint last_target (ds : list dict) (k : str) : option str :=
  match ds with
  | [] => None
  | d :: later =>
    match last_target later k with
    | Some v => Some v
    | None => dict_get d k
    end
  end.

(** The progress reports of a trace, as (processed, total) pairs. *)
Definition progress_reports (events : list event) : list (Z * Z) :=
  flat_map (λ e, match e with Progress p t => [(p, t)] | _ => [] end) events.

(** A backend whose every answer names the term Foo: the first answer
    translates it as Bar, the later ones as Baz. *)
Definition naming_reply (n : nat) : str :=
  lit "<<<START>>>x<<<END>>><<<GLOSSARY_START>>>Foo -> "
  ++ (if (n =? 0)%nat then lit "Bar" else lit "Baz")
  ++ lit "<<<GLOSSARY_END>>>".

Definition naming : backend :=
  {| ollama_generate := λ n _, Some (naming_reply n);
     ollama_stream := λ n _, Some [Chunk (naming_reply n) true];
     hf_translate := λ _ sentence, sentence;
     patience := 0 |}.

(** A backend whose answers carry the number of the call. *)
Definition numbering : backend :=
  {| ollama_generate := λ n _, Some (str_of_int (Z.of_nat n));
     ollama_stream := λ n _, Some [Chunk (str_of_int (Z.of_nat n)) true];
     hf_translate := λ n _, str_of_int (Z.of_nat n);
     patience := 0 |}.

Definition abc : list str := [lit "a"; lit "b"; lit "c"].

(** A response whose glossary block names the term Foo twice. *)
Definition twice_named : str :=
  lit "<<<GLOSSARY_START>>>" ++ NL
  ++ lit "Foo -> Bar" ++ NL
  ++ lit "Foo -> Baz" ++ NL
  ++ lit "<<<GLOSSARY_END>>>".


(** ** Further notions used to state properties *)

Section Notions.
Context {U : Unicode}.

(** The characters of a string that are not whitespace. *)
Definition visible (s : str) : str := List.filter (λ c, negb (isspace c)) s.

(** A string whose last character is one of the three terminators. *)
Definition ends_sentence (s : str) : bool :=
  match last s with
  | Some c => is_terminator c
  | None => false
  end.

(** What the glossary filter lets through: a pair of trimmed, non-empty
    strings that differ when lowercased, whose source is unknown to the
    glossary, has at least two characters and, when ASCII, starts with an
    uppercase letter. *)
Definition acceptable (glossary : dict) (src dst : str) : Prop :=
  src ≠ [] ∧ dst ≠ []
  ∧ strip src = src ∧ strip dst = dst
  ∧ lower src ≠ lower dst
  ∧ dict_get glossary src = None
  ∧ (2 ≤ length src)%nat
  ∧ (isascii src = true → ∃ c0 rest, src = c0 :: rest ∧ isupper c0 = true).

End Notions.

(** A token callback that returns whenever it is invoked and makes no
    backend call of its own. *)
Definition well_behaved (token_callback : option (Z → str → M unit)) : Prop :=
  ∀ cb, token_callback = Some cb →
        ∀ (idx : Z) (text : str) (w : world),
          ∃ w', cb idx text w = Return () w' ∧ calls w' = calls w.

(** ** The caller's merge of returned updates

    [for k, v in updates.items(): if k not in self.glossary:
    self.glossary[k] = v], the loop by which [ui.py] takes the updates a
    translation returns into its glossary. *)
Definition merge_updates (glossary updates : dict) : dict :=
  fold_left (λ g kv, if dict_mem g kv.1 then g else dict_set g kv.1 kv.2)
            updates glossary.

(** ** Chapters (epub_parser.py) *)

Section Chapters.
Context {U : Unicode}.

(** [pattern.match(stripped)] for the compiled [CHAPTER_PATTERNS]: which
    lines the pattern takes for headings is a parameter. *)
Variable heading : str → bool.

(** [if buf: chapters[title] = '\n'.join(buf).strip()] *)
Definition flush (chapters : dict) (title : str) (buf : list str) : dict :=
  match buf with
  | [] => chapters
  | _ :: _ => dict_set chapters title (strip (join NL buf))
  end.

(** [for line in lines: ...] and the flush after the loop. *)
Fixpoint chapter_loop (lines : list str) (chapters : dict) (title : str)
    (buf : list str) : dict :=
  match lines with
  | [] => flush chapters title buf
  | line :: rest =>
    let stripped := strip line in
    if heading stripped
    then chapter_loop rest (flush chapters title buf) stripped []
    else chapter_loop rest chapters title (buf ++ [line])
  end.

Definition _split_into_chapters (text : str) : dict :=
  let chapters := chapter_loop (splitlines text) [] (lit "Chapter 1") [] in
  if nonempty_dict chapters then chapters else [(lit "Text", text)].

End Chapters.

(** ** Language detection (language_detection.py) *)

Section Detection.
Context {U : Unicode}.

(** [langdetect.detect_langs] on its n-th call: the languages it reports,
    most probable first, each with whether its [prob >= 0.7], or [None] for
    a [LangDetectException]. *)
Variable detect_langs : nat → str → option (list (str * bool)).

(** [re.sub(r"\s+", " ", s)]: every maximal run of whitespace becomes one
    space. *)
Fixpoint collapse_whitespace (s : str) : str :=
  match s with
  | [] => []
  | c :: r =>
    if isspace c then
      match r with
      | c' :: _ => if isspace c' then collapse_whitespace r
                   else 32%N :: collapse_whitespace r
      | [] => [32%N]
      end
    else c :: collapse_whitespace r
  end.

(** [re.sub(r"\s+", " ", snippet.strip())[:1000]] *)
Definition normalise (snippet : str) : str :=
  take 1000 (collapse_whitespace (strip snippet)).

(** [for snippet in candidates: ...]: the language returned and the snippets
    handed to the detector, [asked] being those of the earlier candidates. *)
Fixpoint detect_loop (candidates : list str) (asked : list str)
  : str * list str :=
  match candidates with
  | [] => (lit "unknown", asked)
  | candidate :: rest =>
    let snippet := normalise candidate in
    if nonempty snippet then
      match detect_langs (length asked) snippet with
      | Some ((lang, true) :: _) => (lang, asked ++ [snippet])
      | _ => detect_loop rest (asked ++ [snippet])
      end
    else detect_loop rest asked
  end.

Definition detect_language (text : str) : str * list str :=
  detect_loop [text; drop 50 text; drop 100 text] [].

End Detection.

Section DetectionNotions.
Context {U : Unicode}.

(** No two whitespace characters stand next to each other. *)
Fixpoint single_spaced (s : str) : bool :=
  match s with
  | c :: (c' :: _) as r => negb (isspace c && isspace c') && single_spaced r
  | _ => true
  end.

(** A snippet as the detector gets it. *)
Definition tidy (snippet : str) : Prop :=
  (0 < length snippet ≤ 1000)%nat
  ∧ (∃ c r, snippet = c :: r ∧ isspace c = false)
  ∧ Forall (λ c, isspace c = true → c = 32%N) snippet
  ∧ single_spaced snippet = true.

End DetectionNotions.

(** ** Further concrete inputs *)

(** A backend that cannot be reached. *)
Definition down : backend :=
  {| ollama_generate := λ _ _, None;
     ollama_stream := λ _ _, None;
     hf_translate := λ _ sentence, sentence;
     patience := 0 |}.

(** A flag that is clear when first read and set ever after. *)
Definition set_after_first : flag := λ t, negb (t =? 0)%nat.

(** A flag that is set at its reading at tick 1 only. *)
Definition set_at_second : flag := λ t, (t =? 1)%nat.

(** A heading pattern: the line begins with the word Chapter. *)
Definition chapter_heading (line : str) : bool :=
  startswith line (lit "Chapter").

(** A detector that is sure of English whatever it is given. *)
Definition sure_english : nat → str → option (list (str * bool)) :=
  λ _ _, Some [(lit "en", true)].

(** * Properties *)

(** ** Strings *)

Section StringFacts.
Context {U : Unicode}.

Lemma drop_while_snoc (p : N → bool) (b : str) (c : N) :
  p c = false → ∃ b', drop_while p (b ++ [c]) = b' ++ [c].
Proof.
  intros Hc. induction b as [|x b IH]; simpl.
  - rewrite Hc. by exists [].
  - destruct (p x); [done|]. by exists (x :: b).
Qed.

Lemma strip_snoc_nonempty (b : str) (c : N) :
  isspace c = false → strip (b ++ [c]) ≠ [].
Proof.
  intros Hc. unfold strip.
  destruct (drop_while_snoc isspace b c Hc) as [b' ->].
  rewrite rev_unit. simpl. rewrite Hc. simpl.
  intros H. by apply app_eq_nil in H as [_ ?].
Qed.

Lemma terminator_not_space (c : N) : is_terminator c = true → isspace c = false.
Proof.
  unfold is_terminator.
  destruct (N.eqb_spec c 46) as [->|_]; [done|].
  destruct (N.eqb_spec c 33) as [->|_]; [done|].
  destruct (N.eqb_spec c 63) as [->|_]; done.
Qed.

Lemma drop_cons_inv {A} (l : list A) (i : nat) (x : A) (rest : list A) :
  drop i l = x :: rest → l !! i = Some x ∧ drop (S i) l = rest.
Proof.
  intros H. split.
  - by rewrite <- (Nat.add_0_r i), <- lookup_drop, H.
  - by rewrite <- Nat.add_1_r, <- drop_drop, H.
Qed.

Lemma nonempty_true (s : str) : nonempty s = true ↔ s ≠ [].
Proof. by destruct s. Qed.

End StringFacts.

(** ** Sentence segmentation *)

Section Segmentation.
Context {U : Unicode}.

Lemma char_at_lookup (text : str) (i : nat) (ch : N) (p : N → bool) :
  text !! i = Some ch → char_at text i p = p ch.
Proof. unfold char_at. by intros ->. Qed.

Lemma split_step_boundary (text buffer : str) (sentences : list str)
    (i : nat) (ch : N) :
  text !! i = Some ch →
  split_step text (buffer, sentences) i =
    if boundary text i
    then ([], sentences ++ [strip (buffer ++ [ch])])
    else (buffer ++ [ch], sentences).
Proof.
  intros Hi. unfold split_step, boundary, followed_by, preceded_by.
  rewrite !(char_at_lookup _ _ _ _ Hi), Hi.
  replace (i + 1)%nat with (S i) by lia.
  destruct (is_terminator ch) eqn:Ht; simpl; [|done].
  destruct (char_at text (S i) is_terminator); simpl; [done|].
  destruct (ch =? 46)%N; simpl; [|done].
  destruct i as [|j]; simpl; [done|].
  rewrite Nat.sub_0_r.
  by destruct (char_at text j isdigit), (char_at text (S (S j)) isdigit).
Qed.

Lemma split_loop_reference (text : str) :
  ∀ (rest : str) (i : nat) (buffer : str) (sentences : list str),
    drop i text = rest →
    (let '(b, s) := fold_left (split_step text) (seq i (length rest))
                              (buffer, sentences) in
     if nonempty (strip b) then s ++ [strip b] else s)
    = sentences ++ reference_scan text i rest buffer.
Proof.
  induction rest as [|ch rest IH]; intros i buffer sentences Hdrop.
  - simpl. destruct (nonempty (strip buffer)); [done|]. by rewrite app_nil_r.
  - destruct (drop_cons_inv _ _ _ _ Hdrop) as [Hi Hdrop'].
    cbn [length seq fold_left reference_scan].
    rewrite (split_step_boundary _ _ _ _ _ Hi).
    destruct (boundary text i).
    + rewrite (IH (S i) [] _ Hdrop'). by rewrite <- app_assoc.
    + by rewrite (IH (S i) _ _ Hdrop').
Qed.

Lemma split_sentences_segment (text : str) :
  split_sentences text = segment text.
Proof.
  unfold split_sentences, segment.
  pose proof (split_loop_reference text text 0 [] [] eq_refl) as H.
  by destruct (fold_left _ _ _).
Qed.

Lemma boundary_terminator (text : str) (i : nat) (ch : N) :
  text !! i = Some ch → boundary text i = true → is_terminator ch = true.
Proof.
  unfold boundary, char_at. intros ->.
  intros H. apply andb_prop in H as [H _]. by apply andb_prop in H as [H _].
Qed.

Lemma reference_scan_nonempty (text : str) :
  ∀ (rest : str) (i : nat) (buffer : str),
    drop i text = rest → [] ∉ reference_scan text i rest buffer.
Proof.
  induction rest as [|ch rest IH]; intros i buffer Hdrop; simpl.
  - destruct (nonempty (strip buffer)) eqn:Hn.
    + apply nonempty_true in Hn.
      apply not_elem_of_cons. split; [done|apply not_elem_of_nil].
    + apply not_elem_of_nil.
  - destruct (drop_cons_inv _ _ _ _ Hdrop) as [Hi Hdrop'].
    destruct (boundary text i) eqn:Hb.
    + apply not_elem_of_cons. split; [|by apply IH].
      apply not_eq_sym, strip_snoc_nonempty, terminator_not_space.
      by eapply boundary_terminator.
    + by apply IH.
Qed.

(** C7: [split_sentences] is the reference scan; the empty text has no
    sentence, no sentence is the empty string, and the ellipsis example
    splits into three sentences. *)
Theorem split_sentences_reference :
  (∀ text, split_sentences text = segment text)
  ∧ split_sentences [] = []
  ∧ (∀ text, [] ∉ split_sentences text)
  ∧ split_sentences (lit "I think ... maybe. Yes!")
    = [lit "I think ..."; lit "maybe."; lit "Yes!"].
Proof.
  split; [exact split_sentences_segment|].
  split; [reflexivity|].
  split; [|vm_compute; reflexivity].
  intros text. rewrite split_sentences_segment.
  by apply reference_scan_nonempty.
Qed.

End Segmentation.

(** ** Response parsing *)

Section SearchFacts.

Lemma startswith_spec (s p : str) :
  startswith s p = true → s = p ++ drop (length p) s.
Proof.
  revert s. induction p as [|a p IH]; intros s H; [done|].
  destruct s as [|b s]; [done|]. simpl in H.
  apply andb_prop in H as [Hab H]. apply N.eqb_eq in Hab as ->.
  simpl. f_equal. by apply IH.
Qed.

Lemma startswith_app (p r : str) : startswith (p ++ r) p = true.
Proof.
  induction p as [|a p IH]; [done|].
  cbn [app startswith]. by rewrite N.eqb_refl, IH.
Qed.

Lemma find_spec (s sub : str) (j : nat) :
  find s sub = Some j → s = take j s ++ sub ++ drop (j + length sub) s.
Proof.
  revert j. induction s as [|c s IH]; intros j; simpl.
  - destruct (startswith [] sub) eqn:Hs; [|done].
    intros [= <-]. by apply startswith_spec in Hs.
  - destruct (startswith (c :: s) sub) eqn:Hs.
    + intros [= <-]. by apply startswith_spec in Hs.
    + destruct (find s sub) as [k|] eqn:Hf; [|done].
      intros [= <-]. simpl. f_equal. by apply IH.
Qed.

Lemma find_occurs (a sub b : str) : is_Some (find (a ++ sub ++ b) sub).
Proof.
  induction a as [|c a IH]; simpl.
  - destruct sub as [|x sub]; simpl.
    + destruct b; simpl; eauto.
    + rewrite N.eqb_refl, startswith_app. simpl. eauto.
  - destruct (startswith _ _); [eauto|].
    destruct IH as [k ->]. simpl. eauto.
Qed.

Lemma contains_find (s sub : str) :
  contains s sub = true → is_Some (find s sub).
Proof.
  induction s as [|c s IH]; simpl.
  - rewrite orb_false_r. intros ->. eauto.
  - destruct (startswith (c :: s) sub); simpl; [eauto|].
    intros H. destruct (IH H) as [k ->]. simpl. eauto.
Qed.

Lemma search_marked_Some (text s e g : str) :
  search_marked text s e = Some g → marked text s e.
Proof.
  induction text as [|x text IH]; simpl.
  - destruct (startswith [] s) eqn:Hs; [|done].
    destruct (find (drop (length s) []) e) as [j|] eqn:Hf; [|done].
    intros _. apply startswith_spec in Hs. apply find_spec in Hf.
    exists [], (take j (drop (length s) [])), (drop (j + length e) (drop (length s) [])).
    simpl. by rewrite <- Hf.
  - destruct (startswith (x :: text) s) eqn:Hs.
    + destruct (find (drop (length s) (x :: text)) e) as [j|] eqn:Hf.
      * intros _. apply startswith_spec in Hs. apply find_spec in Hf.
        exists [], (take j (drop (length s) (x :: text))),
               (drop (j + length e) (drop (length s) (x :: text))).
        simpl. by rewrite <- Hf.
      * intros H. destruct (IH H) as (a & b & c & ->).
        by exists (x :: a), b, c.
    + intros H. destruct (IH H) as (a & b & c & ->).
      by exists (x :: a), b, c.
Qed.

Lemma search_marked_marked (a s b e c : str) :
  is_Some (search_marked (a ++ s ++ b ++ e ++ c) s e).
Proof.
  induction a as [|x a IH].
  - simpl app.
    assert (∀ text, text = s ++ b ++ e ++ c → is_Some (search_marked text s e)) as H.
    { intros text ->. destruct (s ++ b ++ e ++ c) as [|y t] eqn:Heq.
      - simpl. rewrite <- Heq, startswith_app, drop_app_length.
        destruct (find_occurs b e c) as [j ->]. eauto.
      - cbn [search_marked]. rewrite <- Heq, startswith_app, drop_app_length.
        destruct (find_occurs b e c) as [j ->]. eauto. }
    by apply H.
  - cbn [app search_marked].
    destruct (if startswith _ _ then _ else _); [eauto|]. apply IH.
Qed.

(** The regular-expression search finds a group exactly when the text is
    marked. *)
Lemma search_marked_None (text s e : str) :
  search_marked text s e = None ↔ ¬ marked text s e.
Proof.
  split.
  - intros H (a & b & c & ->).
    destruct (search_marked_marked a s b e c) as [g Hg]. congruence.
  - intros H. destruct (search_marked text s e) eqn:Hs; [|done].
    destruct H. by eapply search_marked_Some.
Qed.

End SearchFacts.

(** ** Dictionaries *)

Section DictFacts.

Lemma dict_get_set_eq (d : dict) (k v : str) :
  dict_get (dict_set d k v) k = Some v.
Proof.
  induction d as [|[k' v'] d IH]; simpl.
  - by rewrite decide_True.
  - destruct (decide (k' = k)) as [->|Hne]; simpl.
    + by rewrite decide_True.
    + by rewrite decide_False.
Qed.

Lemma dict_get_set_ne (d : dict) (k k' v : str) :
  k ≠ k' → dict_get (dict_set d k v) k' = dict_get d k'.
Proof.
  intros Hne. induction d as [|[k0 v0] d IH]; simpl.
  - by rewrite decide_False.
  - destruct (decide (k0 = k)) as [->|Hne0]; simpl.
    + by rewrite !decide_False.
    + destruct (decide (k0 = k')); [done|]. apply IH.
Qed.

(** [d.update(u)] gives every key of [u] the value [u] holds for it and
    leaves the other keys of [d] alone. *)
Lemma dict_get_update (u d : dict) (k : str) :
  dict_get (dict_update d u) k =
    match dict_get (dict_update [] u) k with
    | Some v => Some v
    | None => dict_get d k
    end.
Proof.
  unfold dict_update. revert d.
  induction u as [|[k0 v0] u IH] using rev_ind; intros d; [done|].
  rewrite !fold_left_app. simpl.
  destruct (decide (k0 = k)) as [->|Hne].
  - by rewrite !dict_get_set_eq.
  - rewrite !dict_get_set_ne by done. apply IH.
Qed.

Lemma dict_mem_spec (d : dict) (k : str) :
  dict_mem d k = true ↔ is_Some (dict_get d k).
Proof.
  unfold dict_mem. destruct (dict_get d k); split; eauto; try done.
Qed.

End DictFacts.

Section ParsingFacts.
Context {U : Unicode}.

(** Neither the unpacking of [line.split("->", 1)] nor [src[0]] can fail
    where the loop body reaches them. *)
Lemma glossary_line_total (glossary : dict) (line : str) :
  ∃ verdict, glossary_line glossary line = Ok verdict.
Proof.
  unfold glossary_line.
  destruct (contains line ARROW) eqn:Hc; simpl; [|eauto].
  destruct (contains_find _ _ Hc) as [j Hj].
  unfold split_once. rewrite Hj.
  destruct (_ || _); [eauto|].
  destruct (_ && _); [eauto|].
  destruct (strip (take j line)) as [|c0 src] eqn:Hsrc; [simpl; eauto|].
  destruct (_ <=? _)%nat; [eauto|].
  destruct (negb _); eauto.
Qed.

Lemma glossary_lines_total (glossary : dict) (lines : list str) (updates : dict) :
  ∃ updates', glossary_lines glossary lines updates = Ok updates'.
Proof.
  revert updates. induction lines as [|line lines IH]; intros updates; simpl.
  - eauto.
  - destruct (glossary_line_total glossary line) as [[[src dst]|] ->]; simpl;
      apply IH.
Qed.

Lemma glossary_lines_app (glossary : dict) (l1 l2 : list str) (updates : dict) :
  glossary_lines glossary (l1 ++ l2) updates =
    result_bind (glossary_lines glossary l1 updates)
                (glossary_lines glossary l2).
Proof.
  revert updates. induction l1 as [|line l1 IH]; intros updates; simpl; [done|].
  destruct (glossary_line glossary line) as [[[src dst]|]|]; simpl; auto.
Qed.

(** Lines that do not store [src] leave its entry as it is. *)
Lemma glossary_lines_other (glossary : dict) (lines : list str) (src : str) :
  (∀ l d, l ∈ lines → glossary_line glossary l ≠ Ok (Some (src, d))) →
  ∀ updates updates',
    glossary_lines glossary lines updates = Ok updates' →
    dict_get updates' src = dict_get updates src.
Proof.
  induction lines as [|line lines IH]; intros Hno updates updates'; simpl.
  - by intros [= ->].
  - destruct (glossary_line glossary line) as [[[s d]|]|] eqn:Hl; simpl; [| |done].
    + intros H. rewrite (IH ltac:(intros; apply Hno; by right) _ _ H).
      apply dict_get_set_ne. intros ->. eapply Hno; [by left|done].
    + intros H. apply (IH ltac:(intros; apply Hno; by right) _ _ H).
Qed.

(** C8: [parse_translation_and_glossary] returns on every input; without
    a marked translation the translation is the whole trimmed response,
    and without a marked glossary block there are no updates. *)
Theorem parse_never_fails (text : str) (glossary : dict) (start_mark end_mark : str) :
  ∃ translation updates,
    parse_translation_and_glossary text glossary start_mark end_mark
      = Ok (translation, updates)
    ∧ (¬ marked text start_mark end_mark → translation = strip text)
    ∧ (¬ marked text GLOSSARY_START GLOSSARY_END → updates = []).
Proof.
  unfold parse_translation_and_glossary.
  destruct (search_marked text GLOSSARY_START GLOSSARY_END) as [block|] eqn:Hg.
  - destruct (glossary_lines_total glossary (splitlines block) []) as [updates ->].
    simpl. eexists _, _. split; [done|]. split.
    + intros Hm. apply search_marked_None in Hm.
      unfold prune_marked. by rewrite Hm.
    + intros Hm. apply search_marked_None in Hm. congruence.
  - eexists _, _. split; [done|]. split; [|done].
    intros Hm. apply search_marked_None in Hm.
    unfold prune_marked. by rewrite Hm.
Qed.

End ParsingFacts.

Section GlossaryFilter.
Context {U : Unicode}.

Lemma find_contains (s sub : str) :
  is_Some (find s sub) → contains s sub = true.
Proof.
  induction s as [|c s IH]; simpl.
  - destruct (startswith [] sub); [done|]. by intros [? ?].
  - destruct (startswith (c :: s) sub); [done|]. simpl.
    destruct (find s sub); [|by intros [? ?]]. intros _. apply IH. eauto.
Qed.

Lemma nonempty_dict_mem (glossary : dict) (src : str) :
  nonempty_dict glossary && dict_mem glossary src = true
  ↔ is_Some (dict_get glossary src).
Proof. rewrite <- dict_mem_spec. by destruct glossary. Qed.

Lemma split_once_contains (line a b : str) :
  split_once line ARROW = Some (a, b) → contains line ARROW = true.
Proof.
  unfold split_once. destruct (find line ARROW) eqn:Hf; [|done].
  intros _. apply find_contains. eauto.
Qed.

Lemma glossary_line_rejected (glossary : dict) (line a b : str) :
  split_once line ARROW = Some (a, b) →
  glossary_line glossary line = Ok None ↔
    strip a = [] ∨ strip b = []
    ∨ lower (strip a) = lower (strip b)
    ∨ is_Some (dict_get glossary (strip a))
    ∨ (length (strip a) ≤ 1)%nat
    ∨ (isascii (strip a) = true
       ∧ ∃ c0 rest, strip a = c0 :: rest ∧ isupper c0 = false).
Proof.
  intros Hsplit. unfold glossary_line.
  rewrite (split_once_contains _ _ _ Hsplit), Hsplit. cbn [negb].
  destruct (strip a) as [|c0 rest] eqn:Hsrc; [simpl; tauto|].
  destruct (strip b) as [|d0 drest] eqn:Hdst; [simpl; tauto|].
  cbn [nonempty andb negb orb].
  case_bool_decide as Hlow; [tauto|].
  destruct (nonempty_dict glossary && dict_mem glossary (c0 :: rest)) eqn:Hmem.
  { apply nonempty_dict_mem in Hmem. tauto. }
  assert (¬ is_Some (dict_get glossary (c0 :: rest))) as Hnot.
  { intros H. apply nonempty_dict_mem in H. congruence. }
  destruct (Nat.leb_spec (length (c0 :: rest)) 1) as [Hlen|Hlen]; [tauto|].
  destruct (isupper c0) eqn:Hup; cbn [orb negb].
  - split; [done|]. intros [|[|[|[|[|[_ (c & r & [= <- <-] & ?)]]]]]]; try done.
    + lia.
    + congruence.
  - destruct (isascii (c0 :: rest)) eqn:Hasc; cbn [negb].
    + split; [|done]. intros _. do 5 right. split; [done|]. eauto.
    + split; [done|]. intros [|[|[|[|[|[? _]]]]]]; try done. lia.
Qed.

Lemma glossary_line_accepted (glossary : dict) (line a b : str) :
  split_once line ARROW = Some (a, b) →
  glossary_line glossary line ≠ Ok None →
  glossary_line glossary line = Ok (Some (strip a, strip b)).
Proof.
  intros Hsplit. unfold glossary_line.
  rewrite (split_once_contains _ _ _ Hsplit), Hsplit. cbn [negb].
  destruct (_ || _); [done|].
  destruct (_ && _); [done|].
  destruct (_ <=? _)%nat eqn:Hlen; [done|].
  destruct (strip a) as [|c0 rest]; [done|].
  by destruct (negb _).
Qed.

(** C9: a line with an arrow is left out of the updates exactly when one
    of the rejection rules holds, and is stored under its trimmed source
    otherwise; the response of the repository's test parses to the
    translation Hello with the single update from 英雄 to hero. *)
Theorem glossary_filter :
  (∀ (glossary : dict) (line a b : str),
      split_once line ARROW = Some (a, b) →
      (glossary_line glossary line = Ok None ↔
         strip a = [] ∨ strip b = []
         ∨ lower (strip a) = lower (strip b)
         ∨ is_Some (dict_get glossary (strip a))
         ∨ (length (strip a) ≤ 1)%nat
         ∨ (isascii (strip a) = true
            ∧ ∃ c0 rest, strip a = c0 :: rest ∧ isupper c0 = false))
      ∧ (glossary_line glossary line ≠ Ok None →
         glossary_line glossary line = Ok (Some (strip a, strip b))))
  ∧ (uni_isspace 33521%N = false →
     uni_isspace 38596%N = false →
     uni_lower (lit "英雄") = lit "英雄" →
     ∃ updates,
       parse_translation_and_glossary example_response [] START_MARK END_MARK
         = Ok (lit "Hello", updates)
       ∧ dict_get updates (lit "英雄") = Some (lit "hero")
       ∧ dict_get updates (lit "Lord") = None).
Proof.
  split.
  - intros glossary line a b Hsplit. split.
    + by apply glossary_line_rejected.
    + by apply glossary_line_accepted.
  - destruct U as [f1 f2 f3 f4 f5]. simpl. intros H1 H2 H3.
    exists [(lit "英雄", lit "hero")]. split; [|done].
    vm_compute in H3.
    vm_compute. rewrite H1. vm_compute. rewrite H2. vm_compute.
    rewrite H3. vm_compute. by destruct (f4 33521%N).
Qed.

(** C10: when two lines of one glossary block are both accepted with the
    same source term, the updates hold the target of the later one. *)
Theorem glossary_block_last_line_wins
    (text : str) (glossary : dict) (start_mark end_mark : str)
    (block : str) (before between after : list str)
    (line1 line2 src dst1 dst2 : str) :
  search_marked text GLOSSARY_START GLOSSARY_END = Some block →
  splitlines block = before ++ line1 :: between ++ line2 :: after →
  glossary_line glossary line1 = Ok (Some (src, dst1)) →
  glossary_line glossary line2 = Ok (Some (src, dst2)) →
  (∀ l d, l ∈ after → glossary_line glossary l ≠ Ok (Some (src, d))) →
  ∃ translation updates,
    parse_translation_and_glossary text glossary start_mark end_mark
      = Ok (translation, updates)
    ∧ dict_get updates src = Some dst2.
Proof.
  intros Hblock Hlines _ H2 Hafter.
  unfold parse_translation_and_glossary. rewrite Hblock, Hlines.
  replace (before ++ line1 :: between ++ line2 :: after)
    with ((before ++ line1 :: between) ++ line2 :: after)
    by (by rewrite <- app_assoc).
  rewrite glossary_lines_app.
  destruct (glossary_lines_total glossary (before ++ line1 :: between) [])
    as [u1 ->].
  cbn [result_bind glossary_lines]. rewrite H2. cbn [result_bind].
  destruct (glossary_lines_total glossary after (dict_set u1 src dst2))
    as [u2 Hu2].
  rewrite Hu2. cbn [result_bind]. eexists _, _. split; [done|].
  rewrite (glossary_lines_other _ _ _ Hafter _ _ Hu2).
  apply dict_get_set_eq.
Qed.

End GlossaryFilter.

(** ** Runs *)

Section MonadFacts.

Lemma bind_return {A B} (m : M A) (k : A → M B) (w w1 : world) (a : A) :
  m w = Return a w1 → (m ≫= k) w = k a w1.
Proof. unfold mbind, M_bind. by intros ->. Qed.

Lemma bind_return_inv {A B} (m : M A) (k : A → M B) (w w' : world) (b : B) :
  (m ≫= k) w = Return b w' →
  ∃ a w1, m w = Return a w1 ∧ k a w1 = Return b w'.
Proof. unfold mbind, M_bind. destruct (m w); [eauto|done|done]. Qed.

Lemma later_than_refl (w : world) : later_than w w.
Proof. done. Qed.

Lemma later_than_trans (w1 w2 w3 : world) :
  later_than w1 w2 → later_than w2 w3 → later_than w1 w3.
Proof. unfold later_than. intros (? & ? & ?) (? & ? & ?). split_and!; [lia|congruence..]. Qed.

End MonadFacts.

Ltac run H := rewrite (bind_return _ _ _ _ _ H).

Section BatchFacts.
Context {U : Unicode} (B : backend).
Context (cancel_event pause_event : option flag).
Hypothesis Hcancel : never_set cancel_event.
Hypothesis Hpause : clear_from (patience B) pause_event.

Lemma is_set_never (w : world) :
  ∃ w', is_set cancel_event w = Return false w' ∧ later_than w w'.
Proof.
  unfold is_set. destruct cancel_event as [f|]; simpl in Hcancel.
  - unfold observe. rewrite Hcancel. eexists. split; [done|].
    unfold later_than. simpl. split_and!; [lia|done..].
  - eexists. split; [done|]. apply later_than_refl.
Qed.

Lemma wait_while_paused_returns (pause : flag) (fuel : nat) :
  (∀ t, (patience B ≤ t)%nat → pause t = false) →
  ∀ w, (patience B ≤ clock w + fuel)%nat →
    ∃ w', wait_while_paused fuel cancel_event pause w = Return () w'
          ∧ later_than w w'.
Proof.
  intros Hp. induction fuel as [|fuel IH]; intros w Hw;
    cbn [wait_while_paused]; unfold mbind at 1, M_bind at 1, observe;
    (destruct (pause (clock w)) eqn:Hnow;
     [|eexists; split; [done|]; unfold later_than; simpl; split_and!; [lia|done..]]).
  - rewrite Hp in Hnow by lia. done.
  - destruct (is_set_never (World (S (clock w)) (calls w) (trace w)))
      as (w1 & H1 & Hl1 & Hc1 & Ht1). simpl in *.
    run H1. unfold tick, mbind, M_bind.
    destruct (IH (World (S (clock w1)) (calls w1) (trace w1)))
      as (w2 & -> & Hl2 & Hc2 & Ht2); [simpl; lia|]. simpl in *.
    eexists. split; [done|]. unfold later_than. split_and!; [lia|congruence..].
Qed.

Lemma pause_point_returns (w : world) :
  ∃ w', pause_point B cancel_event pause_event w = Return () w'
        ∧ later_than w w'.
Proof.
  unfold pause_point. destruct pause_event as [pause|]; simpl in Hpause.
  - apply wait_while_paused_returns; [done|lia].
  - eexists. split; [done|]. apply later_than_refl.
Qed.

End BatchFacts.

Section UndisturbedBatch.
Context {U : Unicode} (B : backend).
Context (sentences : list str) (target_lang : str)
        (use_ollama : bool) (window step : Z)
        (progress_callback token_callback : bool) (glossary : dict).
Context (cancel_event pause_event : option flag).
Hypothesis Hcancel : never_set cancel_event.
Hypothesis Hpause : clear_from (patience B) pause_event.
Hypothesis Hup : use_ollama = true → reachable B.

Lemma parse_returns (text : str) (start_mark end_mark : str) :
  ∃ updates,
    parse_translation_and_glossary text glossary start_mark end_mark
      = Ok (prune_marked text start_mark end_mark, updates).
Proof.
  unfold parse_translation_and_glossary.
  destruct (search_marked text GLOSSARY_START GLOSSARY_END) as [block|].
  - destruct (glossary_lines_total glossary (splitlines block) []) as [u ->].
    simpl. eauto.
  - eauto.
Qed.

Lemma read_stream_tokens (base idx : Z) (parts : list chunk) :
  ∀ raw w,
    read_stream (Some (λ i text, emit (Token (base + i) text))) idx
                START_MARK END_MARK parts raw w
    = Return (raw ++ stream_text parts)
             (World (clock w) (calls w)
                    (trace w ++ (Token (base + idx) <$> stream_partials raw parts))).
Proof.
  induction parts as [|part parts IH]; intros raw w.
  - simpl. rewrite !app_nil_r. by destruct w.
  - cbn [read_stream stream_text stream_partials].
    unfold mbind at 1, M_bind at 1.
    destruct (nonempty (delta part)) eqn:Hd.
    + unfold mbind at 1, M_bind at 1, emit at 1, mret at 1, M_ret at 1.
      destruct (done part).
      * unfold mret, M_ret. simpl. by rewrite app_nil_r.
      * rewrite IH. cbn [clock calls trace].
        by rewrite fmap_app, <- !app_assoc.
    + destruct (delta part) as [|? ?] eqn:Hdelta; [|done].
      unfold mret at 1, M_ret at 1. cbn [app]. rewrite (app_nil_r raw).
      destruct (done part).
      * unfold mret, M_ret. simpl. rewrite !app_nil_r. by destruct w.
      * by rewrite IH.
Qed.

Lemma read_stream_silent (idx : Z) (parts : list chunk) :
  ∀ raw w,
    read_stream None idx START_MARK END_MARK parts raw w
    = Return (raw ++ stream_text parts) w.
Proof.
  induction parts as [|part parts IH]; intros raw w.
  - simpl. by rewrite !app_nil_r.
  - cbn [read_stream stream_text].
    unfold mbind at 1, M_bind at 1.
    assert ((if nonempty (delta part)
             then mret (raw ++ delta part) else mret raw : M str) w
            = Return (raw ++ delta part) w) as ->.
    { destruct (delta part); simpl; by rewrite ?app_nil_r. }
    destruct (done part).
    + unfold mret, M_ret. by rewrite app_nil_r.
    + rewrite IH. by rewrite <- app_assoc.
Qed.

Local Opaque render_prompt parse_translation_and_glossary prune_marked.

Lemma imap_cons_shift {A X} (f : nat → A → X) (x : A) (l : list A) :
  imap f (x :: l) = f 0%nat x :: imap (λ k, f (S k)) l.
Proof. done. Qed.

Lemma ollama_loop_undisturbed (base : Z) (sents : list str) :
  reachable B →
  ∀ (idx : Z) (outs : list str) (terms : dict) (raws : list str) (w : world),
    let cb := if token_callback
              then Some (λ i text, emit (Token (base + i) text)) else None in
    let rs := imap (λ k s, reply_raw B target_lang true token_callback glossary
                             (calls w + k) s) sents in
    ∃ w',
      ollama_loop B target_lang glossary token_callback cb cancel_event
                  pause_event START_MARK END_MARK idx sents outs terms raws w
      = Return (outs ++ (reply_cleaned true <$> rs),
                fold_left dict_update (reply_updates true glossary <$> rs) terms,
                raws ++ rs) w'
      ∧ calls w' = (calls w + length sents)%nat
      ∧ trace w' = trace w ++
          concat (imap (λ k s,
                    Request (prompt_of target_lang glossary s)
                    :: (Token (base + (idx + Z.of_nat k))
                          <$> reply_partials B target_lang true token_callback
                                             glossary (calls w + k) s))
                  sents).
Proof.
  intros Hreach.
  induction sents as [|s sents IH]; intros idx outs terms raws w cb rs.
  - exists w. subst rs. simpl. by rewrite !app_nil_r, Nat.add_0_r.
  - cbn [ollama_loop].
    destruct (is_set_never cancel_event Hcancel w) as (w1 & H1 & Hl1 & Hc1 & Ht1).
    run H1.
    destruct (pause_point_returns B cancel_event pause_event Hcancel Hpause w1)
      as (w2 & H2 & Hl2 & Hc2 & Ht2).
    run H2.
    pose (prompt := prompt_of target_lang glossary s).
    destruct (parse_returns (reply_raw B target_lang true token_callback glossary
                                       (calls w) s) START_MARK END_MARK)
      as [ups Hparse].
    assert (calls w2 = calls w) as Hc by congruence.
    assert (trace w2 = trace w) as Ht by congruence.
    destruct (Hreach (calls w) prompt) as [[response Hgen] [parts Hstr]].
    set (w3 := World (clock w2) (S (calls w))
                 (trace w ++ Request prompt
                    :: (Token (base + idx)
                          <$> reply_partials B target_lang true token_callback
                                             glossary (calls w) s))).
    destruct (IH (idx + 1) (outs ++ [reply_cleaned true
                (reply_raw B target_lang true token_callback glossary (calls w) s)])
                (dict_update terms ups)
                (raws ++ [reply_raw B target_lang true token_callback glossary (calls w) s])
                w3) as (w' & Hrec & Hcalls & Htrace).
    pose (r0 := reply_raw B target_lang true token_callback glossary (calls w) s).
    assert (rs = r0 :: imap (λ k s, reply_raw B target_lang true token_callback
                                      glossary (calls w3 + k) s) sents) as Hrs.
    { subst rs r0 w3. rewrite imap_cons_shift, Nat.add_0_r. f_equal.
      apply imap_ext. intros k x _. cbn [calls]. f_equal. lia. }
    assert (reply_updates true glossary r0 = ups) as Hups.
    { unfold reply_updates. subst r0. by rewrite Hparse. }
    exists w'. split; [|split].
    + rewrite Hrs, !fmap_cons, Hups. cbn [fold_left].
      rewrite !(cons_middle _ outs), !(cons_middle _ raws), !app_assoc.
      subst r0. rewrite <- Hrec. clear Hrec IH Hrs Hups.
      subst cb w3. unfold reply_raw, reply_partials, reply_cleaned in *.
      change (render_prompt _ _ _ _ _ _ s) with prompt.
      change (prompt_of target_lang glossary s) with prompt in Hparse |- *.
      destruct token_callback; cbn [andb].
      * unfold mbind at 1, M_bind at 1. unfold mbind at 1, M_bind at 1.
        unfold call at 1. rewrite Hc, Ht. rewrite Hstr in Hparse |- *. cbn [default from_option id] in *.
        rewrite read_stream_tokens. cbn [app clock calls trace].
        rewrite Hparse. cbn [lift]. unfold mbind at 1, M_bind at 1, mret at 1, M_ret at 1.
        cbn [negb]. unfold mbind at 1, M_bind at 1, mret at 1, M_ret at 1.
        rewrite <- app_assoc. reflexivity.
      * unfold mbind at 1, M_bind at 1. unfold mbind at 1, M_bind at 1.
        unfold call at 1. rewrite Hc, Ht. rewrite Hgen in Hparse |- *. cbn [default from_option id] in *.
        unfold mret at 1, M_ret at 1.
        rewrite Hparse. cbn [lift]. unfold mbind at 1, M_bind at 1, mret at 1, M_ret at 1.
        unfold mbind at 1, M_bind at 1, mret at 1, M_ret at 1.
        reflexivity.
    + rewrite Hcalls. subst w3. cbn [calls length]. lia.
    + rewrite Htrace. subst w3. cbn [trace calls].
      rewrite imap_cons_shift. cbn [concat]. rewrite Nat.add_0_r, Z.add_0_r.
      rewrite <- app_assoc. cbn [app].
      erewrite (imap_ext _ _ sents); [reflexivity|].
      intros k x _. cbn beta.
      replace (idx + 1 + Z.of_nat k) with (idx + Z.of_nat (S k)) by lia.
      by replace (S (calls w) + k)%nat with (calls w + S k)%nat by lia.
Qed.

Lemma pipeline_loop_undisturbed (sents : list str) :
  ∀ (outs : list str) (w : world),
    ∃ w',
      pipeline_loop B cancel_event pause_event sents outs w
      = Return (outs ++ imap (λ k s, hf_translate B (calls w + k) s) sents) w'
      ∧ calls w' = (calls w + length sents)%nat
      ∧ trace w' = trace w ++ (Request <$> sents).
Proof.
  induction sents as [|s sents IH]; intros outs w.
  - exists w. simpl. by rewrite !app_nil_r, Nat.add_0_r.
  - cbn [pipeline_loop].
    destruct (is_set_never cancel_event Hcancel w) as (w1 & H1 & Hl1 & Hc1 & Ht1).
    run H1.
    destruct (pause_point_returns B cancel_event pause_event Hcancel Hpause w1)
      as (w2 & H2 & Hl2 & Hc2 & Ht2).
    run H2. unfold mbind at 1, M_bind at 1, call at 1.
    rewrite Hc2, Hc1, Ht2, Ht1.
    destruct (IH (outs ++ [hf_translate B (calls w) s])
                 (World (clock w2) (S (calls w)) (trace w ++ [Request s])))
      as (w' & -> & Hcalls & Htrace).
    exists w'. cbn [calls trace] in *. split; [|split].
    + rewrite imap_cons_shift, Nat.add_0_r, <- app_assoc. cbn [app].
      erewrite (imap_ext _ _ sents); [reflexivity|].
      intros k x _. cbn beta. f_equal. lia.
    + rewrite Hcalls. cbn [length]. lia.
    + rewrite Htrace, fmap_cons, <- app_assoc. done.
Qed.

Lemma fold_update_empty (ds : list dict) :
  Forall (λ d, d = []) ds → fold_left dict_update ds [] = [].
Proof. induction 1 as [|d ds -> _ IH]; [done|]. exact IH. Qed.

Lemma translate_sentences_undisturbed (base : Z) (sents : list str) (w : world) :
  let cb := if token_callback
            then Some (λ i text, emit (Token (base + i) text)) else None in
  let rs := imap (λ k s, reply_raw B target_lang use_ollama token_callback
                           glossary (calls w + k) s) sents in
  ∃ w',
    translate_sentences B sents target_lang use_ollama cb glossary
                        cancel_event pause_event START_MARK END_MARK w
    = Return (reply_cleaned use_ollama <$> rs,
              fold_left dict_update (reply_updates use_ollama glossary <$> rs) [],
              rs) w'
    ∧ calls w' = (calls w + length sents)%nat
    ∧ trace w' = trace w ++
        concat (imap (λ k s,
                  Request (request_of target_lang use_ollama glossary s)
                  :: (Token (base + Z.of_nat k)
                        <$> reply_partials B target_lang use_ollama
                              token_callback glossary (calls w + k) s))
                sents).
Proof.
  intros cb rs. unfold translate_sentences. destruct use_ollama eqn:Hbackend.
  - assert ((match cb with Some _ => true | None => false end) = token_callback)
      as -> by (subst cb; by destruct token_callback).
    unfold translate_with_ollama.
    destruct (ollama_loop_undisturbed base sents (Hup eq_refl) 0 [] [] [] w)
      as (w' & Hrun & Hcalls & Htrace).
    exists w'. split; [exact Hrun|]. split; [exact Hcalls|].
    rewrite Htrace. f_equal.
  - destruct (pipeline_loop_undisturbed sents [] w) as (w' & Hrun & Hcalls & Htrace).
    exists w'. run Hrun. unfold mret, M_ret. split; [|split; [done|]].
    + subst rs. unfold reply_raw, reply_cleaned. cbn [app].
      rewrite list_fmap_id. rewrite fold_update_empty; [done|].
      apply Forall_fmap, Forall_true. done.
    + rewrite Htrace. f_equal. unfold reply_partials, request_of. cbn [andb fmap list_fmap].
      generalize (calls w). clear.
      induction sents as [|s sents IH]; intros n; [done|].
      rewrite imap_cons_shift, fmap_cons. cbn [concat app]. f_equal.
      rewrite (IH (S n)). f_equal.
Qed.

Lemma merge_updates_guard (st : loop_state) (updates : dict) :
  (if nonempty_dict updates
   then LoopState (translated st) (raw_map st)
                  (dict_update (all_updates st) updates)
   else st)
  = LoopState (translated st) (raw_map st)
              (dict_update (all_updates st) updates).
Proof. destruct updates; [by destruct st|done]. Qed.

Lemma window_loop_undisturbed (starts : list Z) :
  ∀ (st : loop_state) (w : world),
    let sched := schedule sentences window starts (calls w) in
    ∃ w',
      window_loop B sentences target_lang use_ollama window step
                  progress_callback token_callback glossary
                  cancel_event pause_event starts st w
      = Return (fold_left (window_store B sentences target_lang use_ollama
                                        window token_callback glossary)
                          sched st) w'
      ∧ trace w' = trace w ++
          concat (window_events B sentences target_lang use_ollama window step
                                progress_callback token_callback glossary
                    <$> sched).
Proof.
  induction starts as [|start later IH]; intros st w sched.
  - exists w. subst sched. simpl. by rewrite app_nil_r.
  - cbn [window_loop].
    destruct (is_set_never cancel_event Hcancel w) as (w1 & H1 & Hl1 & Hc1 & Ht1).
    run H1.
    destruct (pause_point_returns B cancel_event pause_event Hcancel Hpause w1)
      as (w2 & H2 & Hl2 & Hc2 & Ht2).
    run H2. fold (window_sents sentences window start).
    destruct (translate_sentences_undisturbed start
                (window_sents sentences window start) w2)
      as (w3 & H3 & Hc3 & Ht3).
    run H3. cbn beta iota. rewrite merge_updates_guard.
    assert (calls w2 = calls w) as Hc by congruence.
    assert (trace w2 = trace w) as Ht by congruence.
    rewrite Hc in *. rewrite Ht in *. clear Hc Ht.
    set (st' := LoopState _ _ _).
    set (progress := if progress_callback then _ else _).
    set (w4 := World (clock w3) (calls w3)
                 (trace w3 ++ if progress_callback
                              then [Progress (Z.min (Z.of_nat (length sentences)) (start + step))
                                             (Z.of_nat (length sentences))]
                              else [])).
    assert (progress w3 = Return () w4) as H4.
    { subst progress w4. destruct progress_callback; [done|].
      unfold mret, M_ret. rewrite app_nil_r. by destruct w3. }
    run H4.
    destruct (IH st' w4) as (w' & Hrun & Htrace).
    exists w'. subst sched. cbn [schedule fold_left fmap list_fmap concat].
    subst w4. cbn [calls trace] in *. rewrite Hc3 in *.
    split.
    + exact Hrun.
    + rewrite Htrace, Ht3. unfold window_events at 2. by rewrite <- !app_assoc.
Qed.

End UndisturbedBatch.

(** ** Windows and the result maps *)

Section SliceFacts.

Lemma slice_take_drop {A} (l : list A) (a b : Z) :
  0 ≤ a → 0 ≤ b →
  slice l a b = take (Z.to_nat b - Z.to_nat a) (drop (Z.to_nat a) l).
Proof.
  intros Ha Hb. unfold slice, slice_bound.
  destruct (Z.ltb_spec a 0) as [?|_]; [lia|].
  destruct (Z.ltb_spec b 0) as [?|_]; [lia|].
  destruct (Z.le_gt_cases a (Z.of_nat (length l))) as [Hal|Hal].
  - rewrite (Z.min_l a) by done.
    destruct (Z.le_gt_cases b (Z.of_nat (length l))) as [Hbl|Hbl].
    + rewrite (Z.min_l b) by done. f_equal. lia.
    + rewrite (Z.min_r b) by lia.
      rewrite !take_ge; [done|rewrite length_drop; lia..].
  - rewrite !(drop_ge l); [by rewrite !take_nil|lia..].
Qed.

Lemma slice_lookup {A} (l : list A) (a b : Z) (k : nat) :
  0 ≤ a → 0 ≤ b →
  slice l a b !! k =
    if bool_decide (a + Z.of_nat k < b) then l !! (Z.to_nat a + k)%nat else None.
Proof.
  intros Ha Hb. rewrite slice_take_drop by done.
  case_bool_decide as Hk.
  - rewrite lookup_take_lt by lia. apply lookup_drop.
  - apply lookup_take_ge. lia.
Qed.

Lemma slice_length {A} (l : list A) (a b : Z) :
  0 ≤ a ≤ Z.of_nat (length l) → a ≤ b →
  Z.of_nat (length (slice l a b)) = Z.min b (Z.of_nat (length l)) - a.
Proof.
  intros Ha Hb. rewrite slice_take_drop by lia.
  rewrite length_take, length_drop. lia.
Qed.

Lemma div_ceil_lt (k total step : Z) :
  0 < step → k < (total + step - 1) `div` step ↔ k * step < total.
Proof.
  intros Hs. split; intros H.
  - pose proof (Z.mul_div_le (total + step - 1) step Hs). nia.
  - assert (k + 1 ≤ (total + step - 1) `div` step); [|lia].
    apply Z.div_le_lower_bound; [done|]. nia.
Qed.

Lemma elem_of_py_range (x total step : Z) :
  0 < step →
  x ∈ py_range 0 total step ↔ ∃ k, 0 ≤ k ∧ x = k * step ∧ x < total.
Proof.
  intros Hs. unfold py_range. rewrite list_elem_of_fmap. split.
  - intros (k & -> & Hk). apply elem_of_seqZ in Hk.
    replace (total - 0 + step - 1) with (total + step - 1) in Hk by lia.
    destruct Hk as [Hk0 Hk]. rewrite Z.add_0_l in Hk.
    apply div_ceil_lt in Hk; [|done].
    exists k. split; [lia|]. split; lia.
  - intros (k & Hk & -> & Hlt). exists k. split; [lia|].
    apply elem_of_seqZ.
    replace (total - 0 + step - 1) with (total + step - 1) by lia.
    split; [lia|]. rewrite Z.add_0_l. by apply div_ceil_lt.
Qed.

Lemma py_range_lookup (total step : Z) (k : nat) :
  0 < step →
  py_range 0 total step !! k =
    if bool_decide (Z.of_nat k * step < total) then Some (Z.of_nat k * step) else None.
Proof.
  intros Hs. unfold py_range. rewrite list_lookup_fmap.
  replace (total - 0 + step - 1) with (total + step - 1) by lia.
  case_bool_decide as Hk.
  - rewrite lookup_seqZ_lt; [simpl; f_equal; lia|]. by apply div_ceil_lt.
  - rewrite lookup_seqZ_ge; [done|].
    destruct (Z.le_gt_cases ((total + step - 1) `div` step) (Z.of_nat k)); [done|].
    exfalso. apply Hk. by apply div_ceil_lt.
Qed.

Lemma py_range_unit (total : Z) : py_range 0 total 1 = seqZ 0 total.
Proof.
  unfold py_range. replace (total - 0 + 1 - 1) with total by lia.
  rewrite Z.div_1_r. rewrite <- (list_fmap_id (seqZ 0 total)) at 2.
  apply list_fmap_ext. intros ? k _. simpl. lia.
Qed.

End SliceFacts.

Section StoreFacts.
Context {U : Unicode}.

Lemma setdefault_lookup (m : gmap Z str) (k i : Z) (v : str) :
  setdefault m k v !! i =
    match m !! i with
    | Some x => Some x
    | None => if decide (k = i) then Some v else None
    end.
Proof.
  unfold setdefault. destruct (m !! k) as [y|] eqn:Hk.
  - destruct (m !! i) eqn:Hi; [done|]. case_decide; [congruence|done].
  - destruct (decide (k = i)) as [->|Hne].
    + by rewrite lookup_insert_eq, Hk.
    + rewrite lookup_insert_ne by done. by destruct (m !! i).
Qed.

(** What the storing loop leaves at index [i]: the value already there,
    or else the cleaned output at position [i - start] of the window. *)
Lemma store_outputs_translated (glossary : dict) (pairs : list (str * str)) :
  ∀ (start : Z) (st : loop_state) (i : Z),
    translated (store_outputs glossary start pairs st) !! i =
      match translated st !! i with
      | Some v => Some v
      | None =>
        if bool_decide (start ≤ i)
        then (λ p, apply_glossary (strip (strip_tag p.1)) glossary)
               <$> pairs !! Z.to_nat (i - start)
        else None
      end.
Proof.
  induction pairs as [|[out raw] pairs IH]; intros start st i.
  - simpl. destruct (translated st !! i); [done|]. by case_bool_decide.
  - cbn [store_outputs]. rewrite IH. cbn [translated].
    rewrite setdefault_lookup.
    destruct (translated st !! i) as [v|]; [done|].
    destruct (decide (start = i)) as [->|Hne].
    + rewrite bool_decide_eq_true_2 by lia. by rewrite Z.sub_diag.
    + case_bool_decide as H1; case_bool_decide as H2; try lia; [|done].
      replace (Z.to_nat (i - start)) with (S (Z.to_nat (i - (start + 1)))) by lia.
      done.
Qed.

Lemma store_outputs_raw_map (glossary : dict) (pairs : list (str * str)) :
  ∀ (start : Z) (st : loop_state) (i : Z),
    raw_map (store_outputs glossary start pairs st) !! i =
      match raw_map st !! i with
      | Some v => Some v
      | None =>
        if bool_decide (start ≤ i)
        then snd <$> pairs !! Z.to_nat (i - start)
        else None
      end.
Proof.
  induction pairs as [|[out raw] pairs IH]; intros start st i.
  - simpl. destruct (raw_map st !! i); [done|]. by case_bool_decide.
  - cbn [store_outputs]. rewrite IH. cbn [raw_map].
    rewrite setdefault_lookup.
    destruct (raw_map st !! i) as [v|]; [done|].
    destruct (decide (start = i)) as [->|Hne].
    + rewrite bool_decide_eq_true_2 by lia. by rewrite Z.sub_diag.
    + case_bool_decide as H1; case_bool_decide as H2; try lia; [|done].
      replace (Z.to_nat (i - start)) with (S (Z.to_nat (i - (start + 1)))) by lia.
      done.
Qed.

Lemma store_outputs_updates (glossary : dict) (pairs : list (str * str)) :
  ∀ (start : Z) (st : loop_state),
    all_updates (store_outputs glossary start pairs st) = all_updates st.
Proof.
  induction pairs as [|[out raw] pairs IH]; intros start st; [done|].
  cbn [store_outputs]. by rewrite IH.
Qed.

Lemma zip_fmap_self {A X} (f : A → X) (l : list A) :
  zip (f <$> l) l = (λ a, (f a, a)) <$> l.
Proof.
  induction l as [|a l IH]; [done|].
  rewrite !fmap_cons. cbn [zip_with]. by rewrite IH.
Qed.

Lemma collect_fmap (m : gmap Z str) (f : Z → str) (keys : list Z) :
  (∀ i, i ∈ keys → m !! i = Some (f i)) → collect m keys = Ok (f <$> keys).
Proof.
  induction keys as [|i keys IH]; intros H; [done|].
  cbn [collect]. rewrite (H i) by (by left).
  rewrite IH by (intros; apply H; by right). done.
Qed.

Lemma collect_missing (m : gmap Z str) (keys : list Z) (vs : list str) :
  collect m keys = Ok vs → ∀ i, i ∈ keys → is_Some (m !! i).
Proof.
  revert vs. induction keys as [|k keys IH]; intros vs H i Hi.
  - by apply elem_of_nil in Hi.
  - cbn [collect] in H. destruct (m !! k) as [v|] eqn:Hk; [|done].
    destruct (collect m keys) as [vs'|] eqn:Hc; [|done].
    apply elem_of_cons in Hi as [->|Hi]; [eauto|]. by eapply IH.
Qed.

End StoreFacts.

Section WindowFacts.
Context {U : Unicode} (B : backend).
Context (sentences : list str) (target_lang : str)
        (use_ollama : bool) (window step : Z)
        (progress_callback token_callback : bool) (glossary : dict).

Local Abbreviation total := (Z.of_nat (length sentences)).
Local Abbreviation store :=
  (window_store B sentences target_lang use_ollama window token_callback glossary).
Local Abbreviation raw_of :=
  (reply_raw B target_lang use_ollama token_callback glossary).
Local Abbreviation entry := (entry_of use_ollama glossary).
Local Abbreviation sents_of := (window_sents sentences window).

Lemma window_sents_lookup (start : Z) (k : nat) :
  0 ≤ start → 0 ≤ start + window →
  sents_of start !! k =
    if bool_decide (Z.of_nat k < window)
    then tag (start + Z.of_nat k) <$> sentences !! (Z.to_nat start + k)%nat
    else None.
Proof.
  intros Hs Hw. unfold window_sents, tag_window.
  rewrite list_lookup_imap, slice_lookup by done.
  case_bool_decide; case_bool_decide; try lia; done.
Qed.

Lemma window_sents_length (start : Z) :
  0 ≤ start ≤ total → 0 ≤ window →
  Z.of_nat (length (sents_of start)) = Z.min window (total - start).
Proof.
  intros Hs Hw. unfold window_sents, tag_window.
  rewrite length_imap, slice_length by lia. lia.
Qed.

Lemma schedule_starts (starts : list Z) (made : nat) :
  (schedule sentences window starts made).*1 = starts.
Proof.
  revert made. induction starts as [|s starts IH]; intros made; [done|].
  cbn [schedule fmap list_fmap fst]. by rewrite IH.
Qed.

(** A window that covers [i] holds the tagged sentence [i] at position
    [i - start]. *)
Lemma window_sents_covered (start i : Z) :
  0 ≤ start → 0 ≤ start + window →
  start ≤ i < start + Z.of_nat (length (sents_of start)) →
  sents_of start !! Z.to_nat (i - start) = Some (tag i (sentence_at sentences i)).
Proof.
  intros Hs Hw Hi.
  destruct (sents_of start !! Z.to_nat (i - start)) as [x|] eqn:Hx.
  - rewrite window_sents_lookup in Hx by done.
    case_bool_decide; [|done].
    replace (Z.to_nat start + Z.to_nat (i - start))%nat with (Z.to_nat i) in Hx by lia.
    replace (start + Z.of_nat (Z.to_nat (i - start))) with i in Hx by lia.
    unfold sentence_at. destruct (sentences !! Z.to_nat i); [|done].
    by injection Hx as <-.
  - apply lookup_ge_None in Hx. lia.
Qed.

Lemma first_call_covered (sched : list (Z * nat)) (start : Z) (made : nat) (i : Z) :
  (start, made) ∈ sched →
  start ≤ i < start + Z.of_nat (length (sents_of start)) →
  is_Some (first_call sentences window sched i).
Proof.
  induction sched as [|[s m] sched IH]; intros Hin Hi.
  - by apply elem_of_nil in Hin.
  - cbn [first_call]. case_bool_decide; [eauto|].
    apply elem_of_cons in Hin as [[= -> ->]|Hin]; [done|]. by apply IH.
Qed.

(** The entry of the result map at [i] after the windows of [sched]: the
    value that was there, or else the entry made from the reply to the
    first call for sentence [i]. *)
Lemma fold_store_translated (sched : list (Z * nat)) :
  Forall (λ sm, 0 ≤ sm.1 ∧ 0 ≤ sm.1 + window) sched →
  ∀ (st : loop_state) (i : Z),
    translated (fold_left store sched st) !! i =
      match translated st !! i with
      | Some v => Some v
      | None =>
        (λ c, entry (raw_of c (tag i (sentence_at sentences i))))
          <$> first_call sentences window sched i
      end.
Proof.
  induction 1 as [|[start made] sched [Hs Hw] _ IH]; intros st i.
  - simpl. by destruct (translated st !! i).
  - cbn [fold_left]. rewrite IH. unfold window_store. cbn [translated fst].
    rewrite store_outputs_translated, zip_fmap_self, list_lookup_fmap.
    destruct (translated st !! i) as [v|]; [done|].
    cbn [first_call].
    unfold window_raws. cbn [fst snd]. rewrite list_lookup_imap.
    case_bool_decide as H1; case_bool_decide as H2; try lia.
    + rewrite window_sents_covered by done. done.
    + destruct (sents_of start !! Z.to_nat (i - start)) eqn:Hx; [|done].
      apply lookup_lt_Some in Hx. lia.
    + done.
Qed.

Lemma fold_store_raw_map (sched : list (Z * nat)) :
  Forall (λ sm, 0 ≤ sm.1 ∧ 0 ≤ sm.1 + window) sched →
  ∀ (st : loop_state) (i : Z),
    raw_map (fold_left store sched st) !! i =
      match raw_map st !! i with
      | Some v => Some v
      | None =>
        (λ c, raw_of c (tag i (sentence_at sentences i)))
          <$> first_call sentences window sched i
      end.
Proof.
  induction 1 as [|[start made] sched [Hs Hw] _ IH]; intros st i.
  - simpl. by destruct (raw_map st !! i).
  - cbn [fold_left]. rewrite IH. unfold window_store. cbn [raw_map fst].
    rewrite store_outputs_raw_map, zip_fmap_self, list_lookup_fmap.
    destruct (raw_map st !! i) as [v|]; [done|].
    cbn [first_call].
    unfold window_raws. cbn [fst snd]. rewrite list_lookup_imap.
    case_bool_decide as H1; case_bool_decide as H2; try lia.
    + rewrite window_sents_covered by done. done.
    + destruct (sents_of start !! Z.to_nat (i - start)) eqn:Hx; [|done].
      apply lookup_lt_Some in Hx. lia.
    + done.
Qed.

(** With a step no larger than the window, every index has a window. *)
Lemma first_call_total (made : nat) (i : Z) :
  1 ≤ step ≤ window → 0 ≤ i < total →
  is_Some (first_call sentences window
             (schedule sentences window (py_range 0 total step) made) i).
Proof.
  intros Hstep Hi.
  set (start := (i `div` step) * step).
  assert (start ≤ i < start + step) as Hstart.
  { subst start. pose proof (Z.div_mod i step ltac:(lia)).
    pose proof (Z.mod_pos_bound i step ltac:(lia)). lia. }
  assert (start ∈ py_range 0 total step) as Hin.
  { apply elem_of_py_range; [lia|]. exists (i `div` step).
    split; [apply Z.div_pos; lia|]. split; [done|lia]. }
  rewrite <- (schedule_starts _ made) in Hin.
  apply list_elem_of_fmap in Hin as ([s m] & Heq & Hin). simpl in Heq. subst s.
  eapply first_call_covered; [exact Hin|].
  assert (0 ≤ start) by (subst start; apply Z.mul_nonneg_nonneg; [apply Z.div_pos|]; lia).
  rewrite window_sents_length by lia. lia.
Qed.

End WindowFacts.

(** ** The windowed translator *)

Section Alignment.
Context {U : Unicode} (B : backend).
Context (sentences : list str) (target_lang : str)
        (use_ollama : bool) (window overlap : Z)
        (progress_callback token_callback : bool) (glossary : dict).
Context (cancel_event pause_event : option flag).

Local Abbreviation total := (Z.of_nat (length sentences)).
Local Abbreviation step := (Z.max 1 (window - overlap)).
Local Abbreviation raw_of :=
  (reply_raw B target_lang use_ollama token_callback glossary).
Local Abbreviation entry := (entry_of use_ollama glossary).
Local Abbreviation events_of :=
  (window_events B sentences target_lang use_ollama window step
                 progress_callback token_callback glossary).
Local Abbreviation store :=
  (window_store B sentences target_lang use_ollama window token_callback glossary).

Lemma schedule_nonneg (made : nat) :
  1 ≤ window →
  Forall (λ sm : Z * nat, 0 ≤ sm.1 ∧ 0 ≤ sm.1 + window)
         (schedule sentences window (py_range 0 total step) made).
Proof.
  intros Hw. apply Forall_forall. intros [s m] Hin.
  assert (s ∈ py_range 0 total step) as Hs.
  { rewrite <- (schedule_starts sentences window _ made).
    apply list_elem_of_fmap. by exists (s, m). }
  apply elem_of_py_range in Hs as (k & Hk & -> & _); [|lia].
  simpl. nia.
Qed.

(** An undisturbed run returns the state built window by window and has
    emitted the events of the windows in order. *)
Lemma translate_with_context_undisturbed (w : world) :
  1 ≤ window → 0 ≤ overlap < window →
  never_set cancel_event →
  clear_from (patience B) pause_event →
  (use_ollama = true → reachable B) →
  let sched := schedule sentences window (py_range 0 total step) (calls w) in
  let f (i : Z) :=
    raw_of (default 0%nat (first_call sentences window sched i))
           (tag i (sentence_at sentences i)) in
  ∃ w',
    translate_with_context B sentences target_lang use_ollama window overlap
      progress_callback token_callback glossary cancel_event pause_event w
    = Return ((entry ∘ f) <$> seqZ 0 total,
              all_updates (fold_left store sched (LoopState ∅ ∅ [])),
              f <$> seqZ 0 total) w'
    ∧ trace w' = trace w ++ concat (events_of <$> sched).
Proof.
  intros Hw Ho Hcancel Hpause Hup.
  unfold translate_with_context.
  destruct sentences as [|s0 rest] eqn:Hs.
  { exists w. cbn [length]. change (Z.of_nat 0) with 0.
    assert (py_range 0 0 step = []) as ->.
    { unfold py_range. rewrite Z.div_small by lia. done. }
    cbn. by rewrite app_nil_r. }
  rewrite <- Hs. clear Hs s0 rest.
  set (sched := schedule sentences window (py_range 0 total step) (calls w)).
  set (f := λ i : Z, raw_of (default 0%nat (first_call sentences window sched i))
                            (tag i (sentence_at sentences i))).
  destruct (window_loop_undisturbed B sentences target_lang use_ollama window
              step progress_callback token_callback glossary cancel_event
              pause_event Hcancel Hpause Hup (py_range 0 total step)
              (LoopState ∅ ∅ []) w) as (w' & Hrun & Htrace).
  exists w'. split; [|exact Htrace].
  run Hrun. cbn beta. fold sched. rewrite py_range_unit.
  pose proof (schedule_nonneg (calls w) Hw) as Hnonneg. fold sched in Hnonneg.
  assert (∀ i, i ∈ seqZ 0 total →
               first_call sentences window sched i
               = Some (default 0%nat (first_call sentences window sched i)))
    as Hcall.
  { intros i Hi. apply elem_of_seqZ in Hi.
    destruct (first_call_total sentences window step (calls w) i) as [c Hc];
      [lia..|]. fold sched in Hc. by rewrite Hc. }
  rewrite (collect_fmap (translated (fold_left store sched (LoopState ∅ ∅ [])))
                        (entry ∘ f)); last first.
  { intros i Hi.
    rewrite (fold_store_translated B sentences target_lang use_ollama window
               token_callback glossary sched Hnonneg).
    cbn [translated]. rewrite lookup_empty, (Hcall i Hi). done. }
  cbn [lift]. unfold mbind at 1, M_bind at 1, mret at 1, M_ret at 1.
  rewrite (collect_fmap (raw_map (fold_left store sched (LoopState ∅ ∅ []))) f);
    last first.
  { intros i Hi.
    rewrite (fold_store_raw_map B sentences target_lang use_ollama window
               token_callback glossary sched Hnonneg).
    cbn [raw_map]. rewrite lookup_empty, (Hcall i Hi). done. }
  done.
Qed.

(** C2 (amended): with a window of at least one sentence and an overlap
    from zero up to, not including, the window, a run that is never
    cancelled, whose pause is released in time and whose backend answers
    every request returns one translation and one raw response per
    sentence; entry [i] is made from the reply to the first request for
    the tagged sentence [i], its tag stripped and the glossary applied;
    the trace holds the events of the windows in order, in which every
    token carries the window start plus the position in the window. *)
Theorem translate_with_context_aligned (w : world) :
  1 ≤ window → 0 ≤ overlap < window →
  never_set cancel_event →
  clear_from (patience B) pause_event →
  (use_ollama = true → reachable B) →
  let sched := schedule sentences window (py_range 0 total step) (calls w) in
  ∃ ts us rs w',
    translate_with_context B sentences target_lang use_ollama window overlap
      progress_callback token_callback glossary cancel_event pause_event w
    = Return (ts, us, rs) w'
    ∧ length ts = length sentences
    ∧ length rs = length sentences
    ∧ (∀ (i : nat) (s : str),
          sentences !! i = Some s →
          ∃ c, first_call sentences window sched (Z.of_nat i) = Some c
               ∧ rs !! i = Some (raw_of c (tag (Z.of_nat i) s))
               ∧ ts !! i = Some (entry (raw_of c (tag (Z.of_nat i) s))))
    ∧ trace w' = trace w ++ concat (events_of <$> sched).
Proof.
  intros Hw Ho Hcancel Hpause Hup sched.
  destruct (translate_with_context_undisturbed w Hw Ho Hcancel Hpause Hup)
    as (w' & Hrun & Htrace).
  eexists _, _, _, w'. split; [exact Hrun|].
  rewrite !length_fmap, !length_seqZ, Nat2Z.id.
  split; [done|]. split; [done|]. split; [|exact Htrace].
  intros i s Hi.
  assert (Z.of_nat i < total) as Hlt.
  { apply lookup_lt_Some in Hi. lia. }
  destruct (first_call_total sentences window step (calls w) (Z.of_nat i))
    as [c Hc]; [lia..|].
  exists c. split; [exact Hc|].
  rewrite !list_lookup_fmap, lookup_seqZ_lt by done.
  cbn [fmap option_fmap option_map]. fold sched. unfold compose.
  replace (0 + Z.of_nat i) with (Z.of_nat i) by lia.
  fold sched in Hc. rewrite Hc. cbn [default from_option id].
  unfold sentence_at. rewrite Nat2Z.id, Hi. done.
Qed.

End Alignment.

(** ** Glossary updates across sentences and windows *)

Section UpdateFacts.
Context {U : Unicode}.

Lemma dict_get_absent (d : dict) (k : str) : k ∉ d.*1 → dict_get d k = None.
Proof.
  induction d as [|[k' v'] d IH]; [done|]. cbn [fmap list_fmap fst].
  intros H. apply not_elem_of_cons in H as [Hne H]. simpl.
  rewrite decide_False by done. by apply IH.
Qed.

Lemma dict_set_keys (d : dict) (k v : str) (x : str) :
  x ∈ (dict_set d k v).*1 → x = k ∨ x ∈ d.*1.
Proof.
  induction d as [|[k' v'] d IH]; simpl.
  - intros H. apply list_elem_of_singleton in H. by left.
  - destruct (decide (k' = k)) as [->|Hne]; simpl.
    + intros H. by right.
    + intros H. apply elem_of_cons in H as [->|H]; [right; by left|].
      destruct (IH H); [by left|right; by right].
Qed.

Lemma dict_set_NoDup (d : dict) (k v : str) :
  NoDup d.*1 → NoDup (dict_set d k v).*1.
Proof.
  induction d as [|[k' v'] d IH]; simpl.
  - intros _. apply NoDup_singleton.
  - intros H. apply NoDup_cons in H as [Hnotin H].
    destruct (decide (k' = k)) as [->|Hne]; simpl.
    + by apply NoDup_cons.
    + apply NoDup_cons. split; [|by apply IH].
      intros Hin. apply dict_set_keys in Hin as [?|?]; done.
Qed.

Lemma dict_update_NoDup (u d : dict) :
  NoDup d.*1 → NoDup (dict_update d u).*1.
Proof.
  unfold dict_update. revert d.
  induction u as [|[k v] u IH]; intros d Hd; [done|].
  simpl. apply IH. by apply dict_set_NoDup.
Qed.

Lemma fold_update_NoDup (ds : list dict) (d : dict) :
  NoDup d.*1 → NoDup (fold_left dict_update ds d).*1.
Proof.
  revert d. induction ds as [|u ds IH]; intros d Hd; [done|].
  simpl. apply IH. by apply dict_update_NoDup.
Qed.

(** [d.update(u)] overwrites: a key of [u] takes the value [u] gives it. *)
Lemma dict_update_overwrites (u d : dict) (k : str) :
  NoDup u.*1 →
  dict_get (dict_update d u) k =
    match dict_get u k with
    | Some v => Some v
    | None => dict_get d k
    end.
Proof.
  unfold dict_update. revert d.
  induction u as [|[k0 v0] u IH]; intros d Hu; [done|].
  cbn [fmap list_fmap fst] in Hu. apply NoDup_cons in Hu as [Hnotin Hu].
  cbn [fold_left fst snd dict_get]. rewrite IH by done.
  destruct (decide (k0 = k)) as [->|Hne].
  - by rewrite dict_get_absent, dict_get_set_eq.
  - by rewrite dict_get_set_ne.
Qed.

Lemma fold_update_last_target (ds : list dict) :
  Forall (λ u : dict, NoDup u.*1) ds →
  ∀ (d : dict) (k : str),
    dict_get (fold_left dict_update ds d) k =
      match last_target ds k with
      | Some v => Some v
      | None => dict_get d k
      end.
Proof.
  induction 1 as [|u ds Hu _ IH]; intros d k; [done|].
  cbn [fold_left last_target]. rewrite IH, dict_update_overwrites by done.
  by destruct (last_target ds k).
Qed.

Lemma last_target_app (l1 l2 : list dict) (k : str) :
  last_target (l1 ++ l2) k =
    match last_target l2 k with
    | Some v => Some v
    | None => last_target l1 k
    end.
Proof.
  induction l1 as [|d l1 IH]; simpl.
  - by destruct (last_target l2 k).
  - rewrite IH. by destruct (last_target l2 k).
Qed.

Lemma glossary_lines_NoDup (glossary : dict) (lines : list str) :
  ∀ updates updates',
    NoDup updates.*1 →
    glossary_lines glossary lines updates = Ok updates' →
    NoDup updates'.*1.
Proof.
  induction lines as [|line lines IH]; intros updates updates' Hu; simpl.
  - by intros [= <-].
  - destruct (glossary_line glossary line) as [[[s d]|]|]; simpl; [| |done].
    + apply IH. by apply dict_set_NoDup.
    + by apply IH.
Qed.

Lemma reply_updates_NoDup (use_ollama : bool) (glossary : dict) (raw : str) :
  NoDup (reply_updates use_ollama glossary raw).*1.
Proof.
  unfold reply_updates, parse_translation_and_glossary.
  destruct use_ollama; [|apply NoDup_nil_2].
  destruct (search_marked raw GLOSSARY_START GLOSSARY_END) as [block|];
    [|apply NoDup_nil_2].
  destruct (glossary_lines glossary (splitlines block) []) as [u|] eqn:Hu;
    [|apply NoDup_nil_2].
  simpl. eapply glossary_lines_NoDup; [|exact Hu]. apply NoDup_nil_2.
Qed.

End UpdateFacts.

Section Updates.
Context {U : Unicode} (B : backend).
Context (sentences : list str) (target_lang : str)
        (use_ollama : bool) (window overlap : Z)
        (progress_callback token_callback : bool) (glossary : dict).
Context (cancel_event pause_event : option flag).

Local Abbreviation total := (Z.of_nat (length sentences)).
Local Abbreviation step := (Z.max 1 (window - overlap)).
Local Abbreviation updates_of :=
  (window_updates B sentences target_lang use_ollama window token_callback glossary).
Local Abbreviation store :=
  (window_store B sentences target_lang use_ollama window token_callback glossary).

Lemma window_updates_NoDup (sm : Z * nat) :
  Forall (λ u : dict, NoDup u.*1) (updates_of sm).
Proof.
  unfold window_updates. apply Forall_fmap, Forall_true. intros raw.
  apply reply_updates_NoDup.
Qed.

Lemma fold_store_updates (sched : list (Z * nat)) :
  ∀ (st : loop_state) (k : str),
    dict_get (all_updates (fold_left store sched st)) k =
      match last_target (concat (updates_of <$> sched)) k with
      | Some v => Some v
      | None => dict_get (all_updates st) k
      end.
Proof.
  induction sched as [|sm sched IH]; intros st k; [done|].
  cbn [fold_left fmap list_fmap concat]. rewrite IH, last_target_app.
  destruct (last_target (concat (updates_of <$> sched)) k); [done|].
  unfold window_store. cbn [all_updates].
  rewrite dict_update_overwrites
    by (apply fold_update_NoDup, NoDup_nil_2).
  rewrite store_outputs_updates.
  rewrite fold_update_last_target by apply window_updates_NoDup.
  by destruct (last_target (updates_of sm) k).
Qed.

(** C4 (amended): merging is [dict.update], which overwrites; the update
    set returned by an undisturbed run gives every term the target found
    for it last, over the sentences of the windows in processing order. *)
Theorem updates_last_writer_wins (w : world) :
  1 ≤ window → 0 ≤ overlap < window →
  never_set cancel_event →
  clear_from (patience B) pause_event →
  (use_ollama = true → reachable B) →
  let sched := schedule sentences window (py_range 0 total step) (calls w) in
  (∀ (d u : dict) (k : str),
      NoDup u.*1 →
      dict_get (dict_update d u) k =
        match dict_get u k with
        | Some v => Some v
        | None => dict_get d k
        end)
  ∧ ∃ ts us rs w',
      translate_with_context B sentences target_lang use_ollama window overlap
        progress_callback token_callback glossary cancel_event pause_event w
      = Return (ts, us, rs) w'
      ∧ ∀ k, dict_get us k = last_target (concat (updates_of <$> sched)) k.
Proof.
  intros Hw Ho Hcancel Hpause Hup sched.
  split; [intros d u k; apply dict_update_overwrites|].
  destruct (translate_with_context_undisturbed B sentences target_lang
              use_ollama window overlap progress_callback token_callback
              glossary cancel_event pause_event w Hw Ho Hcancel Hpause Hup)
    as (w' & Hrun & _).
  eexists _, _, _, w'. split; [exact Hrun|].
  intros k. rewrite fold_store_updates. fold sched.
  by destruct (last_target _ k).
Qed.

End Updates.

(** ** Prompts *)

Section Prompts.
Context {U : Unicode} (B : backend).
Context (sentences : list str) (target_lang : str)
        (window overlap : Z)
        (progress_callback token_callback : bool) (glossary : dict).
Context (cancel_event pause_event : option flag).

Local Abbreviation total := (Z.of_nat (length sentences)).
Local Abbreviation step := (Z.max 1 (window - overlap)).

Lemma requests_app (l1 l2 : list event) :
  requests (l1 ++ l2) = requests l1 ++ requests l2.
Proof. unfold requests. apply flat_map_app. Qed.

Lemma requests_tokens (idx : Z) (texts : list str) :
  requests (Token idx <$> texts) = [].
Proof. induction texts as [|t texts IH]; [done|]. exact IH. Qed.

Lemma requests_sentences (h : str → str) (sents : list str) :
  ∀ (a : nat → Z) (g : nat → str → list str),
    requests (concat (imap (λ k s, Request (h s) :: (Token (a k) <$> g k s)) sents))
    = h <$> sents.
Proof.
  induction sents as [|s sents IH]; intros a g; [done|].
  rewrite imap_cons_shift. cbn [concat]. rewrite requests_app.
  cbn [requests flat_map app]. fold (requests (Token (a 0%nat) <$> g 0%nat s)).
  rewrite requests_tokens, fmap_cons. cbn [app]. f_equal.
  apply (IH (λ k, a (S k)) (λ k, g (S k))).
Qed.

Lemma requests_window (use_ollama : bool) (sm : Z * nat) :
  requests (window_events B sentences target_lang use_ollama window step
                          progress_callback token_callback glossary sm)
  = request_of target_lang use_ollama glossary
      <$> window_sents sentences window sm.1.
Proof.
  destruct sm as [start made]. unfold window_events.
  rewrite requests_app, requests_sentences.
  destruct progress_callback; cbn [requests flat_map]; by rewrite app_nil_r.
Qed.

Lemma requests_schedule (use_ollama : bool) (sched : list (Z * nat)) :
  requests (concat (window_events B sentences target_lang use_ollama window step
                      progress_callback token_callback glossary <$> sched))
  = concat ((λ start, request_of target_lang use_ollama glossary
                        <$> window_sents sentences window start) <$> sched.*1).
Proof.
  induction sched as [|sm sched IH]; [done|].
  cbn [fmap list_fmap concat]. rewrite requests_app, requests_window. f_equal.
  exact IH.
Qed.

(** C5 (amended): the windows are processed one after the other in the
    order of their starts, and every prompt of the run embeds the
    glossary the caller passed in, whatever updates earlier windows have
    produced. *)
Theorem prompts_embed_caller_glossary (w : world) :
  1 ≤ window → 0 ≤ overlap < window →
  never_set cancel_event →
  clear_from (patience B) pause_event →
  reachable B →
  ∃ ts us rs w',
    translate_with_context B sentences target_lang true window overlap
      progress_callback token_callback glossary cancel_event pause_event w
    = Return (ts, us, rs) w'
    ∧ requests (trace w') =
        requests (trace w) ++
        concat ((λ start, prompt_of target_lang glossary
                            <$> window_sents sentences window start)
                  <$> py_range 0 total step).
Proof.
  intros Hw Ho Hcancel Hpause Hup.
  destruct (translate_with_context_undisturbed B sentences target_lang
              true window overlap progress_callback token_callback
              glossary cancel_event pause_event w Hw Ho Hcancel Hpause
              (λ _, Hup))
    as (w' & Hrun & Htrace).
  eexists _, _, _, w'. split; [exact Hrun|].
  rewrite Htrace, requests_app, requests_schedule, schedule_starts. done.
Qed.

End Prompts.

(** ** First write wins *)

Section FirstWrite.
Context {U : Unicode}.

Lemma window_loop_keeps (B : backend) (sentences : list str) (target_lang : str)
    (use_ollama : bool) (window step : Z)
    (progress_callback token_callback : bool) (glossary : dict)
    (cancel_event pause_event : option flag) (starts : list Z) :
  ∀ (st : loop_state) (w : world) (st' : loop_state) (w' : world),
    window_loop B sentences target_lang use_ollama window step
                progress_callback token_callback glossary
                cancel_event pause_event starts st w = Return st' w' →
    ∀ (i : Z) (v : str),
      (translated st !! i = Some v → translated st' !! i = Some v)
      ∧ (raw_map st !! i = Some v → raw_map st' !! i = Some v).
Proof.
  induction starts as [|start later IH]; intros st w st' w' Hrun i v.
  - by injection Hrun as <- <-.
  - cbn [window_loop] in Hrun.
    apply bind_return_inv in Hrun as (cancelled & w1 & _ & Hrun).
    destruct cancelled; [by injection Hrun as <- <-|].
    apply bind_return_inv in Hrun as ([] & w2 & _ & Hrun).
    apply bind_return_inv in Hrun as ([[outs updates] raws] & w3 & _ & Hrun).
    cbn beta iota in Hrun.
    apply bind_return_inv in Hrun as ([] & w4 & _ & Hrun).
    destruct (IH _ _ _ _ Hrun i v) as [Ht Hr].
    split; intros Hi.
    + apply Ht. destruct (nonempty_dict updates); cbn [translated];
        by rewrite store_outputs_translated, Hi.
    + apply Hr. destruct (nonempty_dict updates); cbn [raw_map];
        by rewrite store_outputs_raw_map, Hi.
Qed.

(** The first call for an index is the one made for it in the first window
    of the schedule, in processing order, that covers the index. *)
Lemma first_call_position (sentences : list str) (window : Z)
    (sched : list (Z * nat)) (i : Z) (c : nat) :
  first_call sentences window sched i = Some c →
  ∃ (j : nat) (start : Z) (made : nat),
    sched !! j = Some (start, made)
    ∧ start ≤ i < start + Z.of_nat (length (window_sents sentences window start))
    ∧ (∀ (j' : nat) (start' : Z) (made' : nat),
          (j' < j)%nat → sched !! j' = Some (start', made') →
          ¬ (start' ≤ i
             < start' + Z.of_nat (length (window_sents sentences window start'))))
    ∧ c = (made + Z.to_nat (i - start))%nat.
Proof.
  induction sched as [|[s0 m0] sched IH]; [done|]. cbn [first_call].
  case_bool_decide as Hcov.
  - intros [= <-]. exists 0%nat, s0, m0. split; [done|]. split; [done|].
    split; [|done]. intros j' start' made' Hj'. lia.
  - intros Hc. destruct (IH Hc) as (j & start & made & Hj & Hin & Hfirst & ->).
    exists (S j), start, made. split; [done|]. split; [done|]. split; [|done].
    intros [|j'] start' made' Hlt Hj'.
    + injection Hj' as <- <-. done.
    + apply (Hfirst j' start' made'); [lia|done].
Qed.

(** A window of the schedule covers an index below the number of
    sentences exactly when the index lies within [window] of its start. *)
Lemma schedule_covers (sentences : list str) (window step : Z) (made : nat)
    (j : nat) (start : Z) (m : nat) (i : Z) :
  1 ≤ window → 1 ≤ step → i < Z.of_nat (length sentences) →
  schedule sentences window (py_range 0 (Z.of_nat (length sentences)) step) made
    !! j = Some (start, m) →
  start ≤ i < start + Z.of_nat (length (window_sents sentences window start))
  ↔ start ≤ i < start + window.
Proof.
  intros Hw Hs Hi Hj.
  assert (start ∈ py_range 0 (Z.of_nat (length sentences)) step) as Hin.
  { rewrite <- (schedule_starts sentences window _ made).
    apply list_elem_of_fmap. exists (start, m). split; [done|].
    by eapply list_elem_of_lookup_2. }
  apply elem_of_py_range in Hin as (k & Hk & -> & Hlt); [|lia].
  rewrite window_sents_length by nia. lia.
Qed.

(** C3: an index that holds a value keeps it when a window is stored, an
    index that holds none takes the output of the window that covers it,
    and no later window of the loop changes a value once written; in a run
    that is never cancelled, whose pause is released in time and whose
    backend answers, the translation and the raw response returned for
    every index are those of the call made for it in the first window, in
    processing order, that covers the index. *)
Theorem first_write_wins :
  (∀ (glossary : dict) (start : Z) (pairs : list (str * str))
     (st : loop_state) (i : Z) (v : str),
      (translated st !! i = Some v →
       translated (store_outputs glossary start pairs st) !! i = Some v)
      ∧ (raw_map st !! i = Some v →
         raw_map (store_outputs glossary start pairs st) !! i = Some v))
  ∧ (∀ (glossary : dict) (start : Z) (pairs : list (str * str))
       (st : loop_state) (i : Z) (out raw : str),
        start ≤ i →
        pairs !! Z.to_nat (i - start) = Some (out, raw) →
        (translated st !! i = None →
         translated (store_outputs glossary start pairs st) !! i
         = Some (apply_glossary (strip (strip_tag out)) glossary))
        ∧ (raw_map st !! i = None →
           raw_map (store_outputs glossary start pairs st) !! i = Some raw))
  ∧ (∀ (B : backend) (sentences : list str) (target_lang : str)
       (use_ollama : bool) (window step : Z)
       (progress_callback token_callback : bool) (glossary : dict)
       (cancel_event pause_event : option flag) (starts : list Z)
       (st : loop_state) (w : world) (st' : loop_state) (w' : world)
       (i : Z) (v : str),
        window_loop B sentences target_lang use_ollama window step
                    progress_callback token_callback glossary
                    cancel_event pause_event starts st w = Return st' w' →
        (translated st !! i = Some v → translated st' !! i = Some v)
        ∧ (raw_map st !! i = Some v → raw_map st' !! i = Some v))
  ∧ (∀ (B : backend) (sentences : list str) (target_lang : str)
       (use_ollama : bool) (window overlap : Z)
       (progress_callback token_callback : bool) (glossary : dict)
       (cancel_event pause_event : option flag) (w : world),
        1 ≤ window → 0 ≤ overlap < window →
        never_set cancel_event →
        clear_from (patience B) pause_event →
        (use_ollama = true → reachable B) →
        let sched :=
          schedule sentences window
                   (py_range 0 (Z.of_nat (length sentences))
                             (Z.max 1 (window - overlap)))
                   (calls w) in
        ∃ ts us rs w',
          translate_with_context B sentences target_lang use_ollama window
            overlap progress_callback token_callback glossary
            cancel_event pause_event w
          = Return (ts, us, rs) w'
          ∧ trace w'
            = trace w
              ++ concat (window_events B sentences target_lang use_ollama
                           window (Z.max 1 (window - overlap))
                           progress_callback token_callback glossary
                           <$> sched)
          ∧ ∀ (i : nat) (s : str),
              sentences !! i = Some s →
              ∃ (j : nat) (start : Z) (made : nat),
                sched !! j = Some (start, made)
                ∧ start ≤ Z.of_nat i < start + window
                ∧ (∀ (j' : nat) (start' : Z) (made' : nat),
                      (j' < j)%nat → sched !! j' = Some (start', made') →
                      ¬ (start' ≤ Z.of_nat i < start' + window))
                ∧ rs !! i
                  = Some (reply_raw B target_lang use_ollama token_callback
                            glossary (made + Z.to_nat (Z.of_nat i - start))
                            (tag (Z.of_nat i) s))
                ∧ ts !! i
                  = Some (entry_of use_ollama glossary
                            (reply_raw B target_lang use_ollama token_callback
                               glossary (made + Z.to_nat (Z.of_nat i - start))
                               (tag (Z.of_nat i) s)))).
Proof.
  split; [|split; [|split]].
  - intros glossary start pairs st i v. split; intros Hi.
    + by rewrite store_outputs_translated, Hi.
    + by rewrite store_outputs_raw_map, Hi.
  - intros glossary start pairs st i out raw Hle Hpair. split; intros Hi.
    + rewrite store_outputs_translated, Hi, bool_decide_eq_true_2, Hpair by done.
      done.
    + rewrite store_outputs_raw_map, Hi, bool_decide_eq_true_2, Hpair by done.
      done.
  - intros. by eapply window_loop_keeps.
  - intros B sentences target_lang use_ollama window overlap progress_callback
      token_callback glossary cancel_event pause_event w Hw Ho Hcancel Hpause
      Hup sched.
    destruct (translate_with_context_undisturbed B sentences target_lang
                use_ollama window overlap progress_callback token_callback
                glossary cancel_event pause_event w Hw Ho Hcancel Hpause Hup)
      as (w' & Hrun & Htrace).
    eexists _, _, _, w'. split; [exact Hrun|]. split; [exact Htrace|].
    intros i s Hi.
    assert (Z.of_nat i < Z.of_nat (length sentences)) as Hlt.
    { apply lookup_lt_Some in Hi. lia. }
    destruct (first_call_total sentences window (Z.max 1 (window - overlap))
                (calls w) (Z.of_nat i)) as [c Hc]; [lia..|].
    fold sched in Hc.
    destruct (first_call_position _ _ _ _ _ Hc)
      as (j & start & made & Hj & Hin & Hfirst & ->).
    exists j, start, made. split; [exact Hj|]. split.
    { eapply schedule_covers; [| | |exact Hj|exact Hin]; lia. }
    split.
    { intros j' start' made' Hlt' Hj' Hcov. apply (Hfirst j' start' made' Hlt' Hj').
      eapply schedule_covers; [| | |exact Hj'|exact Hcov]; lia. }
    rewrite !list_lookup_fmap, lookup_seqZ_lt by lia.
    cbn [fmap option_fmap option_map]. fold sched. unfold compose.
    replace (0 + Z.of_nat i) with (Z.of_nat i) by lia.
    rewrite Hc. cbn [default from_option id].
    unfold sentence_at. rewrite Nat2Z.id, Hi. done.
Qed.

End FirstWrite.

(** ** Window starts *)

Section WindowRun.
Context {U : Unicode} (B : backend).
Context (sentences : list str) (target_lang : str)
        (use_ollama : bool) (window overlap : Z)
        (progress_callback token_callback : bool) (glossary : dict).
Context (cancel_event pause_event : option flag).

Local Abbreviation total := (Z.of_nat (length sentences)).
Local Abbreviation step := (Z.max 1 (window - overlap)).

Lemma progress_reports_app (l1 l2 : list event) :
  progress_reports (l1 ++ l2) = progress_reports l1 ++ progress_reports l2.
Proof. unfold progress_reports. apply flat_map_app. Qed.

Lemma progress_reports_tokens (idx : Z) (texts : list str) :
  progress_reports (Token idx <$> texts) = [].
Proof. induction texts as [|t texts IH]; [done|]. exact IH. Qed.

Lemma progress_reports_sentences (h : str → str) (sents : list str) :
  ∀ (a : nat → Z) (g : nat → str → list str),
    progress_reports
      (concat (imap (λ k s, Request (h s) :: (Token (a k) <$> g k s)) sents))
    = [].
Proof.
  induction sents as [|s sents IH]; intros a g; [done|].
  rewrite imap_cons_shift. cbn [concat]. rewrite progress_reports_app.
  cbn [progress_reports flat_map app].
  fold (progress_reports (Token (a 0%nat) <$> g 0%nat s)).
  rewrite progress_reports_tokens. cbn [app].
  apply (IH (λ k, a (S k)) (λ k, g (S k))).
Qed.

Lemma progress_reports_windows (sched : list (Z * nat)) :
  progress_reports
    (concat (window_events B sentences target_lang use_ollama window step
                           progress_callback token_callback glossary <$> sched))
  = if progress_callback
    then (λ start, (Z.min total (start + step), total)) <$> sched.*1
    else [].
Proof.
  induction sched as [|[start made] sched IH].
  { by destruct progress_callback. }
  cbn [fmap list_fmap concat fst]. rewrite progress_reports_app, IH.
  unfold window_events at 1.
  rewrite progress_reports_app, progress_reports_sentences. cbn [app].
  by destruct progress_callback.
Qed.

(** The sentences of the window at [start]: [window] sentences from
    [start] on, or as many as are left, each tagged with its index. *)
Lemma window_sents_take_drop (start : Z) :
  0 ≤ start → 1 ≤ window →
  window_sents sentences window start
  = imap (λ j s, tag (start + Z.of_nat j) s)
         (take (Z.to_nat window) (drop (Z.to_nat start) sentences)).
Proof.
  intros Hs Hw. unfold window_sents, tag_window.
  rewrite slice_take_drop by lia. do 2 f_equal. lia.
Qed.

(** A run that is never cancelled ends, with a result or with an error,
    having emitted the events of the windows in order. *)
Lemma translate_with_context_windows (w : world) :
  never_set cancel_event →
  clear_from (patience B) pause_event →
  (use_ollama = true → reachable B) →
  ∃ w',
    ((∃ r, translate_with_context B sentences target_lang use_ollama window
             overlap progress_callback token_callback glossary
             cancel_event pause_event w = Return r w')
     ∨ (∃ e, translate_with_context B sentences target_lang use_ollama window
               overlap progress_callback token_callback glossary
               cancel_event pause_event w = Raise e w'))
    ∧ trace w'
      = trace w
        ++ concat (window_events B sentences target_lang use_ollama window step
                     progress_callback token_callback glossary
                     <$> schedule sentences window (py_range 0 total step)
                                  (calls w)).
Proof.
  intros Hcancel Hpause Hup. unfold translate_with_context.
  destruct sentences as [|s0 rest] eqn:Hs.
  { exists w. cbn [length]. change (Z.of_nat 0) with 0.
    assert (py_range 0 0 step = []) as ->.
    { unfold py_range. rewrite Z.div_small by lia. done. }
    cbn. rewrite app_nil_r. split; [left; by eexists|done]. }
  rewrite <- Hs. clear Hs s0 rest.
  destruct (window_loop_undisturbed B sentences target_lang use_ollama window
              step progress_callback token_callback glossary cancel_event
              pause_event Hcancel Hpause Hup (py_range 0 total step)
              (LoopState ∅ ∅ []) w) as (w' & Hrun & Htrace).
  exists w'. split; [|exact Htrace].
  run Hrun. cbn beta.
  destruct (collect (translated _) _) as [ts|e]; cbn [lift];
    [|right; by exists e].
  unfold mbind at 1, M_bind at 1, mret at 1, M_ret at 1.
  destruct (collect (raw_map _) _) as [rs|e]; cbn [lift];
    [left; by eexists|right; by exists e].
Qed.

End WindowRun.

Section WindowStarts.
Context {U : Unicode}.

(** C6: the window starts are the multiples of the step below the number
    of sentences, in increasing order; a window holds [window] sentences or
    as many as are left; for 120 sentences, a window of 50 and an overlap
    of 10 the starts are 0, 40 and 80, every index from 0 to 119 falls in
    one of these windows, and the run reports progress three times; and
    every run that is never cancelled, whose pause is released in time and
    whose backend answers sends, window after window at these starts, the
    requests for the tagged sentences of the window, and reports progress
    once after each window. *)
Theorem window_starts :
  (∀ (total window overlap x : Z),
      x ∈ py_range 0 total (Z.max 1 (window - overlap))
      ↔ ∃ k, 0 ≤ k ∧ x = k * Z.max 1 (window - overlap) ∧ x < total)
  ∧ (∀ (total window overlap : Z) (k : nat),
        py_range 0 total (Z.max 1 (window - overlap)) !! k =
          if bool_decide (Z.of_nat k * Z.max 1 (window - overlap) < total)
          then Some (Z.of_nat k * Z.max 1 (window - overlap)) else None)
  ∧ (∀ (sentences : list str) (window start : Z),
        0 ≤ start ≤ Z.of_nat (length sentences) → 0 ≤ window →
        Z.of_nat (length (window_sents sentences window start))
        = Z.min window (Z.of_nat (length sentences) - start))
  ∧ py_range 0 120 (Z.max 1 (50 - 10)) = [0; 40; 80]
  ∧ (∀ i, 0 ≤ i < 120 →
          ∃ start, start ∈ [0; 40; 80] ∧ start ≤ i < start + Z.min 50 (120 - start))
  ∧ (∃ ts us rs w',
        translate_with_context echo (replicate 120 (lit "s")) en false 50 10
                               true false [] None None fresh
        = Return (ts, us, rs) w'
        ∧ length ts = 120%nat
        ∧ progress_reports (trace w') = [(40, 120); (80, 120); (120, 120)])
  ∧ (∀ (B : backend) (sentences : list str) (target_lang : str)
       (use_ollama : bool) (window overlap : Z)
       (progress_callback token_callback : bool) (glossary : dict)
       (cancel_event pause_event : option flag) (w : world),
        1 ≤ window →
        never_set cancel_event →
        clear_from (patience B) pause_event →
        (use_ollama = true → reachable B) →
        ∃ (starts : list Z) (w' : world),
          (∀ k : nat,
              starts !! k =
                if bool_decide (Z.of_nat k * Z.max 1 (window - overlap)
                                < Z.of_nat (length sentences))
                then Some (Z.of_nat k * Z.max 1 (window - overlap))
                else None)
          ∧ ((∃ r, translate_with_context B sentences target_lang use_ollama
                     window overlap progress_callback token_callback glossary
                     cancel_event pause_event w = Return r w')
             ∨ (∃ e, translate_with_context B sentences target_lang use_ollama
                       window overlap progress_callback token_callback glossary
                       cancel_event pause_event w = Raise e w'))
          ∧ (0 ≤ overlap < window →
             ∃ ts us rs,
               translate_with_context B sentences target_lang use_ollama
                 window overlap progress_callback token_callback glossary
                 cancel_event pause_event w = Return (ts, us, rs) w'
               ∧ length ts = length sentences)
          ∧ requests (trace w')
            = requests (trace w)
              ++ concat ((λ start,
                            request_of target_lang use_ollama glossary
                              <$> imap (λ j s, tag (start + Z.of_nat j) s)
                                       (take (Z.to_nat window)
                                             (drop (Z.to_nat start) sentences)))
                           <$> starts)
          ∧ progress_reports (trace w')
            = progress_reports (trace w)
              ++ (if progress_callback
                  then (λ start,
                          (Z.min (Z.of_nat (length sentences))
                                 (start + Z.max 1 (window - overlap)),
                           Z.of_nat (length sentences))) <$> starts
                  else [])).
Proof.
  split; [|split; [|split; [|split; [|split; [|split]]]]].
  - intros. apply elem_of_py_range. lia.
  - intros. apply py_range_lookup. lia.
  - intros. by apply window_sents_length.
  - reflexivity.
  - intros i Hi.
    destruct (Z.lt_ge_cases i 40); [|destruct (Z.lt_ge_cases i 80)].
    + exists 0. split; [by left|lia].
    + exists 40. split; [right; by left|lia].
    + exists 80. split; [right; right; by left|lia].
  - eexists _, _, _, _. split; [vm_compute; reflexivity|].
    split; reflexivity.
  - intros B sentences target_lang use_ollama window overlap progress_callback
      token_callback glossary cancel_event pause_event w Hw Hcancel Hpause Hup.
    destruct (translate_with_context_windows B sentences target_lang use_ollama
                window overlap progress_callback token_callback glossary
                cancel_event pause_event w Hcancel Hpause Hup)
      as (w' & Hout & Htrace).
    exists (py_range 0 (Z.of_nat (length sentences)) (Z.max 1 (window - overlap))),
           w'.
    split; [intros k; apply py_range_lookup; lia|].
    split; [exact Hout|]. split; [|split].
    + intros Ho.
      destruct (translate_with_context_undisturbed B sentences target_lang
                  use_ollama window overlap progress_callback token_callback
                  glossary cancel_event pause_event w Hw Ho Hcancel Hpause Hup)
        as (w'' & Hrun & _).
      assert (w'' = w') as ->.
      { destruct Hout as [[r Hr]|[e He]]; congruence. }
      eexists _, _, _. split; [exact Hrun|].
      by rewrite length_fmap, length_seqZ, Nat2Z.id.
    + rewrite Htrace, requests_app, requests_schedule, schedule_starts.
      f_equal. f_equal. apply list_fmap_ext. intros idx start Hin.
      f_equal. apply window_sents_take_drop; [|done].
      apply list_elem_of_lookup_2, elem_of_py_range in Hin
        as (k & Hk & -> & _); [|lia].
      nia.
    + by rewrite Htrace, progress_reports_app, progress_reports_windows,
                 schedule_starts.
Qed.

End WindowStarts.

(** ** Cancellation *)

Section Cancellation.
Context {U : Unicode}.

Lemma py_range_head (total step : Z) :
  0 < total → 0 < step → ∃ later, py_range 0 total step = 0 :: later.
Proof.
  intros Ht Hs. pose proof (py_range_lookup total step 0 Hs) as H.
  rewrite bool_decide_eq_true_2 in H by lia.
  destruct (py_range 0 total step) as [|x later]; [done|].
  injection H as ->. by exists later.
Qed.

(** A cancellation seen at the first check of a run on at least one
    sentence ends the run with a [KeyError] for index 0. *)
Lemma cancel_before_first_window (B : backend) (sentences : list str)
    (target_lang : str) (use_ollama : bool) (window overlap : Z)
    (progress_callback token_callback : bool) (glossary : dict)
    (cancel : flag) (pause_event : option flag) (w : world) :
  sentences ≠ [] →
  cancel (clock w) = true →
  translate_with_context B sentences target_lang use_ollama window overlap
    progress_callback token_callback glossary (Some cancel) pause_event w
  = Raise (KeyError 0) (World (S (clock w)) (calls w) (trace w)).
Proof.
  intros Hne Hset. unfold translate_with_context.
  destruct sentences as [|s0 rest]; [done|].
  set (total := Z.of_nat (length (s0 :: rest))).
  assert (0 < total) as Htotal by (subst total; simpl; lia).
  destruct (py_range_head total (Z.max 1 (window - overlap))) as [later ->];
    [lia..|].
  destruct (py_range_head total 1) as [later1 ->]; [lia..|].
  cbn [window_loop]. unfold mbind, M_bind, is_set, observe.
  rewrite Hset. reflexivity.
Qed.

End Cancellation.

(** C1: cancellation requested before the first window of a run on one
    sentence makes the run raise [KeyError] for index 0. *)
Theorem cancelled_run_raises :
  translate_with_context (U := plain_unicode) echo [lit "a"] en false 50 10
                         false false [] already_set None fresh
  = Raise (KeyError 0) (World 1 0 []).
Proof.
  apply (cancel_before_first_window (U := plain_unicode));
    [discriminate|reflexivity].
Qed.

(** ** The properties on concrete inputs *)

Lemma parse_never_fails_witness :
  ∃ translation updates,
    parse_translation_and_glossary (U := plain_unicode) (lit "  Hallo.  ") []
                                   START_MARK END_MARK
    = Ok (translation, updates)
    ∧ translation = lit "Hallo." ∧ updates = [].
Proof.
  destruct (parse_never_fails (U := plain_unicode) (lit "  Hallo.  ") []
                              START_MARK END_MARK)
    as (translation & updates & Hparse & Htranslation & Hupdates).
  exists translation, updates. split; [exact Hparse|]. split.
  - rewrite Htranslation; [reflexivity|].
    apply search_marked_None. vm_compute. reflexivity.
  - apply Hupdates. apply search_marked_None. vm_compute. reflexivity.
Defined.

Lemma glossary_filter_witness :
  glossary_line (U := plain_unicode) [] (lit "Lord -> Lord") = Ok None
  ∧ glossary_line (U := plain_unicode) [] (lit "Hero -> Held")
    = Ok (Some (lit "Hero", lit "Held"))
  ∧ ∃ updates,
      parse_translation_and_glossary (U := plain_unicode) example_response []
                                     START_MARK END_MARK
      = Ok (lit "Hello", updates)
      ∧ dict_get updates (lit "英雄") = Some (lit "hero")
      ∧ dict_get updates (lit "Lord") = None.
Proof.
  destruct (glossary_filter (U := plain_unicode)) as [Hline Hexample].
  split; [|split].
  - apply (proj1 (Hline [] (lit "Lord -> Lord") (lit "Lord ") (lit " Lord")
                        eq_refl)).
    right. right. left. vm_compute. reflexivity.
  - apply (proj2 (Hline [] (lit "Hero -> Held") (lit "Hero ") (lit " Held")
                        eq_refl)).
    vm_compute. discriminate.
  - apply Hexample; reflexivity.
Defined.

Lemma glossary_block_last_line_wins_witness :
  ∃ translation updates,
    parse_translation_and_glossary (U := plain_unicode) twice_named []
                                   START_MARK END_MARK
    = Ok (translation, updates)
    ∧ dict_get updates (lit "Foo") = Some (lit "Baz").
Proof.
  apply (glossary_block_last_line_wins (U := plain_unicode) twice_named []
           START_MARK END_MARK
           (NL ++ lit "Foo -> Bar" ++ NL ++ lit "Foo -> Baz" ++ NL)
           [[]] [] [] (lit "Foo -> Bar") (lit "Foo -> Baz")
           (lit "Foo") (lit "Bar") (lit "Baz")).
  - vm_compute. reflexivity.
  - vm_compute. reflexivity.
  - vm_compute. reflexivity.
  - vm_compute. reflexivity.
  - intros l d Hl. by apply elem_of_nil in Hl.
Defined.

Lemma window_starts_witness :
  Z.of_nat (length (window_sents (replicate 120 (lit "s")) 50 80)) = 40
  ∧ ∃ w',
      (∃ r, translate_with_context (U := plain_unicode) echo abc en false 2 1
              true false [] None None fresh = Return r w')
      ∧ requests (trace w')
        = [lit "[0] a"; lit "[1] b"; lit "[1] b"; lit "[2] c"; lit "[2] c"]
      ∧ progress_reports (trace w') = [(1, 3); (2, 3); (3, 3)].
Proof.
  split.
  - apply (proj1 (proj2 (proj2 (window_starts (U := plain_unicode))))
             (replicate 120 (lit "s")) 50 80).
    + vm_compute. split; discriminate.
    + lia.
  - destruct (proj2 (proj2 (proj2 (proj2 (proj2 (proj2
                (window_starts (U := plain_unicode)))))))
                echo abc en false 2 1 true false [] None None fresh
                ltac:(lia) I I ltac:(discriminate))
      as (starts & w' & Hstarts & _ & Hreturn & Hrequests & Hreports).
    destruct (Hreturn ltac:(lia)) as (ts & us & rs & Hrun & _).
    assert (starts = [0; 1; 2]) as ->.
    { pose proof (Hstarts 0%nat) as H0. pose proof (Hstarts 1%nat) as H1.
      pose proof (Hstarts 2%nat) as H2. pose proof (Hstarts 3%nat) as H3.
      destruct starts as [|a [|b [|c [|d rest]]]]; try discriminate.
      vm_compute in H0, H1, H2. congruence. }
    exists w'. split; [by eexists|]. split.
    + rewrite Hrequests. vm_compute. reflexivity.
    + rewrite Hreports. vm_compute. reflexivity.
Defined.

Lemma first_write_wins_witness :
  translated
    (store_outputs (U := plain_unicode) [] 1 [(lit "late", lit "late")]
       (store_outputs (U := plain_unicode) [] 0
          [(lit "one", lit "one"); (lit "two", lit "two")]
          (LoopState ∅ ∅ []))) !! 1
  = Some (lit "two")
  ∧ ∃ ts us rs w',
      translate_with_context (U := plain_unicode) numbering abc en false 2 1
                             false false [] None None fresh
      = Return (ts, us, rs) w'
      ∧ rs !! 2%nat = Some (lit "3").
Proof.
  split.
  - apply (proj1 (proj1 (first_write_wins (U := plain_unicode))
                        [] 1 [(lit "late", lit "late")]
                        (store_outputs (U := plain_unicode) [] 0
                           [(lit "one", lit "one"); (lit "two", lit "two")]
                           (LoopState ∅ ∅ []))
                        1 (lit "two"))).
    vm_compute. reflexivity.
  - destruct (proj2 (proj2 (proj2 (first_write_wins (U := plain_unicode))))
                numbering abc en false 2 1 false false [] None None fresh
                ltac:(lia) ltac:(lia) I I ltac:(discriminate))
      as (ts & us & rs & w' & Hrun & _ & Hentry).
    exists ts, us, rs, w'. split; [exact Hrun|].
    destruct (Hentry 2%nat (lit "c") eq_refl)
      as (j & start & made & Hj & Hcov & Hfirst & Hraw & _).
    destruct j as [|[|[|j]]]; vm_compute in Hj; try discriminate;
      injection Hj as <- <-.
    + lia.
    + exact Hraw.
    + exfalso. apply (Hfirst 1%nat 1 2%nat); [lia|reflexivity|lia].
Defined.

Lemma translate_with_context_aligned_witness :
  ∃ ts us rs w',
    translate_with_context (U := plain_unicode) numbering abc en false 2 1
                           true false [] None None fresh
    = Return (ts, us, rs) w'
    ∧ length ts = 3%nat
    ∧ rs !! 1%nat = Some (lit "1").
Proof.
  destruct (translate_with_context_aligned (U := plain_unicode) numbering abc en
              false 2 1 true false [] None None fresh)
    as (ts & us & rs & w' & Hrun & Hts & _ & Hentry & _);
    [lia|lia|exact I|exact I|discriminate|].
  exists ts, us, rs, w'. split; [exact Hrun|]. split; [exact Hts|].
  destruct (Hentry 1%nat (lit "b") eq_refl) as (c & Hc & Hraw & _).
  vm_compute in Hc. injection Hc as <-. exact Hraw.
Defined.

Lemma updates_last_writer_wins_witness :
  ∃ ts us rs w',
    translate_with_context (U := plain_unicode) naming abc en true 1 0
                           false false [] None None fresh
    = Return (ts, us, rs) w'
    ∧ dict_get us (lit "Foo") = Some (lit "Baz").
Proof.
  destruct (proj2 (updates_last_writer_wins (U := plain_unicode) naming abc en
                     true 1 0 false false [] None None fresh
                     ltac:(lia) ltac:(lia) I I
                     (λ _ c p, conj (ex_intro _ _ eq_refl) (ex_intro _ _ eq_refl))))
    as (ts & us & rs & w' & Hrun & Hus).
  exists ts, us, rs, w'. split; [exact Hrun|].
  rewrite Hus. vm_compute. reflexivity.
Defined.

Lemma prompts_embed_caller_glossary_witness :
  ∃ ts us rs w',
    translate_with_context (U := plain_unicode) naming abc en true 1 0
                           false false [] None None fresh
    = Return (ts, us, rs) w'
    ∧ requests (trace w')
      = [prompt_of en [] (lit "[0] a"); prompt_of en [] (lit "[1] b");
         prompt_of en [] (lit "[2] c")].
Proof.
  destruct (prompts_embed_caller_glossary (U := plain_unicode) naming abc en
              1 0 false false [] None None fresh)
    as (ts & us & rs & w' & Hrun & Hrequests);
    [lia|lia|exact I|exact I|intros c p; split; eexists; reflexivity|].
  exists ts, us, rs, w'. split; [exact Hrun|].
  rewrite Hrequests. vm_compute. reflexivity.
Defined.

(** ** Where the specification and the code part *)

(** C2, as stated: an overlap below zero is below the window, yet it makes
    the step exceed the window, and the sentence between two windows has no
    entry when the result is assembled. *)
Lemma negative_overlap_leaves_gap :
  1 ≤ 1 ∧ -1 < 1 ∧ never_set None
  ∧ translate_with_context (U := plain_unicode) echo [lit "a"; lit "b"] en
                           false 1 (-1) false false [] None None fresh
    = Raise (KeyError 1) (World 0 1 [Request (lit "[0] a")]).
Proof. split; [lia|]. split; [lia|]. split; [exact I|]. vm_compute. reflexivity. Qed.

(** C4, as stated: the first window finds the target Bar for the term Foo,
    the second finds Baz, and the returned updates hold Baz. *)
Lemma later_target_replaces_first :
  ∃ ts us rs w',
    translate_with_context (U := plain_unicode) naming [lit "a"; lit "b"] en
                           true 1 0 false false [] None None fresh
    = Return (ts, us, rs) w'
    ∧ window_updates (U := plain_unicode) naming [lit "a"; lit "b"] en true 1
                     false [] (0, 0%nat)
      = [[(lit "Foo", lit "Bar")]]
    ∧ dict_get us (lit "Foo") = Some (lit "Baz")
    ∧ dict_get us (lit "Foo") ≠ Some (lit "Bar").
Proof.
  eexists _, _, _, _. split; [vm_compute; reflexivity|].
  split; [vm_compute; reflexivity|].
  split; [vm_compute; reflexivity|]. vm_compute. discriminate.
Qed.

(** C5, as stated: the first window produces the update from Foo to Bar,
    and the prompt of the second window is built from the empty glossary of
    the caller and does not mention Foo. *)
Lemma later_prompt_lacks_update :
  ∃ ts us rs w',
    translate_with_context (U := plain_unicode) naming [lit "a"; lit "b"] en
                           true 1 0 false false [] None None fresh
    = Return (ts, us, rs) w'
    ∧ window_updates (U := plain_unicode) naming [lit "a"; lit "b"] en true 1
                     false [] (0, 0%nat)
      = [[(lit "Foo", lit "Bar")]]
    ∧ requests (trace w') !! 1%nat = Some (prompt_of en [] (lit "[1] b"))
    ∧ contains (prompt_of en [] (lit "[1] b")) (lit "Foo") = false.
Proof.
  eexists _, _, _, _. split; [vm_compute; reflexivity|].
  split; [vm_compute; reflexivity|].
  split; vm_compute; reflexivity.
Qed.

(** * Further properties *)

(** ** Trimming *)

Section TrimFacts.
Context {U : Unicode}.

Lemma drop_while_suffix (p : N → bool) (s : str) :
  ∃ pre, s = pre ++ drop_while p s.
Proof.
  induction s as [|c s [pre IH]]; simpl.
  - by exists [].
  - destruct (p c); [|by exists []].
    exists (c :: pre). simpl. by rewrite <- IH.
Qed.

Lemma drop_while_head (p : N → bool) (s : str) (c : N) (r : str) :
  drop_while p s = c :: r → p c = false.
Proof.
  induction s as [|x s IH]; simpl; [done|].
  destruct (p x) eqn:Hx; [exact IH|]. by intros [= <- _].
Qed.

Lemma drop_while_fixed (p : N → bool) (c : N) (r : str) :
  p c = false → drop_while p (c :: r) = c :: r.
Proof. simpl. by intros ->. Qed.

(** A trimmed string is empty or has a first and a last character that are
    not whitespace. *)
Lemma strip_shape (s : str) :
  strip s = [] ∨
  ∃ first last_ mid_l mid_r,
    strip s = first :: mid_l ∧ strip s = mid_r ++ [last_]
    ∧ isspace first = false ∧ isspace last_ = false.
Proof.
  unfold strip.
  destruct (drop_while isspace s) as [|c t] eqn:Ht; [by left|].
  pose proof (drop_while_head _ _ _ _ Ht) as Hc.
  destruct (drop_while isspace (rev (c :: t))) as [|d u] eqn:Hu.
  { exfalso. destruct (drop_while_snoc isspace (rev t) c Hc) as [b' Hb].
    simpl in Hu. rewrite Hb in Hu. by destruct b'. }
  pose proof (drop_while_head _ _ _ _ Hu) as Hd.
  right.
  destruct (drop_while_suffix isspace (rev (c :: t))) as [pre Hpre].
  rewrite Hu in Hpre.
  assert (c :: t = rev (d :: u) ++ rev pre) as Hct.
  { rewrite <- rev_app_distr, <- Hpre. by rewrite rev_involutive. }
  simpl in Hct. simpl.
  destruct (rev u) as [|x ru] eqn:Hru.
  - exists d, d, [], []. done.
  - simpl in Hct. injection Hct as -> _.
    exists x, d, (ru ++ [d]), (x :: ru). done.
Qed.

Lemma strip_fixed (first last_ : N) (mid_l mid_r : str) (s : str) :
  s = first :: mid_l → s = mid_r ++ [last_] →
  isspace first = false → isspace last_ = false →
  strip s = s.
Proof.
  intros H1 H2 Hf Hl. unfold strip.
  rewrite H1 at 1. rewrite drop_while_fixed by done. rewrite <- H1.
  rewrite H2 at 1. rewrite rev_unit, drop_while_fixed by done.
  rewrite <- rev_unit, <- H2. apply rev_involutive.
Qed.

Lemma strip_idempotent (s : str) : strip (strip s) = strip s.
Proof.
  destruct (strip_shape s) as [->|(f & l & ml & mr & H1 & H2 & Hf & Hl)]; [done|].
  by eapply strip_fixed.
Qed.

Lemma strip_snoc (b : str) (c : N) :
  isspace c = false → ∃ b', strip (b ++ [c]) = b' ++ [c].
Proof.
  intros Hc. unfold strip.
  destruct (drop_while_snoc isspace b c Hc) as [b' ->].
  rewrite rev_unit, drop_while_fixed by done.
  exists b'. by rewrite <- rev_unit, rev_involutive.
Qed.

Lemma visible_app (a b : str) : visible (a ++ b) = visible a ++ visible b.
Proof. apply List.filter_app. Qed.

Lemma visible_rev (a : str) : visible (rev a) = rev (visible a).
Proof.
  induction a as [|c a IH]; [done|].
  cbn [rev]. rewrite visible_app, IH. unfold visible. cbn [List.filter].
  destruct (negb (isspace c)); cbn [rev]; [done|by rewrite app_nil_r].
Qed.

Lemma visible_drop_while (s : str) : visible (drop_while isspace s) = visible s.
Proof.
  induction s as [|c s IH]; [done|]. cbn [drop_while].
  destruct (isspace c) eqn:Hc; [|done].
  rewrite IH. unfold visible. cbn [List.filter]. by rewrite Hc.
Qed.

Lemma visible_strip (s : str) : visible (strip s) = visible s.
Proof.
  unfold strip.
  by rewrite visible_rev, visible_drop_while, visible_rev, rev_involutive,
             visible_drop_while.
Qed.

End TrimFacts.

(** ** More on sentence segmentation *)

Section SegmentationMore.
Context {U : Unicode}.

Lemma reference_scan_trimmed (text : str) :
  ∀ (rest : str) (i : nat) (buffer : str),
    Forall (λ s, strip s = s) (reference_scan text i rest buffer).
Proof.
  induction rest as [|ch rest IH]; intros i buffer; simpl.
  - destruct (nonempty (strip buffer)); [|constructor].
    constructor; [apply strip_idempotent|constructor].
  - destruct (boundary text i); [|apply IH].
    constructor; [apply strip_idempotent|apply IH].
Qed.

(** X1: every sentence returned by [split_sentences] is trimmed: trimming
    it again changes nothing. *)
Theorem split_sentences_trimmed (text : str) :
  Forall (λ s, strip s = s) (split_sentences text).
Proof. rewrite split_sentences_segment. apply reference_scan_trimmed. Qed.

Lemma reference_scan_visible (text : str) :
  ∀ (rest : str) (i : nat) (buffer : str),
    visible (concat (reference_scan text i rest buffer))
    = visible (buffer ++ rest).
Proof.
  induction rest as [|ch rest IH]; intros i buffer; simpl.
  - rewrite app_nil_r. destruct (nonempty (strip buffer)) eqn:Hn.
    + simpl. by rewrite app_nil_r, visible_strip.
    + destruct (strip buffer) eqn:Hs; [|done].
      by rewrite <- (visible_strip buffer), Hs.
  - destruct (boundary text i).
    + simpl. rewrite visible_app, IH, visible_strip, <- visible_app.
      by rewrite <- app_assoc.
    + rewrite IH. by rewrite <- app_assoc.
Qed.

(** X2: segmentation loses nothing but whitespace: the characters of the
    sentences that are not whitespace are those of the text, in order. *)
Theorem split_sentences_keeps_visible (text : str) :
  visible (concat (split_sentences text)) = visible text.
Proof.
  rewrite split_sentences_segment. unfold segment.
  apply reference_scan_visible.
Qed.

Lemma reference_scan_ends (text : str) :
  ∀ (rest : str) (i : nat) (buffer : str),
    drop i text = rest →
    ∃ front tail,
      reference_scan text i rest buffer = front ++ tail
      ∧ Forall (λ s, ends_sentence s = true) front
      ∧ (length tail ≤ 1)%nat.
Proof.
  induction rest as [|ch rest IH]; intros i buffer Hdrop; simpl.
  - exists [], (if nonempty (strip buffer) then [strip buffer] else []).
    split; [done|]. split; [constructor|].
    destruct (nonempty (strip buffer)); simpl; lia.
  - destruct (drop_cons_inv _ _ _ _ Hdrop) as [Hi Hdrop'].
    destruct (boundary text i) eqn:Hb.
    + destruct (IH (S i) [] Hdrop') as (front & tail & -> & Hfront & Htail).
      exists (strip (buffer ++ [ch]) :: front), tail.
      split; [done|]. split; [|done].
      constructor; [|done].
      pose proof (boundary_terminator _ _ _ Hi Hb) as Hterm.
      destruct (strip_snoc buffer ch (terminator_not_space _ Hterm)) as [b' ->].
      unfold ends_sentence. by rewrite last_snoc.
    + by apply IH.
Qed.

(** X3: every sentence but the last ends in one of the three terminators;
    only the trailing rest of the text can be a sentence without one. *)
Theorem split_sentences_terminated (text : str) (front : list str) (final : str) :
  split_sentences text = front ++ [final] →
  Forall (λ s, ends_sentence s = true) front.
Proof.
  rewrite split_sentences_segment. unfold segment. intros Hsplit.
  destruct (reference_scan_ends text text 0 [] eq_refl)
    as (front' & tail & Heq & Hfront & Htail).
  rewrite Heq in Hsplit.
  destruct tail as [|t [|t' tail]]; [| |simpl in Htail; lia].
  - rewrite app_nil_r in Hsplit. subst front'.
    by apply Forall_app in Hfront as [? _].
  - apply app_inj_tail in Hsplit as [-> _]. done.
Qed.

End SegmentationMore.

(** ** More on response parsing *)

Section ParsingMore.
Context {U : Unicode}.

Lemma find_here (s sub : str) : startswith s sub = true → find s sub = Some 0%nat.
Proof. intros H. destruct s; simpl; by rewrite H. Qed.

Lemma startswith_other (x e0 : N) (r e' : str) :
  x ≠ e0 → startswith (x :: r) (e0 :: e') = false.
Proof. intros Hx. simpl. by destruct (N.eqb_spec e0 x) as [->|_]. Qed.

Lemma find_skip (y : N) (r sub : str) :
  startswith (y :: r) sub = false → find (y :: r) sub = S <$> find r sub.
Proof. intros H. simpl. by rewrite H. Qed.

Lemma find_past (e body c : str) (e0 : N) (e' : str) :
  e = e0 :: e' →
  Forall (λ x, x ≠ e0) body →
  find (body ++ e ++ c) e = Some (length body).
Proof.
  intros He. induction 1 as [|y body Hy _ IH].
  - rewrite app_nil_l. apply find_here, startswith_app.
  - rewrite <- app_comm_cons, find_skip, IH; [done|].
    rewrite He. by apply startswith_other.
Qed.

Lemma search_marked_here (text s e g : str) :
  startswith text s = true →
  match find (drop (length s) text) e with
  | Some j => Some (take j (drop (length s) text))
  | None => None
  end = Some g →
  search_marked text s e = Some g.
Proof. intros Hs Hg. destruct text; simpl; by rewrite Hs, Hg. Qed.

Lemma search_marked_skip (x : N) (text s e : str) :
  startswith (x :: text) s = false →
  search_marked (x :: text) s e = search_marked text s e.
Proof. intros H. simpl. by rewrite H. Qed.

Lemma search_marked_bracketed (a body c s e : str) (s0 e0 : N) (s' e' : str) :
  s = s0 :: s' → e = e0 :: e' →
  Forall (λ x, x ≠ s0) a →
  Forall (λ x, x ≠ e0) body →
  search_marked (a ++ s ++ body ++ e ++ c) s e = Some body.
Proof.
  intros Hs He Ha Hbody. induction Ha as [|x a Hx _ IH].
  - rewrite app_nil_l. apply search_marked_here.
    + apply startswith_app.
    + rewrite drop_app_length, (find_past e body c e0 e') by done.
      by rewrite take_app_length.
  - rewrite <- app_comm_cons, search_marked_skip; [exact IH|].
    rewrite Hs. by apply startswith_other.
Qed.

(** X4: a response that brackets its translation between the markers gives
    back the trimmed translation, whatever precedes the start marker and
    follows the end marker, when the first character of the start marker
    does not occur before it and the first character of the end marker does
    not occur in the translation. *)
Theorem prune_marked_bracketed (a body c : str) (s0 e0 : N) (s' e' : str) :
  Forall (λ x, x ≠ s0) a →
  Forall (λ x, x ≠ e0) body →
  prune_marked (a ++ (s0 :: s') ++ body ++ (e0 :: e') ++ c) (s0 :: s') (e0 :: e')
  = strip body.
Proof.
  intros Ha Hbody. unfold prune_marked.
  by rewrite (search_marked_bracketed a body c _ _ s0 e0 s' e').
Qed.

(** X5: the translation extracted from a response is trimmed. *)
Theorem prune_marked_trimmed (text start_mark end_mark : str) :
  strip (prune_marked text start_mark end_mark)
  = prune_marked text start_mark end_mark.
Proof.
  unfold prune_marked. destruct (search_marked _ _ _); apply strip_idempotent.
Qed.

Lemma glossary_line_accepts (glossary : dict) (line src dst : str) :
  glossary_line glossary line = Ok (Some (src, dst)) →
  acceptable glossary src dst.
Proof.
  intros Hline.
  destruct (contains line ARROW) eqn:Hc.
  2:{ unfold glossary_line in Hline. by rewrite Hc in Hline. }
  destruct (contains_find _ _ Hc) as [j Hj].
  assert (split_once line ARROW
          = Some (take j line, drop (j + length ARROW)%nat line)) as Hsplit.
  { unfold split_once. by rewrite Hj. }
  generalize dependent (drop (j + length ARROW) line). intros b Hsplit.
  generalize dependent (take j line). intros a Hsplit.
  pose proof (glossary_line_rejected glossary line _ _ Hsplit) as Hrej.
  pose proof (glossary_line_accepted glossary line _ _ Hsplit) as Hacc.
  rewrite Hline in Hrej, Hacc.
  specialize (Hacc ltac:(done)). injection Hacc as Hsrc Hdst.
  rewrite <- Hsrc, <- Hdst in Hrej.
  assert (∀ P : Prop, (P → Ok (Some (src, dst)) = @Ok (option (str * str)) None)
                      → ¬ P) as Hnot.
  { intros P HP Hp. by specialize (HP Hp). }
  unfold acceptable. split_and!.
  - apply Hnot. intros H. apply Hrej. by left.
  - apply Hnot. intros H. apply Hrej. right. by left.
  - rewrite Hsrc. apply strip_idempotent.
  - rewrite Hdst. apply strip_idempotent.
  - apply Hnot. intros H. apply Hrej. do 2 right. by left.
  - destruct (dict_get glossary src) eqn:Hg; [|done].
    exfalso. eapply Hnot; [|exact I]. intros _. apply Hrej.
    do 3 right. left. eauto.
  - destruct (le_lt_dec (length src) 1) as [Hle|Hlt]; [|lia].
    exfalso. eapply Hnot; [|exact I]. intros _. apply Hrej.
    do 4 right. by left.
  - intros Hascii. destruct src as [|c0 rest] eqn:Hshape.
    + exfalso. eapply Hnot; [|exact I]. intros _. apply Hrej. by left.
    + exists c0, rest. split; [done|].
      destruct (isupper c0) eqn:Hup; [done|].
      exfalso. eapply Hnot; [|exact I]. intros _. apply Hrej.
      do 5 right. split; [done|]. eauto.
Qed.

Lemma dict_set_elem (d : dict) (k v : str) (p : str * str) :
  p ∈ dict_set d k v → p = (k, v) ∨ p ∈ d.
Proof.
  induction d as [|[k' v'] d IH]; simpl.
  - intros H. apply list_elem_of_singleton in H. by left.
  - destruct (decide (k' = k)) as [->|Hne].
    + intros H. apply elem_of_cons in H as [->|H]; [by left|].
      right. by right.
    + intros H. apply elem_of_cons in H as [->|H]; [right; by left|].
      destruct (IH H); [by left|right; by right].
Qed.

Lemma glossary_lines_acceptable (glossary : dict) (lines : list str) :
  ∀ updates updates',
    Forall (λ p, acceptable glossary p.1 p.2) updates →
    glossary_lines glossary lines updates = Ok updates' →
    Forall (λ p, acceptable glossary p.1 p.2) updates'.
Proof.
  induction lines as [|line lines IH]; intros updates updates' Hu; simpl.
  - by intros [= <-].
  - destruct (glossary_line glossary line) as [[[s d]|]|] eqn:Hl; simpl; [| |done].
    + apply IH. apply Forall_forall. intros p Hp.
      apply dict_set_elem in Hp as [->|Hp].
      * by apply glossary_line_accepts in Hl.
      * by eapply Forall_forall in Hu.
    + by apply IH.
Qed.

(** X6: every update the parser returns has passed the glossary filter: its
    source and target are trimmed and non-empty, differ when lowercased, the
    source is not a key of the glossary, has at least two characters and,
    when ASCII, starts with an uppercase letter. *)
Theorem parse_updates_acceptable (text : str) (glossary : dict)
    (start_mark end_mark : str) :
  ∃ translation updates,
    parse_translation_and_glossary text glossary start_mark end_mark
    = Ok (translation, updates)
    ∧ Forall (λ p, acceptable glossary p.1 p.2) updates.
Proof.
  unfold parse_translation_and_glossary.
  destruct (search_marked text GLOSSARY_START GLOSSARY_END) as [block|].
  - destruct (glossary_lines_total glossary (splitlines block) []) as [u Hu].
    rewrite Hu. simpl. eexists _, _. split; [done|].
    eapply glossary_lines_acceptable; [|exact Hu]. constructor.
  - eexists _, _. split; [done|]. constructor.
Qed.

Lemma replace_absent (s old new : str) :
  contains s old = false → replace s old new = s.
Proof.
  intros Hc. unfold replace. destruct old as [|o old].
  { by destruct s. }
  generalize (length s). revert Hc.
  induction s as [|c s IH]; intros Hc fuel.
  - by destruct fuel.
  - destruct fuel as [|fuel]; [done|].
    cbn [contains] in Hc. apply orb_false_elim in Hc as [Hs Hc].
    cbn [replace_from]. rewrite Hs. f_equal. by apply IH.
Qed.

(** X7: a text in which no key of the glossary occurs is left as it is by
    [apply_glossary]. *)
Theorem apply_glossary_absent (text : str) (glossary : dict) :
  Forall (λ kv, contains text kv.1 = false) glossary →
  apply_glossary text glossary = text.
Proof.
  intros H. unfold apply_glossary. destruct glossary as [|kv glossary]; [done|].
  induction H as [|kv' g Hkv _ IH]; [done|].
  cbn [fold_left]. by rewrite replace_absent.
Qed.

Lemma replace_from_nil (fuel : nat) (old new : str) :
  replace_from fuel [] old new = [].
Proof. by destruct fuel. Qed.

Lemma startswith_refl (s : str) : startswith s s = true.
Proof.
  pose proof (startswith_app s []) as H. by rewrite app_nil_r in H.
Qed.

Lemma replace_whole (s new : str) : s ≠ [] → replace s s new = new.
Proof.
  intros Hs. unfold replace. destruct s as [|c r]; [done|].
  change (replace_from (length (c :: r)) (c :: r) (c :: r) new)
    with (if startswith (c :: r) (c :: r)
          then new ++ replace_from (length r) (drop (length (c :: r)) (c :: r))
                                   (c :: r) new
          else c :: replace_from (length r) r (c :: r) new).
  rewrite startswith_refl, drop_all, replace_from_nil. apply app_nil_r.
Qed.

(** X8: the entries of a glossary are applied in their order, each to the
    result of the one before: on a text that is the key [k1], the entries
    [k1 -> k2] and [k2 -> v] in this order give [v], the later entry
    rewriting what the earlier one put in, and in the other order give
    [k2], when [k2] does not occur in [k1]. *)
Theorem apply_glossary_in_order (k1 k2 v : str) :
  k1 ≠ [] → k2 ≠ [] → contains k1 k2 = false →
  apply_glossary k1 [(k1, k2); (k2, v)] = v
  ∧ apply_glossary k1 [(k2, v); (k1, k2)] = k2.
Proof.
  intros H1 H2 Habsent. unfold apply_glossary. cbn [fold_left fst snd]. split.
  - by rewrite !replace_whole.
  - by rewrite (replace_absent k1 k2 v), replace_whole.
Qed.

End ParsingMore.

(** ** The backend invoker under cancellation *)

Section Invoker.
Context {U : Unicode} (B : backend).
Context (cancel_event pause_event : option flag).
Hypothesis Hpause : clear_from (patience B) pause_event.

Lemma is_set_returns (w : world) :
  ∃ b w', is_set cancel_event w = Return b w' ∧ later_than w w'.
Proof.
  unfold is_set. destruct cancel_event as [f|].
  - eexists _, _. split; [reflexivity|].
    unfold later_than. simpl. split_and!; [lia|done..].
  - eexists _, _. split; [reflexivity|]. apply later_than_refl.
Qed.

Lemma wait_while_paused_ends (pause : flag) (fuel : nat) :
  (∀ t, (patience B ≤ t)%nat → pause t = false) →
  ∀ w, (patience B ≤ clock w + fuel)%nat →
    ∃ w', wait_while_paused fuel cancel_event pause w = Return () w'
          ∧ later_than w w'.
Proof.
  intros Hp. induction fuel as [|fuel IH]; intros w Hw;
    cbn [wait_while_paused]; unfold mbind at 1, M_bind at 1, observe;
    (destruct (pause (clock w)) eqn:Hnow;
     [|eexists; split; [done|]; unfold later_than; simpl; split_and!; [lia|done..]]).
  - rewrite Hp in Hnow by lia. done.
  - destruct (is_set_returns (World (S (clock w)) (calls w) (trace w)))
      as (b & w1 & H1 & Hl1 & Hc1 & Ht1). simpl in *.
    run H1. destruct b.
    + eexists. split; [done|]. unfold later_than. split_and!; [lia|done..].
    + unfold tick, mbind, M_bind.
      destruct (IH (World (S (clock w1)) (calls w1) (trace w1)))
        as (w2 & -> & Hl2 & Hc2 & Ht2); [simpl; lia|]. simpl in *.
      eexists. split; [done|]. unfold later_than. split_and!; [lia|congruence..].
Qed.

Lemma pause_point_ends (w : world) :
  ∃ w', pause_point B cancel_event pause_event w = Return () w'
        ∧ later_than w w'.
Proof.
  unfold pause_point. destruct pause_event as [pause|]; simpl in Hpause.
  - apply wait_while_paused_ends; [done|lia].
  - eexists. split; [done|]. apply later_than_refl.
Qed.

Lemma read_stream_returns (token_callback : option (Z → str → M unit))
    (idx : Z) (start_mark end_mark : str) (parts : list chunk) :
  well_behaved token_callback →
  ∀ raw w,
    ∃ raw' w',
      read_stream token_callback idx start_mark end_mark parts raw w
      = Return raw' w'
      ∧ calls w' = calls w.
Proof.
  intros Hcb. induction parts as [|part parts IH]; intros raw w.
  - eexists _, _. by split.
  - cbn [read_stream].
    assert (∃ raw1 w1,
              (if nonempty (delta part)
               then match token_callback with
                    | Some cb =>
                      cb idx (prune_marked (raw ++ delta part) start_mark end_mark);;
                      mret (raw ++ delta part)
                    | None => mret (raw ++ delta part)
                    end
               else mret raw) w = Return raw1 w1 ∧ calls w1 = calls w)
      as (raw1 & w1 & H1 & Hc1).
    { destruct (nonempty (delta part)); [|by eexists _, _].
      destruct token_callback as [cb|]; [|by eexists _, _].
      destruct (Hcb cb eq_refl idx
                    (prune_marked (raw ++ delta part) start_mark end_mark) w)
        as (w1 & H1 & Hc1).
      run H1. by eexists _, _. }
    run H1. destruct (done part); [by eexists _, _|].
    destruct (IH raw1 w1) as (raw' & w' & -> & Hc'). eexists _, _.
    split; [done|congruence].
Qed.

(** Whatever the cancellation flag does, the loop over the sentences ends
    with as many outputs as raw responses as backend calls made. *)
Lemma ollama_loop_returns (target_lang : str) (glossary : dict)
    (stream : bool) (token_callback : option (Z → str → M unit))
    (start_mark end_mark : str) (sents : list str) :
  well_behaved token_callback →
  reachable B →
  ∀ (idx : Z) (outs : list str) (terms : dict) (raws : list str) (w : world),
    ∃ outs' terms' raws' w',
      ollama_loop B target_lang glossary stream token_callback
        cancel_event pause_event start_mark end_mark idx sents outs terms raws w
      = Return (outs ++ outs', terms', raws ++ raws') w'
      ∧ length outs' = length raws'
      ∧ (length raws' ≤ length sents)%nat
      ∧ calls w' = (calls w + length raws')%nat.
Proof.
  intros Hcb Hup. induction sents as [|s sents IH]; intros idx outs terms raws w.
  - exists [], terms, [], w. simpl. rewrite !app_nil_r. split_and!; [done..|lia].
  - cbn [ollama_loop].
    destruct (is_set_returns w) as (b & w1 & H1 & Hl1 & Hc1 & Ht1).
    run H1. destruct b.
    { exists [], terms, [], w1. rewrite !app_nil_r. simpl.
      split_and!; [done|done|lia|lia]. }
    destruct (pause_point_ends w1) as (w2 & H2 & Hl2 & Hc2 & Ht2).
    run H2.
    set (prompt := render_prompt _ _ _ _ _ _ s).
    destruct (Hup (calls w2) prompt) as [[response Hgen] [parts Hstr]].
    assert (∃ raw w3,
              (if stream
               then reply ← call (ollama_stream B) prompt;
                    match reply with
                    | Some parts0 =>
                      read_stream token_callback idx start_mark end_mark parts0 []
                    | None => raise RuntimeError
                    end
               else reply ← call (ollama_generate B) prompt;
                    match reply with
                    | Some response0 => mret response0
                    | None => raise RuntimeError
                    end) w2 = Return raw w3
              ∧ calls w3 = S (calls w2)) as (raw & w3 & H3 & Hc3).
    { destruct stream; unfold mbind, M_bind, call.
      - rewrite Hstr.
        destruct (read_stream_returns token_callback idx start_mark end_mark parts
                    Hcb []
                    (World (clock w2) (S (calls w2)) (trace w2 ++ [Request prompt])))
          as (raw & w3 & -> & Hc3).
        by eexists _, _.
      - rewrite Hgen. by eexists _, _. }
    run H3.
    destruct (parse_returns glossary raw start_mark end_mark) as [ups Hparse].
    rewrite Hparse. cbn [lift]. unfold mbind at 1, M_bind at 1, mret at 1, M_ret at 1.
    assert (∃ w4, (match token_callback with
                   | Some cb =>
                     if negb stream
                     then cb idx (prune_marked raw start_mark end_mark)
                     else mret ()
                   | None => mret ()
                   end) w3 = Return () w4 ∧ calls w4 = calls w3)
      as (w4 & H4 & Hc4).
    { destruct token_callback as [cb|]; [|by eexists].
      destruct stream; [by eexists|]. apply (Hcb cb eq_refl). }
    run H4.
    destruct (IH (idx + 1) (outs ++ [prune_marked raw start_mark end_mark])
                 (dict_update terms ups) (raws ++ [raw]) w4)
      as (outs' & terms' & raws' & w' & -> & Hlen & Hle & Hcalls).
    exists (prune_marked raw start_mark end_mark :: outs'), terms', (raw :: raws'), w'.
    rewrite <- !app_assoc. cbn [app length].
    split_and!; [done|lia|lia|lia].
Qed.

Lemma pipeline_loop_returns (sents : list str) :
  ∀ (outs : list str) (w : world),
    ∃ outs' w',
      pipeline_loop B cancel_event pause_event sents outs w
      = Return (outs ++ outs') w'
      ∧ (length outs' ≤ length sents)%nat
      ∧ calls w' = (calls w + length outs')%nat.
Proof.
  induction sents as [|s sents IH]; intros outs w.
  - exists [], w. simpl. rewrite app_nil_r. split_and!; [done|lia|lia].
  - cbn [pipeline_loop].
    destruct (is_set_returns w) as (b & w1 & H1 & Hl1 & Hc1 & Ht1).
    run H1. destruct b.
    { exists [], w1. rewrite app_nil_r. simpl. split_and!; [done|lia|lia]. }
    destruct (pause_point_ends w1) as (w2 & H2 & Hl2 & Hc2 & Ht2).
    run H2. unfold mbind at 1, M_bind at 1, call at 1.
    destruct (IH (outs ++ [hf_translate B (calls w2) s])
                 (World (clock w2) (S (calls w2)) (trace w2 ++ [Request s])))
      as (outs' & w' & -> & Hle & Hcalls).
    exists (hf_translate B (calls w2) s :: outs'), w'.
    rewrite <- app_assoc. cbn [app length calls] in *.
    split_and!; [done|lia|lia].
Qed.

(** X9: whenever and however often cancellation is requested, a batch call
    whose backend answers and whose token callback returns ends normally,
    with as many translations as raw responses, at most one per sentence,
    and one backend call for each. *)
Theorem translate_sentences_stops_cleanly (sentences : list str)
    (target_lang : str) (use_ollama : bool)
    (token_callback : option (Z → str → M unit))
    (glossary : dict) (start_mark end_mark : str) (w : world) :
  well_behaved token_callback →
  (use_ollama = true → reachable B) →
  ∃ outs updates raws w',
    translate_sentences B sentences target_lang use_ollama token_callback
      glossary cancel_event pause_event start_mark end_mark w
    = Return (outs, updates, raws) w'
    ∧ length outs = length raws
    ∧ (length raws ≤ length sentences)%nat
    ∧ calls w' = (calls w + length raws)%nat.
Proof.
  intros Hcb Hup. unfold translate_sentences. destruct use_ollama.
  - unfold translate_with_ollama.
    destruct (ollama_loop_returns target_lang glossary
                (match token_callback with Some _ => true | None => false end)
                token_callback start_mark end_mark sentences Hcb (Hup eq_refl)
                0 [] [] [] w)
      as (outs & terms & raws & w' & Hrun & Hlen & Hle & Hcalls).
    exists outs, terms, raws, w'. by rewrite Hrun.
  - destruct (pipeline_loop_returns sentences [] w) as (outs & w' & Hrun & Hle & Hcalls).
    exists outs, [], outs, w'. run Hrun. done.
Qed.

End Invoker.

Section InvokerCancelled.
Context {U : Unicode} (B : backend).

(** X10: a batch call to Ollama that finds the cancellation flag set at
    its first check returns empty results and makes no backend call. *)
Theorem translate_sentences_cancelled (sentences : list str)
    (target_lang : str) (token_callback : option (Z → str → M unit))
    (glossary : dict) (cancel : flag) (pause_event : option flag)
    (start_mark end_mark : str) (w : world) :
  cancel (clock w) = true →
  ∃ w',
    translate_sentences B sentences target_lang true token_callback
      glossary (Some cancel) pause_event start_mark end_mark w
    = Return ([], [], []) w'
    ∧ calls w' = calls w ∧ trace w' = trace w.
Proof.
  intros Hset. unfold translate_sentences, translate_with_ollama.
  destruct sentences as [|s rest];
    cbn [ollama_loop];
    unfold mbind, M_bind, is_set, observe, mret, M_ret;
    rewrite ?Hset; by eexists.
Qed.

End InvokerCancelled.

(** ** Streaming *)

Section Streaming.
Context {U : Unicode}.

Lemma stream_partials_last (parts : list chunk) :
  ∀ raw,
    stream_partials raw parts = [] ∧ stream_text parts = []
    ∨ last (stream_partials raw parts)
      = Some (prune_marked (raw ++ stream_text parts) START_MARK END_MARK).
Proof.
  induction parts as [|part parts IH]; intros raw; [by left|].
  cbn [stream_partials stream_text].
  destruct (delta part) as [|c d] eqn:Hdelta.
  - cbn [nonempty app]. rewrite app_nil_r.
    destruct (done part); [by left|]. apply IH.
  - cbn [nonempty]. right. destruct (done part).
    + by rewrite !app_nil_r.
    + destruct (IH (raw ++ c :: d)) as [[-> ->]|Hlast].
      * by rewrite !app_nil_r.
      * by rewrite last_app, Hlast, app_assoc.
Qed.

(** X11: while a reply streams in, the token callback is either never
    invoked, and then the reply carried no text, or the text of its last
    invocation is the translation extracted from the complete reply. *)
Theorem read_stream_last_token (base idx : Z) (parts : list chunk) (w : world) :
  ∃ raw w' texts,
    read_stream (Some (λ i text, emit (Token (base + i) text))) idx
                START_MARK END_MARK parts [] w
    = Return raw w'
    ∧ trace w' = trace w ++ (Token (base + idx) <$> texts)
    ∧ (texts = [] ∧ raw = []
       ∨ last texts = Some (prune_marked raw START_MARK END_MARK)).
Proof.
  eexists _, _, (stream_partials [] parts).
  rewrite read_stream_tokens. split; [reflexivity|]. split; [reflexivity|].
  apply (stream_partials_last parts []).
Qed.

End Streaming.


(** ** Transport failure *)

Section Failure.
Context {U : Unicode} (B : backend).
Context (cancel_event pause_event : option flag).
Hypothesis Hcancel : never_set cancel_event.
Hypothesis Hpause : clear_from (patience B) pause_event.

Local Opaque render_prompt parse_translation_and_glossary prune_marked.

Lemma bind_raise {A X} (m : M A) (k : A → M X) (w w1 : world) (e : exn) :
  m w = Raise e w1 → (m ≫= k) w = Raise e w1.
Proof. unfold mbind, M_bind. by intros ->. Qed.

Lemma window_sents_head (s0 : str) (rest : list str) (window : Z) :
  1 ≤ window →
  ∃ more, window_sents (s0 :: rest) window 0 = tag 0 s0 :: more.
Proof.
  intros Hw.
  pose proof (window_sents_lookup (s0 :: rest) window 0 0 ltac:(lia) ltac:(lia))
    as H.
  rewrite bool_decide_eq_true_2 in H by lia.
  change (Z.to_nat 0 + 0)%nat with 0%nat in H.
  change (0 + Z.of_nat 0) with 0 in H.
  change ((s0 :: rest) !! 0%nat) with (Some s0) in H.
  change (tag 0 <$> Some s0) with (Some (tag 0 s0)) in H.
  destruct (window_sents (s0 :: rest) window 0) as [|x more]; [done|].
  injection H as ->. by exists more.
Qed.

Lemma ollama_loop_down (target_lang : str) (glossary : dict)
    (token_callback : option (Z → str → M unit)) (idx : Z)
    (s : str) (rest outs : list str) (terms : dict) (raws : list str) (w : world) :
  (∀ prompt, ollama_generate B (calls w) prompt = None) →
  ∃ w',
    ollama_loop B target_lang glossary false token_callback cancel_event
                pause_event START_MARK END_MARK idx (s :: rest) outs terms raws w
    = Raise RuntimeError w'
    ∧ trace w' = trace w ++ [Request (prompt_of target_lang glossary s)].
Proof.
  intros Hdown. cbn [ollama_loop].
  destruct (is_set_never cancel_event Hcancel w) as (w1 & H1 & Hl1 & Hc1 & Ht1).
  run H1.
  destruct (pause_point_returns B cancel_event pause_event Hcancel Hpause w1)
    as (w2 & H2 & Hl2 & Hc2 & Ht2).
  run H2.
  assert (calls w2 = calls w) as Hc by congruence.
  assert (trace w2 = trace w) as Ht by congruence.
  pose proof (Hdown (prompt_of target_lang glossary s)) as Hgen.
  unfold prompt_of in *.
  eexists. split.
  - apply bind_raise. unfold mbind, M_bind, call. rewrite Hc, Hgen. reflexivity.
  - cbn [trace]. by rewrite Ht.
Qed.

(** X12: when no token callback is given, so that replies are not
    streamed, and the backend fails on the first request of a run, the run
    raises [RuntimeError] having sent that one request, the prompt for the
    tagged first sentence. *)
Theorem translate_with_context_transport_failure
    (s0 : str) (rest : list str) (target_lang : str) (window overlap : Z)
    (progress_callback : bool) (glossary : dict) (w : world) :
  1 ≤ window →
  (∀ prompt, ollama_generate B (calls w) prompt = None) →
  ∃ w',
    translate_with_context B (s0 :: rest) target_lang true window overlap
      progress_callback false glossary cancel_event pause_event w
    = Raise RuntimeError w'
    ∧ trace w' = trace w ++ [Request (prompt_of target_lang glossary (tag 0 s0))].
Proof.
  intros Hw Hdown. unfold translate_with_context.
  set (total := Z.of_nat (length (s0 :: rest))).
  assert (0 < total) as Htotal by (subst total; simpl; lia).
  destruct (py_range_head total (Z.max 1 (window - overlap))) as [later ->];
    [lia..|].
  cbn [window_loop].
  destruct (is_set_never cancel_event Hcancel w) as (w1 & H1 & Hl1 & Hc1 & Ht1).
  destruct (pause_point_returns B cancel_event pause_event Hcancel Hpause w1)
    as (w2 & H2 & Hl2 & Hc2 & Ht2).
  fold (window_sents (s0 :: rest) window 0).
  destruct (window_sents_head s0 rest window Hw) as [more ->].
  assert (∀ prompt, ollama_generate B (calls w2) prompt = None) as Hdown2.
  { intros prompt. replace (calls w2) with (calls w) by congruence. apply Hdown. }
  destruct (ollama_loop_down target_lang glossary None
              0 (tag 0 s0) more [] [] [] w2 Hdown2) as (w' & Hfail & Htrace).
  exists w'. split.
  - apply bind_raise. run H1. run H2. apply bind_raise. exact Hfail.
  - rewrite Htrace. f_equal. congruence.
Qed.

End Failure.

(** ** The caller's merge *)

Section Merge.

Lemma dict_set_fresh (d : dict) (k v : str) :
  dict_get d k = None → dict_set d k v = d ++ [(k, v)].
Proof.
  induction d as [|[k' v'] d IH]; simpl; [done|].
  destruct (decide (k' = k)); [done|]. intros H. by rewrite IH.
Qed.

Lemma merge_updates_cons (glossary : dict) (k v : str) (updates : dict) :
  merge_updates glossary ((k, v) :: updates)
  = merge_updates (if dict_mem glossary k then glossary
                   else dict_set glossary k v) updates.
Proof. reflexivity. Qed.

Lemma merge_updates_extends (updates glossary : dict) :
  ∃ added, merge_updates glossary updates = glossary ++ added.
Proof.
  revert glossary.
  induction updates as [|[k v] updates IH]; intros glossary.
  - exists []. by rewrite app_nil_r.
  - rewrite merge_updates_cons. unfold dict_mem.
    destruct (dict_get glossary k) eqn:Hk.
    + apply IH.
    + rewrite dict_set_fresh by done.
      destruct (IH (glossary ++ [(k, v)])) as [added ->].
      exists ((k, v) :: added). by rewrite <- app_assoc.
Qed.

Lemma dict_get_app_Some (d1 d2 : dict) (k v : str) :
  dict_get d1 k = Some v → dict_get (d1 ++ d2) k = Some v.
Proof.
  induction d1 as [|[k' v'] d1 IH]; simpl; [done|].
  destruct (decide (k' = k)); [done|]. exact IH.
Qed.

(** X13: merging returned updates into the glossary only appends: the
    glossary stays as the beginning of the result, in its order, and every
    term it knew keeps its target. *)
Theorem merge_updates_first_writer_wins (glossary updates : dict) :
  (∃ added, merge_updates glossary updates = glossary ++ added)
  ∧ ∀ k v, dict_get glossary k = Some v →
           dict_get (merge_updates glossary updates) k = Some v.
Proof.
  destruct (merge_updates_extends updates glossary) as [added Heq].
  split; [by exists added|].
  intros k v Hk. rewrite Heq. by apply dict_get_app_Some.
Qed.

Lemma merge_updates_lookup (updates glossary : dict) (k : str) :
  dict_get (merge_updates glossary updates) k =
    match dict_get glossary k with
    | Some v => Some v
    | None => dict_get updates k
    end.
Proof.
  revert glossary.
  induction updates as [|[k0 v0] updates IH]; intros glossary.
  - simpl. by destruct (dict_get glossary k).
  - rewrite merge_updates_cons, IH. cbn [dict_get]. unfold dict_mem.
    destruct (dict_get glossary k0) eqn:Hk0.
    + destruct (dict_get glossary k) eqn:Hk; [done|].
      destruct (decide (k0 = k)) as [->|Hne]; [congruence|done].
    + destruct (decide (k0 = k)) as [->|Hne].
      * by rewrite dict_get_set_eq, Hk0.
      * by rewrite dict_get_set_ne.
Qed.

(** X14: a term the glossary does not know takes the target the updates
    give it, and a term neither knows stays unknown. *)
Theorem merge_updates_adds (glossary updates : dict) (k : str) :
  dict_get glossary k = None →
  dict_get (merge_updates glossary updates) k = dict_get updates k.
Proof. intros Hk. by rewrite merge_updates_lookup, Hk. Qed.

Lemma merge_updates_known (updates glossary : dict) :
  Forall (λ kv, is_Some (dict_get glossary kv.1)) updates →
  merge_updates glossary updates = glossary.
Proof.
  induction 1 as [|[k v] updates [x Hk] _ IH]; [done|].
  rewrite merge_updates_cons. unfold dict_mem. simpl in Hk. by rewrite Hk.
Qed.

(** X15: merging the same updates a second time changes nothing. *)
Theorem merge_updates_idempotent (glossary updates : dict) :
  merge_updates (merge_updates glossary updates) updates
  = merge_updates glossary updates.
Proof.
  apply merge_updates_known. apply Forall_forall. intros [k v] Hin. simpl.
  rewrite merge_updates_lookup.
  destruct (dict_get glossary k); [eauto|].
  clear -Hin. induction updates as [|[k' v'] updates IH].
  - by apply elem_of_nil in Hin.
  - simpl. destruct (decide (k' = k)); [eauto|].
    apply elem_of_cons in Hin as [[= -> ->]|Hin]; [done|]. by apply IH.
Qed.

End Merge.

(** ** Progress *)

Section ProgressFacts.
Context {U : Unicode} (B : backend).
Context (sentences : list str) (target_lang : str)
        (use_ollama : bool) (window overlap : Z)
        (token_callback : bool) (glossary : dict).
Context (cancel_event pause_event : option flag).

Local Abbreviation total := (Z.of_nat (length sentences)).
Local Abbreviation step := (Z.max 1 (window - overlap)).

Lemma progress_reports_schedule (sched : list (Z * nat)) :
  progress_reports
    (concat (window_events B sentences target_lang use_ollama window step
                           true token_callback glossary <$> sched))
  = (λ start, (Z.min total (start + step), total)) <$> sched.*1.
Proof.
  induction sched as [|[start made] sched IH]; [done|].
  cbn [fmap list_fmap concat fst]. rewrite progress_reports_app.
  unfold window_events at 1.
  rewrite progress_reports_app, progress_reports_sentences. cbn [app].
  cbn [progress_reports flat_map app]. f_equal. exact IH.
Qed.

(** The reports of a range of starts end at the total and grow. *)
Lemma range_reports_last (n s : Z) :
  0 < n → 0 < s →
  last ((λ start, (Z.min n (start + s), n)) <$> py_range 0 n s) = Some (n, n).
Proof.
  intros Hn Hs. rewrite fmap_last, last_lookup.
  set (l := py_range 0 n s).
  destruct (py_range_head n s Hn Hs) as [later Hl]. fold l in Hl.
  assert (length l ≠ 0%nat) as Hlen by (rewrite Hl; done).
  pose proof (py_range_lookup n s (pred (length l)) Hs) as Hin.
  pose proof (py_range_lookup n s (length l) Hs) as Hout.
  fold l in Hin, Hout.
  rewrite (lookup_ge_None_2 l (length l)) in Hout by lia.
  case_bool_decide as Hge; [done|].
  destruct (l !! pred (length l)) as [x|] eqn:Hx.
  2:{ apply lookup_ge_None in Hx. lia. }
  case_bool_decide as Hlt; [|done]. injection Hin as ->.
  cbn [fmap option_fmap option_map]. do 2 f_equal.
  replace (Z.of_nat (length l)) with (Z.of_nat (pred (length l)) + 1) in Hge by lia.
  lia.
Qed.

(** X16: with a progress callback, an undisturbed run reports progress
    once per window; the reported counts are positive, never exceed the
    number of sentences, grow strictly from one report to the next, and the
    last report is the full count. *)
Theorem progress_grows_to_total (w : world) :
  1 ≤ window → 0 ≤ overlap < window →
  never_set cancel_event →
  clear_from (patience B) pause_event →
  (use_ollama = true → reachable B) →
  sentences ≠ [] →
  ∃ ts us rs w' reports,
    translate_with_context B sentences target_lang use_ollama window overlap
      true token_callback glossary cancel_event pause_event w
    = Return (ts, us, rs) w'
    ∧ progress_reports (trace w') = progress_reports (trace w) ++ reports
    ∧ length reports = length (py_range 0 total step)
    ∧ Forall (λ r, 0 < r.1 ≤ total ∧ r.2 = total) reports
    ∧ (∀ (i : nat) (r r' : Z * Z),
          reports !! i = Some r → reports !! S i = Some r' → r.1 < r'.1)
    ∧ last reports = Some (total, total).
Proof.
  intros Hw Ho Hcancel Hpause Hup Hne.
  destruct (translate_with_context_undisturbed B sentences target_lang
              use_ollama window overlap true token_callback
              glossary cancel_event pause_event w Hw Ho Hcancel Hpause Hup)
    as (w' & Hrun & Htrace).
  assert (0 < total) as Htotal by (destruct sentences; [done|simpl; lia]).
  eexists _, _, _, w', _. split; [exact Hrun|].
  split.
  { rewrite Htrace, progress_reports_app, progress_reports_schedule,
            schedule_starts. reflexivity. }
  split; [by rewrite length_fmap|].
  split; [|split].
  - apply Forall_fmap, Forall_forall. intros start Hin. simpl.
    apply elem_of_py_range in Hin as (k & Hk & -> & Hlt); lia.
  - intros i r r' Hi Hi'.
    rewrite list_lookup_fmap in Hi, Hi'.
    rewrite py_range_lookup in Hi, Hi' by lia.
    case_bool_decide as H1; [|done]. case_bool_decide as H2; [|done].
    simpl in Hi, Hi'. injection Hi as <-. injection Hi' as <-. simpl. lia.
  - apply range_reports_last; lia.
Qed.

End ProgressFacts.

(** ** Requests without overlap *)

Section NoOverlap.
Context {U : Unicode} (B : backend).

Lemma concat_fmap_fmap {A X Y} (f : X → Y) (g : A → list X) (l : list A) :
  concat ((λ a, f <$> g a) <$> l) = f <$> concat (g <$> l).
Proof.
  induction l as [|a l IH]; [done|].
  cbn [fmap list_fmap concat]. rewrite fmap_app. f_equal. exact IH.
Qed.

Lemma tag_window_app (start : Z) (l1 l2 : list str) :
  tag_window start (l1 ++ l2)
  = tag_window start l1 ++ tag_window (start + Z.of_nat (length l1)) l2.
Proof.
  unfold tag_window. rewrite imap_app. f_equal.
  apply imap_ext. intros i x _. simpl. f_equal. lia.
Qed.

(** Windows that do not overlap cut the tagged sentences into pieces. *)
Lemma windows_partition (l : list str) (w : Z) (n : nat) :
  0 < w →
  concat ((λ k, window_sents l w (k * w)) <$> seqZ 0 (Z.of_nat n))
  = tag_window 0 (take (Z.to_nat (Z.of_nat n * w)) l).
Proof.
  intros Hw. induction n as [|n IH]; [done|].
  rewrite seqZ_S, fmap_app, concat_app, IH. cbn [fmap list_fmap concat].
  rewrite app_nil_r, Z.add_0_l.
  replace (Z.to_nat (Z.of_nat (S n) * w))
    with (Z.to_nat (Z.of_nat n * w) + Z.to_nat w)%nat by lia.
  rewrite <- take_take_drop, tag_window_app. f_equal.
  unfold window_sents. rewrite slice_take_drop by lia.
  replace (Z.to_nat (Z.of_nat n * w + w) - Z.to_nat (Z.of_nat n * w))%nat
    with (Z.to_nat w) by lia.
  destruct (Nat.le_gt_cases (length l) (Z.to_nat (Z.of_nat n * w))) as [Hge|Hlt].
  - rewrite (drop_ge l) by done. by rewrite take_nil.
  - rewrite length_take, Nat.min_l by lia. f_equal. lia.
Qed.

Lemma py_range_full (total w : Z) :
  0 < w → 0 ≤ total →
  ∃ n : nat, py_range 0 total w = (λ k, k * w) <$> seqZ 0 (Z.of_nat n)
             ∧ total ≤ Z.of_nat n * w.
Proof.
  intros Hw Ht. exists (Z.to_nat ((total + w - 1) `div` w)).
  assert (0 ≤ (total + w - 1) `div` w) by (apply Z.div_pos; lia).
  rewrite Z2Nat.id by done. split.
  - unfold py_range. replace (total - 0 + w - 1) with (total + w - 1) by lia.
    apply list_fmap_ext. intros _ k _. lia.
  - destruct (Z.le_gt_cases total ((total + w - 1) `div` w * w)) as [|Hlt]; [done|].
    apply div_ceil_lt in Hlt; [lia|done].
Qed.

(** X17: without overlap an undisturbed run sends one request per
    sentence, in the order of the sentences, each for the sentence tagged
    with its index. *)
Theorem no_overlap_one_request_each
    (sentences : list str) (target_lang : str) (use_ollama : bool)
    (window : Z) (progress_callback token_callback : bool) (glossary : dict)
    (cancel_event pause_event : option flag) (w : world) :
  1 ≤ window →
  never_set cancel_event →
  clear_from (patience B) pause_event →
  (use_ollama = true → reachable B) →
  ∃ ts us rs w',
    translate_with_context B sentences target_lang use_ollama window 0
      progress_callback token_callback glossary cancel_event pause_event w
    = Return (ts, us, rs) w'
    ∧ requests (trace w')
      = requests (trace w)
        ++ imap (λ i s, request_of target_lang use_ollama glossary
                          (tag (Z.of_nat i) s)) sentences.
Proof.
  intros Hw Hcancel Hpause Hup.
  destruct (translate_with_context_undisturbed B sentences target_lang
              use_ollama window 0 progress_callback token_callback
              glossary cancel_event pause_event w Hw ltac:(lia) Hcancel Hpause Hup)
    as (w' & Hrun & Htrace).
  eexists _, _, _, w'. split; [exact Hrun|].
  rewrite Htrace, requests_app, requests_schedule, schedule_starts. f_equal.
  replace (Z.max 1 (window - 0)) with window by lia.
  destruct (py_range_full (Z.of_nat (length sentences)) window) as (n & -> & Hn);
    [lia..|].
  rewrite <- list_fmap_compose.
  rewrite (concat_fmap_fmap (request_of target_lang use_ollama glossary)
             (λ k, window_sents sentences window (k * window))).
  rewrite windows_partition by lia. rewrite take_ge by lia.
  unfold tag_window. rewrite fmap_imap. apply imap_ext. intros i s _.
  simpl. by rewrite Z.add_0_l.
Qed.

End NoOverlap.

(** ** Tags *)

Section TagFacts.
Context {U : Unicode}.

Lemma lit_digits (d : Decimal.uint) :
  Forall (λ c, between 48 57 c = true) (lit (NilEmpty.string_of_uint d)).
Proof.
  induction d as [|d IH|d IH|d IH|d IH|d IH|d IH|d IH|d IH|d IH|d IH];
    [constructor|..]; by apply Forall_cons.
Qed.

Lemma lit_digits_nonempty (d : Decimal.uint) :
  d ≠ Decimal.Nil → lit (NilEmpty.string_of_uint d) ≠ [].
Proof. by destruct d. Qed.

Lemma str_of_int_digits (n : Z) :
  0 ≤ n →
  str_of_int n ≠ [] ∧ Forall (λ c, between 48 57 c = true) (str_of_int n).
Proof.
  intros Hn. unfold str_of_int. destruct n as [|p|p]; [| |lia].
  - split; [done|]. by apply Forall_cons.
  - cbn [Z.to_int NilEmpty.string_of_int]. split.
    + apply lit_digits_nonempty, DecimalPos.Unsigned.to_uint_nonnil.
    + apply lit_digits.
Qed.

Lemma digit_isdecimal (c : N) : between 48 57 c = true → isdecimal c = true.
Proof.
  intros Hc. unfold isdecimal, is_ascii_char.
  unfold between in *. destruct (N.ltb_spec c 128) as [_|Hge]; [done|].
  apply andb_true_iff in Hc as [_ Hc]. apply N.leb_le in Hc. lia.
Qed.

Lemma take_while_digits (ds rest : str) :
  Forall (λ c, between 48 57 c = true) ds →
  take_while isdecimal (ds ++ 93%N :: rest) = ds.
Proof.
  induction 1 as [|c ds Hc _ IH]; [done|].
  cbn [app take_while]. by rewrite digit_isdecimal, IH.
Qed.

(** X18: removing the tag from a tagged sentence gives the sentence back,
    less the whitespace it begins with. *)
Theorem strip_tag_tag (n : Z) (s : str) :
  0 ≤ n → strip_tag (tag n s) = drop_while isspace s.
Proof.
  intros Hn. destruct (str_of_int_digits n Hn) as [Hne Hds].
  unfold tag. change (lit "[") with [91%N]. change (lit "] ") with [93%N; 32%N].
  cbn [app]. unfold strip_tag. cbv zeta.
  change ([93%N; 32%N] ++ s) with (93%N :: 32%N :: s).
  rewrite take_while_digits by done.
  destruct (str_of_int n) as [|c ds] eqn:Hdigits; [done|].
  rewrite drop_app_length. cbn [drop_while].
  assert (isspace 32 = true) as -> by reflexivity. reflexivity.
Qed.

End TagFacts.

(** ** The updates of a run *)

Section RunUpdates.
Context {U : Unicode} (B : backend).
Context (sentences : list str) (target_lang : str)
        (use_ollama : bool) (window : Z)
        (token_callback : bool) (glossary : dict).

Local Abbreviation good := (λ p : str * str, acceptable glossary p.1 p.2).

Lemma dict_update_Forall (P : str * str → Prop) (u d : dict) :
  Forall P d → Forall P u → Forall P (dict_update d u).
Proof.
  unfold dict_update. intros Hd Hu. revert d Hd.
  induction Hu as [|[k v] u Hkv _ IH]; intros d Hd; [done|].
  cbn [fold_left]. apply IH. apply Forall_forall. intros p Hp.
  apply dict_set_elem in Hp as [->|Hp]; [done|].
  by eapply Forall_forall in Hd.
Qed.

Lemma fold_update_Forall (P : str * str → Prop) (ds : list dict) :
  Forall (Forall P) ds → ∀ d, Forall P d → Forall P (fold_left dict_update ds d).
Proof.
  induction 1 as [|u ds Hu _ IH]; intros d Hd; [done|].
  cbn [fold_left]. by apply IH, dict_update_Forall.
Qed.

Lemma reply_updates_acceptable (raw : str) :
  Forall good (reply_updates use_ollama glossary raw).
Proof.
  unfold reply_updates, parse_translation_and_glossary.
  destruct use_ollama; [|constructor].
  destruct (search_marked raw GLOSSARY_START GLOSSARY_END) as [block|];
    [|constructor].
  destruct (glossary_lines glossary (splitlines block) []) as [u|] eqn:Hu;
    [|constructor].
  simpl. eapply glossary_lines_acceptable; [|exact Hu]. constructor.
Qed.

Lemma fold_store_acceptable (sched : list (Z * nat)) :
  ∀ st, Forall good (all_updates st) →
        Forall good
          (all_updates
             (fold_left (window_store B sentences target_lang use_ollama
                                      window token_callback glossary)
                        sched st)).
Proof.
  induction sched as [|sm sched IH]; intros st Hst; [done|].
  cbn [fold_left]. apply IH. unfold window_store. cbn [all_updates].
  rewrite store_outputs_updates. apply dict_update_Forall; [done|].
  apply fold_update_Forall; [|constructor].
  unfold window_updates. apply Forall_fmap, Forall_forall. intros raw _.
  apply reply_updates_acceptable.
Qed.

(** X19: every update an undisturbed run returns names a term the
    caller's glossary does not hold, and pairs it with a target that differs
    from it beyond case; source and target are trimmed and not empty. *)
Theorem returned_updates_acceptable
    (overlap : Z) (progress_callback : bool)
    (cancel_event pause_event : option flag) (w : world) :
  1 ≤ window → 0 ≤ overlap < window →
  never_set cancel_event →
  clear_from (patience B) pause_event →
  (use_ollama = true → reachable B) →
  ∃ ts us rs w',
    translate_with_context B sentences target_lang use_ollama window overlap
      progress_callback token_callback glossary cancel_event pause_event w
    = Return (ts, us, rs) w'
    ∧ Forall (λ p, acceptable glossary p.1 p.2) us.
Proof.
  intros Hw Ho Hcancel Hpause Hup.
  destruct (translate_with_context_undisturbed B sentences target_lang
              use_ollama window overlap progress_callback token_callback
              glossary cancel_event pause_event w Hw Ho Hcancel Hpause Hup)
    as (w' & Hrun & _).
  eexists _, _, _, w'. split; [exact Hrun|].
  apply fold_store_acceptable. constructor.
Qed.

End RunUpdates.

(** ** The pipeline backend *)

Section PipelineFacts.
Context {U : Unicode} (B : backend).
Context (cancel_event pause_event : option flag).
Hypothesis Hpause : clear_from (patience B) pause_event.

Lemma is_set_seen (w w1 : world) :
  is_set cancel_event w = Return true w1 →
  ∃ f, cancel_event = Some f ∧ f (clock w) = true ∧ clock w1 = S (clock w).
Proof.
  unfold is_set. destruct cancel_event as [f|]; [|done].
  unfold observe. intros [= Hf <-]. by exists f.
Qed.

Lemma pipeline_loop_prefix (sents : list str) :
  ∀ (outs : list str) (w : world),
    ∃ (n : nat) w',
      (n ≤ length sents)%nat
      ∧ pipeline_loop B cancel_event pause_event sents outs w
        = Return (outs ++ imap (λ k s, hf_translate B (calls w + k) s)
                               (take n sents)) w'
      ∧ trace w' = trace w ++ (Request <$> take n sents)
      ∧ (clock w ≤ clock w')%nat
      ∧ (n = length sents
         ∨ ∃ (f : flag) (t : nat),
             cancel_event = Some f ∧ (clock w ≤ t)%nat ∧ f t = true
             ∧ clock w' = S t).
Proof.
  induction sents as [|s sents IH]; intros outs w.
  - exists 0%nat, w. simpl. rewrite !app_nil_r. split_and!; [lia|done|done|lia|by left].
  - cbn [pipeline_loop].
    destruct (is_set_returns cancel_event w) as (b & w1 & H1 & Hl1 & Hc1 & Ht1).
    run H1. destruct b.
    { destruct (is_set_seen w w1 H1) as (f & Hf & Hset & Hclock).
      exists 0%nat, w1. simpl. rewrite !app_nil_r.
      split_and!; [lia|done|done|lia|].
      right. exists f, (clock w). split_and!; [done|lia|done|done]. }
    destruct (pause_point_ends B cancel_event pause_event Hpause w1)
      as (w2 & H2 & Hl2 & Hc2 & Ht2).
    run H2. unfold mbind at 1, M_bind at 1, call at 1.
    destruct (IH (outs ++ [hf_translate B (calls w2) s])
                 (World (clock w2) (S (calls w2)) (trace w2 ++ [Request s])))
      as (n & w' & Hn & -> & Htrace & Hclock & Hstop).
    exists (S n), w'. cbn [clock calls trace] in *.
    split_and!; [simpl; lia| | |lia|].
    + rewrite <- app_assoc. cbn [take app]. rewrite imap_cons_shift.
      do 3 f_equal; [f_equal; lia|].
      apply imap_ext. intros k x _. simpl. f_equal. lia.
    + rewrite Htrace, <- app_assoc. cbn [take fmap list_fmap app]. congruence.
    + destruct Hstop as [->|(f & t & Hf & Ht & Hset & Hend)]; [by left|].
      right. exists f, t. split_and!; [done|lia|done|done].
Qed.

(** X20: without Ollama a batch call hands the sentences to the pipeline
    as they are, in order; it sends them all, or else it stops right after
    a reading of the cancellation flag that found it set, having sent the
    sentences before that reading; the outputs are returned twice, as
    translations and as raw responses, with no glossary updates, and nothing
    but the requests is recorded. *)
Theorem pipeline_outputs_verbatim (sentences : list str) (target_lang : str)
    (token_callback : option (Z → str → M unit)) (glossary : dict)
    (start_mark end_mark : str) (w : world) :
  ∃ (n : nat) w',
    (n ≤ length sentences)%nat
    ∧ translate_sentences B sentences target_lang false token_callback
        glossary cancel_event pause_event start_mark end_mark w
      = (let outs := imap (λ k s, hf_translate B (calls w + k) s)
                          (take n sentences) in
         Return (outs, [], outs) w')
    ∧ trace w' = trace w ++ (Request <$> take n sentences)
    ∧ (n = length sentences
       ∨ ∃ (f : flag) (t : nat),
           cancel_event = Some f ∧ (clock w ≤ t)%nat ∧ f t = true
           ∧ clock w' = S t).
Proof.
  destruct (pipeline_loop_prefix sentences [] w)
    as (n & w' & Hn & Hrun & Htrace & _ & Hstop).
  exists n, w'. split; [done|]. split; [|done].
  unfold translate_sentences. run Hrun. reflexivity.
Qed.

End PipelineFacts.

(** ** Cancellation during a pause *)

Section PausedCancel.
Context {U : Unicode} (B : backend).

(** X21: a batch call that is paused when it reaches a sentence, and then
    cancelled, leaves the pause and still sends that sentence to the
    pipeline; it stops before the next one. *)
Theorem cancelled_while_paused_sends_one (s0 : str) (rest : list str)
    (target_lang : str) (token_callback : option (Z → str → M unit))
    (glossary : dict) (cancel pause : flag)
    (start_mark end_mark : str) (w : world) :
  cancel (clock w) = false →
  pause (S (clock w)) = true →
  (∀ t, (clock w < t)%nat → cancel t = true) →
  ∃ w',
    translate_sentences B (s0 :: rest) target_lang false token_callback
      glossary (Some cancel) (Some pause) start_mark end_mark w
    = Return ([hf_translate B (calls w) s0], [], [hf_translate B (calls w) s0]) w'
    ∧ calls w' = S (calls w)
    ∧ trace w' = trace w ++ [Request s0].
Proof.
  intros Hfirst Hpaused Hlater.
  assert (pipeline_loop B (Some cancel) (Some pause) rest
            [hf_translate B (calls w) s0]
            (World (S (S (S (clock w)))) (S (calls w)) (trace w ++ [Request s0]))
          = Return [hf_translate B (calls w) s0]
              (World (S (S (S (S (clock w))))) (S (calls w))
                     (trace w ++ [Request s0]))
          ∨ pipeline_loop B (Some cancel) (Some pause) rest
              [hf_translate B (calls w) s0]
              (World (S (S (S (clock w)))) (S (calls w)) (trace w ++ [Request s0]))
            = Return [hf_translate B (calls w) s0]
                (World (S (S (S (clock w)))) (S (calls w))
                       (trace w ++ [Request s0]))) as Hrest.
  { destruct rest as [|s1 rest]; [by right|]. left.
    cbn [pipeline_loop]. unfold mbind, M_bind, is_set, observe. cbn [clock].
    rewrite Hlater by lia. reflexivity. }
  assert (wait_while_paused (patience B) (Some cancel) pause
            (World (S (clock w)) (calls w) (trace w))
          = Return () (World (S (S (S (clock w)))) (calls w) (trace w))) as Hwait.
  { destruct (patience B); cbn [wait_while_paused];
      unfold mbind, M_bind, is_set, observe; cbn [clock calls trace];
      rewrite Hpaused; cbn [clock calls trace];
      rewrite Hlater by lia; reflexivity. }
  assert (∃ w', pipeline_loop B (Some cancel) (Some pause) (s0 :: rest) [] w
                = Return [hf_translate B (calls w) s0] w'
                ∧ calls w' = S (calls w)
                ∧ trace w' = trace w ++ [Request s0]) as (w' & Hloop & Hc & Ht).
  { cbn [pipeline_loop].
    unfold mbind at 1, M_bind at 1, is_set at 1, observe at 1. rewrite Hfirst.
    unfold pause_point. run Hwait.
    unfold mbind at 1, M_bind at 1, call at 1. cbn [clock calls trace app].
    destruct Hrest as [->| ->]; by eexists. }
  exists w'. unfold translate_sentences. run Hloop. done.
Qed.

End PausedCancel.

(** ** Chapters *)

Section ChapterFacts.
Context {U : Unicode} (heading : str → bool).

Local Abbreviation plain := (λ line, heading (strip line) = false).
Local Abbreviation headed := (λ line, heading (strip line) = true).

Lemma splitlines_from_nil (s line : str) :
  splitlines_from s line = [] → s = [] ∧ line = [].
Proof.
  revert line. induction s as [|c r IH]; intros line; cbn [splitlines_from].
  - by destruct line.
  - destruct (is_linebreak c).
    + intros H. repeat case_match; done.
    + intros H. apply IH in H as [_ H]. by destruct line.
Qed.

Lemma chapter_loop_plain (lines : list str) :
  Forall plain lines →
  ∀ chapters title buf,
    chapter_loop heading lines chapters title buf
    = flush chapters title (buf ++ lines).
Proof.
  induction 1 as [|line lines Hline _ IH]; intros chapters title buf.
  - by rewrite app_nil_r.
  - cbn [chapter_loop]. rewrite Hline, IH. by rewrite <- app_assoc.
Qed.

Lemma chapter_loop_headed (lines : list str) :
  Forall headed lines →
  ∀ chapters title,
    chapter_loop heading lines chapters title [] = chapters.
Proof.
  induction 1 as [|line lines Hline _ IH]; intros chapters title; [done|].
  cbn [chapter_loop]. rewrite Hline. apply IH.
Qed.

Lemma chapter_loop_app (l1 l2 : list str) :
  ∀ chapters title buf,
    Forall plain l1 →
    chapter_loop heading (l1 ++ l2) chapters title buf
    = chapter_loop heading l2 chapters title (buf ++ l1).
Proof.
  induction l1 as [|line l1 IH]; intros chapters title buf Hl1.
  - by rewrite app_nil_r.
  - apply Forall_cons in Hl1 as [Hline Hl1]. cbn [app chapter_loop].
    rewrite Hline, IH by done. by rewrite <- app_assoc.
Qed.

(** X22: a text none of whose lines is a heading comes back as the one
    chapter Chapter 1, holding the lines joined by newlines and trimmed. *)
Theorem no_heading_one_chapter (text : str) :
  text ≠ [] →
  Forall (λ line, heading (strip line) = false) (splitlines text) →
  _split_into_chapters heading text
  = [(lit "Chapter 1", strip (join NL (splitlines text)))].
Proof.
  intros Hne Hplain. unfold _split_into_chapters.
  rewrite chapter_loop_plain by done. cbn [app].
  destruct (splitlines text) as [|l ls] eqn:Hl; [|done].
  apply splitlines_from_nil in Hl as [-> _]. done.
Qed.

(** X23: a text all of whose lines are headings has no chapter: it comes
    back whole as the one chapter Text. *)
Theorem only_headings_one_text (text : str) :
  Forall (λ line, heading (strip line) = true) (splitlines text) →
  _split_into_chapters heading text = [(lit "Text", text)].
Proof.
  intros Hheaded. unfold _split_into_chapters.
  by rewrite chapter_loop_headed.
Qed.

Local Abbreviation shaped lines :=
  (λ kv : str * str,
     strip kv.2 = kv.2
     ∧ (kv.1 = lit "Chapter 1"
        ∨ ∃ line, line ∈ lines ∧ heading (strip line) = true
                  ∧ kv.1 = strip line)).

Lemma flush_shaped (all : list str) (chapters : dict) (title : str)
    (buf : list str) :
  Forall (shaped all) chapters →
  (title = lit "Chapter 1"
   ∨ ∃ line, line ∈ all ∧ heading (strip line) = true ∧ title = strip line) →
  Forall (shaped all) (flush chapters title buf).
Proof.
  intros Hch Htitle. destruct buf as [|b buf]; [done|]. cbn [flush].
  apply Forall_forall. intros kv Hkv.
  apply dict_set_elem in Hkv as [->|Hkv].
  - split; [apply strip_idempotent|done].
  - by eapply Forall_forall in Hch.
Qed.

Lemma chapter_loop_shaped (all lines : list str) :
  (∀ line, line ∈ lines → line ∈ all) →
  ∀ chapters title buf,
    Forall (shaped all) chapters →
    (title = lit "Chapter 1"
     ∨ ∃ line, line ∈ all ∧ heading (strip line) = true ∧ title = strip line) →
    Forall (shaped all) (chapter_loop heading lines chapters title buf).
Proof.
  induction lines as [|line lines IH]; intros Hsub chapters title buf Hch Htitle.
  - by apply flush_shaped.
  - cbn [chapter_loop].
    assert (∀ l, l ∈ lines → l ∈ all) as Hsub'.
    { intros l Hl. apply Hsub. by right. }
    destruct (heading (strip line)) eqn:Hline.
    + apply IH; [done|by apply flush_shaped|].
      right. exists line. split; [apply Hsub; by left|done].
    + by apply IH.
Qed.

(** X24: the chapters of a text are never none; unless the text comes
    back whole as the chapter Text, every chapter has a trimmed body, and a
    title that is Chapter 1 or a trimmed heading line of the text. *)
Theorem chapters_shaped (text : str) :
  _split_into_chapters heading text ≠ []
  ∧ (_split_into_chapters heading text = [(lit "Text", text)]
     ∨ Forall (λ kv : str * str,
                 strip kv.2 = kv.2
                 ∧ (kv.1 = lit "Chapter 1"
                    ∨ ∃ line, line ∈ splitlines text
                              ∧ heading (strip line) = true
                              ∧ kv.1 = strip line))
              (_split_into_chapters heading text)).
Proof.
  unfold _split_into_chapters. cbv zeta.
  pose proof (chapter_loop_shaped (splitlines text) (splitlines text)
                (λ _ H, H) [] (lit "Chapter 1") [] (Forall_nil_2 _)
                (or_introl eq_refl)) as Hshaped.
  destruct (chapter_loop heading (splitlines text) [] (lit "Chapter 1") [])
    as [|kv chapters]; cbn [nonempty_dict].
  - split; [done|by left].
  - split; [done|by right].
Qed.

Lemma dict_set_nonempty (d : dict) (k v : str) : dict_set d k v ≠ [].
Proof. destruct d as [|[k' v'] d]; [done|]. simpl. by case_decide. Qed.

Lemma flush_nonempty (chapters : dict) (title : str) (buf : list str) :
  chapters ≠ [] ∨ buf ≠ [] → flush chapters title buf ≠ [].
Proof.
  destruct buf as [|b buf]; cbn [flush].
  - by intros [?|?].
  - intros _. apply dict_set_nonempty.
Qed.

Lemma chapter_loop_nonempty (lines : list str) :
  ∀ chapters title buf,
    chapters ≠ [] ∨ buf ≠ [] →
    chapter_loop heading lines chapters title buf ≠ [].
Proof.
  induction lines as [|line lines IH]; intros chapters title buf Hne.
  - by apply flush_nonempty.
  - cbn [chapter_loop]. destruct (heading (strip line)).
    + apply IH. left. by apply flush_nonempty.
    + apply IH. destruct Hne as [?|?]; [by left|right]. by destruct buf.
Qed.

(** A body that is being collected under a title replaces what the title
    held. *)
Lemma chapter_loop_overwrites (lines : list str) :
  ∀ (title x : str) (buf : list str),
    buf ≠ [] →
    chapter_loop heading lines [(title, x)] title buf
    = chapter_loop heading lines [] title buf.
Proof.
  induction lines as [|line lines IH]; intros title x buf Hbuf.
  - destruct buf as [|b buf]; [done|]. cbn [chapter_loop flush dict_set].
    by rewrite decide_True.
  - cbn [chapter_loop]. destruct (heading (strip line)).
    + f_equal. destruct buf as [|b buf]; [done|]. cbn [flush dict_set].
      by rewrite decide_True.
    + apply IH. by destruct buf.
Qed.

(** X25: when the first heading of a text reads Chapter 1 and the line
    after it is not a heading, the lines before the heading leave nothing in
    the result: stored under the default title Chapter 1, they are
    replaced by the body that follows the heading, and the chapters are
    those of the text without these lines. *)
Theorem preface_replaced (text text' : str) (pre : list str) (h b : str)
    (rest : list str) :
  splitlines text = pre ++ h :: b :: rest →
  splitlines text' = h :: b :: rest →
  Forall (λ line, heading (strip line) = false) pre →
  heading (strip h) = true → strip h = lit "Chapter 1" →
  heading (strip b) = false →
  _split_into_chapters heading text = _split_into_chapters heading text'.
Proof.
  intros Hlines Hlines' Hpre Hh Htitle Hb. unfold _split_into_chapters.
  rewrite Hlines, Hlines', chapter_loop_app by done.
  cbn [app chapter_loop]. rewrite Hh, Hb, Htitle. cbn [app flush].
  assert (chapter_loop heading rest (flush [] (lit "Chapter 1") pre)
                       (lit "Chapter 1") [b]
          = chapter_loop heading rest [] (lit "Chapter 1") [b]) as ->.
  { destruct pre as [|p pre]; [done|]. cbn [flush dict_set].
    by apply chapter_loop_overwrites. }
  assert (@nil (str * str) ≠ [] ∨ [b] ≠ []) as Hor by (by right).
  pose proof (chapter_loop_nonempty rest [] (lit "Chapter 1") [b] Hor) as Hne.
  by destruct (chapter_loop heading rest [] (lit "Chapter 1") [b]).
Qed.

End ChapterFacts.

(** ** Language detection *)

Section DetectionFacts.
Context {U : Unicode} (detect_langs : nat → str → option (list (str * bool))).

Lemma drop_while_blank (s : str) :
  Forall (λ c, isspace c = true) s → drop_while isspace s = [].
Proof. induction 1 as [|c s Hc _ IH]; [done|]. simpl. by rewrite Hc. Qed.

Lemma normalise_blank (s : str) :
  Forall (λ c, isspace c = true) s → normalise s = [].
Proof.
  intros Hs. unfold normalise, strip. rewrite (drop_while_blank s) by done.
  reflexivity.
Qed.

(** X26: a text of nothing but whitespace, the empty text among them, is
    reported as unknown without the detector being asked. *)
Theorem blank_text_unknown (text : str) :
  Forall (λ c, isspace c = true) text →
  detect_language detect_langs text = (lit "unknown", []).
Proof.
  intros Hblank. unfold detect_language. cbn [detect_loop].
  rewrite (normalise_blank text), (normalise_blank (drop 50 text)),
          (normalise_blank (drop 100 text)) by (done || by apply Forall_drop).
  reflexivity.
Qed.

Lemma detect_loop_asked (candidates : list str) :
  ∀ asked,
    ∃ more, (detect_loop detect_langs candidates asked).2 = asked ++ more
            ∧ (length more ≤ length (List.filter (λ c, nonempty (normalise c))
                                                 candidates))%nat
            ∧ Forall (λ s, ∃ c, c ∈ candidates ∧ s = normalise c ∧ s ≠ []) more.
Proof.
  induction candidates as [|c candidates IH]; intros asked.
  - exists []. by rewrite app_nil_r.
  - cbn [detect_loop List.filter].
    destruct (normalise c) as [|x snippet] eqn:Hc; cbn [nonempty].
    + destruct (IH asked) as (more & Heq & Hlen & Hall).
      exists more. split_and!; [done..|].
      eapply Forall_impl; [exact Hall|]. intros s (c' & Hc' & Hs).
      exists c'. split; [by right|done].
    + assert (∃ more, (detect_loop detect_langs candidates
                         (asked ++ [x :: snippet])).2
                      = asked ++ (x :: snippet) :: more
                      ∧ (length more ≤ length (List.filter
                           (λ c, nonempty (normalise c)) candidates))%nat
                      ∧ Forall (λ s, ∃ c', c' ∈ c :: candidates
                                           ∧ s = normalise c' ∧ s ≠ []) more)
        as (more & Heq & Hlen & Hall).
      { destruct (IH (asked ++ [x :: snippet])) as (more & Heq & Hlen & Hall).
        exists more. rewrite Heq, <- app_assoc. split_and!; [done..|].
        eapply Forall_impl; [exact Hall|]. intros s (c' & Hc' & Hs).
        exists c'. split; [by right|done]. }
      assert (∃ c', c' ∈ c :: candidates
                   ∧ x :: snippet = normalise c' ∧ x :: snippet ≠ []) as Hone.
      { exists c. split; [by left|]. by rewrite Hc. }
      destruct (detect_langs (length asked) (x :: snippet))
        as [[|[lang []] langs]|].
      * exists ((x :: snippet) :: more). cbn [length].
        split_and!; [done|lia|by apply Forall_cons].
      * exists [x :: snippet]. cbn [snd length].
        split_and!; [done|lia|by apply Forall_singleton].
      * exists ((x :: snippet) :: more). cbn [length].
        split_and!; [done|lia|by apply Forall_cons].
      * exists ((x :: snippet) :: more). cbn [length].
        split_and!; [done|lia|by apply Forall_cons].
Qed.

(** X27: the detector is asked at most three times for a text, at most
    twice when the text has no more than 100 characters, and at most once
    when it has no more than 50. *)
Theorem detector_asked_seldom (text : str) :
  let asked := (detect_language detect_langs text).2 in
  (length asked ≤ 3)%nat
  ∧ ((length text ≤ 100)%nat → (length asked ≤ 2)%nat)
  ∧ ((length text ≤ 50)%nat → (length asked ≤ 1)%nat).
Proof.
  unfold detect_language.
  destruct (detect_loop_asked [text; drop 50 text; drop 100 text] [])
    as (more & -> & Hlen & _).
  cbn [app]. cbn [List.filter] in Hlen.
  assert (normalise [] = []) as Hempty by done.
  split_and!.
  - destruct (nonempty (normalise text)), (nonempty (normalise (drop 50 text))),
      (nonempty (normalise (drop 100 text))); simpl in Hlen; lia.
  - intros Hshort. rewrite (drop_ge text 100), Hempty in Hlen by lia.
    destruct (nonempty (normalise text)), (nonempty (normalise (drop 50 text)));
      simpl in Hlen; lia.
  - intros Hshort. rewrite (drop_ge text 100), (drop_ge text 50), Hempty in Hlen by lia.
    destruct (nonempty (normalise text)); simpl in Hlen; lia.
Qed.

Lemma collapse_whitespace_spaces (s : str) :
  Forall (λ c, isspace c = true → c = 32%N) (collapse_whitespace s).
Proof.
  induction s as [|c r IH]; [done|]. cbn [collapse_whitespace].
  destruct (isspace c) eqn:Hc.
  - destruct r as [|c' r']; [by apply Forall_singleton|].
    destruct (isspace c'); [done|]. by apply Forall_cons.
  - apply Forall_cons. split; [congruence|done].
Qed.

Lemma collapse_whitespace_head (c : N) (r : str) :
  isspace c = false →
  ∃ r', collapse_whitespace (c :: r) = c :: r'.
Proof. intros Hc. cbn [collapse_whitespace]. rewrite Hc. by eexists. Qed.

Lemma single_spaced_cons (c c' : N) (r : str) :
  single_spaced (c :: c' :: r)
  = negb (isspace c && isspace c') && single_spaced (c' :: r).
Proof. reflexivity. Qed.

Lemma collapse_whitespace_single (s : str) :
  single_spaced (collapse_whitespace s) = true
  ∧ (∀ c r, s = c :: r → isspace c = false →
            ∃ r', collapse_whitespace s = c :: r')
  ∧ (∀ c r, s = c :: r → isspace c = true →
            ∃ r', collapse_whitespace s = 32%N :: r'
                  ∧ match r' with
                    | c' :: _ => isspace c' = false
                    | [] => True
                    end).
Proof.
  induction s as [|c r (IH1 & IH2 & IH3)]; [done|].
  split_and!.
  - cbn [collapse_whitespace]. destruct (isspace c) eqn:Hc.
    + destruct r as [|c' r']; [done|].
      destruct (isspace c') eqn:Hc'; [done|].
      destruct (IH2 c' r' eq_refl Hc') as [r'' Hr]. rewrite Hr in *.
      rewrite single_spaced_cons, Hc', andb_false_r. exact IH1.
    + destruct (collapse_whitespace r) as [|c' r'] eqn:Hr; [done|].
      rewrite single_spaced_cons, Hc. exact IH1.
  - intros c0 r0 [= <- <-] Hc. by apply collapse_whitespace_head.
  - intros c0 r0 [= <- <-] Hc. cbn [collapse_whitespace]. rewrite Hc.
    destruct r as [|c' r']; [by eexists|].
    destruct (isspace c') eqn:Hc'.
    + by apply (IH3 c' r').
    + destruct (IH2 c' r' eq_refl Hc') as [r'' ->]. eexists. split; [done|].
      exact Hc'.
Qed.

Lemma single_spaced_take (n : nat) (s : str) :
  single_spaced s = true → single_spaced (take n s) = true.
Proof.
  revert n. induction s as [|c r IH]; intros n Hs; [by destruct n|].
  destruct n as [|n]; [done|]. cbn [take].
  destruct r as [|c' r']; [by destruct n|].
  rewrite single_spaced_cons in Hs. apply andb_true_iff in Hs as [Hcc Hs].
  specialize (IH n Hs). destruct n as [|n]; [done|].
  cbn [take] in *. by rewrite single_spaced_cons, Hcc.
Qed.

Lemma normalise_tidy (s : str) : normalise s ≠ [] → tidy (normalise s).
Proof.
  unfold normalise. intros Hne. unfold tidy.
  destruct (strip_shape s) as [Hs|(f & l & ml & mr & H1 & _ & Hf & _)].
  { by rewrite Hs in Hne. }
  destruct (collapse_whitespace_head f ml Hf) as [r' Hr].
  rewrite H1, Hr in *. split; [|split; [|split]].
  - rewrite length_take. cbn [length]. lia.
  - exists f, (take 999 r'). done.
  - rewrite <- Hr. apply Forall_take, collapse_whitespace_spaces.
  - rewrite <- Hr. apply single_spaced_take, collapse_whitespace_single.
Qed.

(** X28: every snippet the detector is given is tidy: it has between one
    and 1000 characters, does not begin with whitespace, and holds no
    whitespace but single spaces. *)
Theorem detector_given_tidy (text : str) :
  Forall tidy (detect_language detect_langs text).2.
Proof.
  unfold detect_language.
  destruct (detect_loop_asked [text; drop 50 text; drop 100 text] [])
    as (more & -> & _ & Hall).
  cbn [app]. eapply Forall_impl; [exact Hall|].
  intros s (c & _ & -> & Hne). by apply normalise_tidy.
Qed.

End DetectionFacts.

Section DetectionOutcome.
Context {U : Unicode} (detect_langs : nat → str → option (list (str * bool))).

Lemma detect_loop_vouched (candidates : list str) :
  ∀ asked,
    let r := detect_loop detect_langs candidates asked in
    r.1 = lit "unknown"
    ∨ ∃ (n : nat) snippet rest,
        r.2 !! n = Some snippet
        ∧ detect_langs n snippet = Some ((r.1, true) :: rest).
Proof.
  induction candidates as [|c candidates IH]; intros asked; [by left|].
  cbn [detect_loop]. cbv zeta.
  destruct (nonempty (normalise c)); [|apply IH].
  destruct (detect_langs (length asked) (normalise c))
    as [[|[lang []] langs]|] eqn:Hd; try apply IH.
  right. exists (length asked), (normalise c), langs. cbn [fst snd].
  split; [|exact Hd]. by rewrite lookup_app_r, Nat.sub_diag by lia.
Qed.

(** X29: the language reported for a text is unknown, or the language
    the detector put first, with a probability of at least 0.7, for one of
    the snippets it was given. *)
Theorem detected_language_vouched (text : str) :
  (detect_language detect_langs text).1 = lit "unknown"
  ∨ ∃ (n : nat) snippet rest,
      (detect_language detect_langs text).2 !! n = Some snippet
      ∧ detect_langs n snippet
        = Some (((detect_language detect_langs text).1, true) :: rest).
Proof. apply detect_loop_vouched. Qed.

End DetectionOutcome.

(** ** The further properties on concrete inputs *)

Lemma split_sentences_terminated_witness :
  Forall (λ s, ends_sentence s = true) [lit "Hi."].
Proof.
  apply (split_sentences_terminated (U := plain_unicode)
           (lit "Hi. Yo") [lit "Hi."] (lit "Yo")).
  vm_compute. reflexivity.
Defined.

Lemma prune_marked_bracketed_witness :
  prune_marked (U := plain_unicode)
    (lit "x" ++ START_MARK ++ lit " hi " ++ END_MARK ++ lit "y")
    START_MARK END_MARK
  = strip (U := plain_unicode) (lit " hi ").
Proof.
  apply (prune_marked_bracketed (U := plain_unicode) (lit "x") (lit " hi ")
           (lit "y") 60%N 60%N (lit "<<START>>>") (lit "<<END>>>")).
  - vm_compute. repeat constructor. discriminate.
  - vm_compute. repeat constructor; discriminate.
Defined.

Lemma apply_glossary_absent_witness :
  apply_glossary (lit "abc") [(lit "x", lit "y")] = lit "abc".
Proof.
  apply (apply_glossary_absent (lit "abc") [(lit "x", lit "y")]).
  vm_compute. repeat constructor.
Defined.

Lemma translate_sentences_stops_cleanly_witness :
  ∃ outs updates raws w',
    translate_sentences (U := plain_unicode) echo abc en false None []
                        (Some set_after_first) None START_MARK END_MARK fresh
    = Return (outs, updates, raws) w'
    ∧ length outs = length raws.
Proof.
  destruct (translate_sentences_stops_cleanly (U := plain_unicode) echo
              (Some set_after_first) None I abc en false None []
              START_MARK END_MARK fresh)
    as (outs & updates & raws & w' & Hrun & Hlen & _).
  - intros cb Hcb. discriminate.
  - discriminate.
  - exists outs, updates, raws, w'. split; [exact Hrun|exact Hlen].
Defined.

Lemma apply_glossary_in_order_witness :
  apply_glossary (lit "Foo") [(lit "Foo", lit "Bar"); (lit "Bar", lit "Baz")]
  = lit "Baz"
  ∧ apply_glossary (lit "Foo") [(lit "Bar", lit "Baz"); (lit "Foo", lit "Bar")]
    = lit "Bar".
Proof.
  apply (apply_glossary_in_order (lit "Foo") (lit "Bar") (lit "Baz"));
    [discriminate|discriminate|vm_compute; reflexivity].
Defined.

Lemma translate_sentences_cancelled_witness :
  ∃ w',
    translate_sentences (U := plain_unicode) echo abc en true None []
                        (Some (λ _, true)) None START_MARK END_MARK fresh
    = Return ([], [], []) w'
    ∧ calls w' = 0%nat.
Proof.
  destruct (translate_sentences_cancelled (U := plain_unicode) echo abc en
              None [] (λ _, true) None START_MARK END_MARK fresh eq_refl)
    as (w' & Hrun & Hcalls & _).
  exists w'. split; [exact Hrun|exact Hcalls].
Defined.

Lemma translate_with_context_transport_failure_witness :
  ∃ w',
    translate_with_context (U := plain_unicode) down [lit "a"] en true 50 10
                           false false [] None None fresh
    = Raise RuntimeError w'
    ∧ trace w' = [Request (prompt_of en [] (lit "[0] a"))].
Proof.
  destruct (translate_with_context_transport_failure (U := plain_unicode) down
              None None I I (lit "a") [] en 50 10 false [] fresh
              ltac:(lia) (λ _, eq_refl))
    as (w' & Hrun & Htrace).
  exists w'. split; [exact Hrun|exact Htrace].
Defined.

Lemma merge_updates_first_writer_wins_witness :
  dict_get (merge_updates [(lit "Foo", lit "Bar")] [(lit "Foo", lit "Baz")])
           (lit "Foo")
  = Some (lit "Bar").
Proof.
  apply (proj2 (merge_updates_first_writer_wins
                  [(lit "Foo", lit "Bar")] [(lit "Foo", lit "Baz")])).
  vm_compute. reflexivity.
Defined.

Lemma merge_updates_adds_witness :
  dict_get (merge_updates [] [(lit "Foo", lit "Bar")]) (lit "Foo")
  = dict_get [(lit "Foo", lit "Bar")] (lit "Foo").
Proof.
  apply (merge_updates_adds [] [(lit "Foo", lit "Bar")] (lit "Foo")).
  reflexivity.
Defined.

Lemma progress_grows_to_total_witness :
  ∃ ts us rs w' reports,
    translate_with_context (U := plain_unicode) echo abc en false 2 1
                           true false [] None None fresh
    = Return (ts, us, rs) w'
    ∧ progress_reports (trace w') = reports
    ∧ last reports = Some (3, 3).
Proof.
  destruct (progress_grows_to_total (U := plain_unicode) echo abc en false 2 1
              false [] None None fresh)
    as (ts & us & rs & w' & reports & Hrun & Hreports & _ & _ & _ & Hlast);
    [lia|lia|exact I|exact I|discriminate|discriminate|].
  exists ts, us, rs, w', reports.
  split; [exact Hrun|]. split; [exact Hreports|exact Hlast].
Defined.

Lemma no_overlap_one_request_each_witness :
  ∃ ts us rs w',
    translate_with_context (U := plain_unicode) echo abc en false 2 0
                           false false [] None None fresh
    = Return (ts, us, rs) w'
    ∧ requests (trace w') = [lit "[0] a"; lit "[1] b"; lit "[2] c"].
Proof.
  destruct (no_overlap_one_request_each (U := plain_unicode) echo abc en false 2
              false false [] None None fresh)
    as (ts & us & rs & w' & Hrun & Hreq);
    [lia|exact I|exact I|discriminate|].
  exists ts, us, rs, w'. split; [exact Hrun|exact Hreq].
Defined.

Lemma strip_tag_tag_witness :
  strip_tag (U := plain_unicode) (tag 7 (lit " x"))
  = drop_while (isspace (U := plain_unicode)) (lit " x").
Proof. apply (strip_tag_tag (U := plain_unicode) 7 (lit " x")). lia. Defined.

Lemma returned_updates_acceptable_witness :
  ∃ ts us rs w',
    translate_with_context (U := plain_unicode) naming abc en true 1 0
                           false false [] None None fresh
    = Return (ts, us, rs) w'
    ∧ Forall (λ p, acceptable (U := plain_unicode) [] p.1 p.2) us.
Proof.
  apply (returned_updates_acceptable (U := plain_unicode) naming abc en true 1
           false [] 0 false None None fresh ltac:(lia) ltac:(lia) I I
           (λ _ c p, conj (ex_intro _ _ eq_refl) (ex_intro _ _ eq_refl))).
Defined.

Lemma pipeline_outputs_verbatim_witness :
  ∃ w',
    translate_sentences (U := plain_unicode) echo abc en false None []
                        None None START_MARK END_MARK fresh
    = Return (abc, [], abc) w'
    ∧ trace w' = Request <$> abc.
Proof.
  destruct (pipeline_outputs_verbatim (U := plain_unicode) echo None None I
              abc en None [] START_MARK END_MARK fresh)
    as (n & w' & Hn & Hrun & Htrace & [->|(f & t & Hf & _)]);
    [|discriminate].
  exists w'. split; [exact Hrun|exact Htrace].
Defined.

Lemma cancelled_while_paused_sends_one_witness :
  ∃ w',
    translate_sentences (U := plain_unicode) echo abc en false None []
                        (Some set_after_first) (Some set_at_second)
                        START_MARK END_MARK fresh
    = Return ([lit "a"], [], [lit "a"]) w'
    ∧ calls w' = 1%nat.
Proof.
  destruct (cancelled_while_paused_sends_one (U := plain_unicode) echo (lit "a")
              [lit "b"; lit "c"] en None [] set_after_first set_at_second
              START_MARK END_MARK fresh eq_refl eq_refl)
    as (w' & Hrun & Hcalls & _).
  - intros [|t] Ht; [simpl in Ht; lia|reflexivity].
  - exists w'. split; [exact Hrun|exact Hcalls].
Defined.

Lemma no_heading_one_chapter_witness :
  _split_into_chapters (U := plain_unicode) chapter_heading
                       (lit "a" ++ NL ++ lit " b ")
  = [(lit "Chapter 1", lit "a" ++ NL ++ lit " b")].
Proof.
  rewrite (no_heading_one_chapter (U := plain_unicode) chapter_heading
             (lit "a" ++ NL ++ lit " b ")).
  - vm_compute. reflexivity.
  - discriminate.
  - vm_compute. repeat constructor.
Defined.

Lemma only_headings_one_text_witness :
  _split_into_chapters (U := plain_unicode) chapter_heading
                       (lit "Chapter 1" ++ NL ++ lit "Chapter 2")
  = [(lit "Text", lit "Chapter 1" ++ NL ++ lit "Chapter 2")].
Proof.
  apply (only_headings_one_text (U := plain_unicode) chapter_heading
           (lit "Chapter 1" ++ NL ++ lit "Chapter 2")).
  vm_compute. repeat constructor.
Defined.

Lemma preface_replaced_witness :
  _split_into_chapters (U := plain_unicode) chapter_heading
    (lit "intro" ++ NL ++ lit "Chapter 1" ++ NL ++ lit "body" ++ NL
     ++ lit "Chapter 2" ++ NL ++ lit "more")
  = [(lit "Chapter 1", lit "body"); (lit "Chapter 2", lit "more")].
Proof.
  rewrite (preface_replaced (U := plain_unicode) chapter_heading
             (lit "intro" ++ NL ++ lit "Chapter 1" ++ NL ++ lit "body" ++ NL
              ++ lit "Chapter 2" ++ NL ++ lit "more")
             (lit "Chapter 1" ++ NL ++ lit "body" ++ NL
              ++ lit "Chapter 2" ++ NL ++ lit "more")
             [lit "intro"] (lit "Chapter 1") (lit "body")
             [lit "Chapter 2"; lit "more"]).
  - vm_compute. reflexivity.
  - vm_compute. reflexivity.
  - vm_compute. reflexivity.
  - vm_compute. repeat constructor.
  - vm_compute. reflexivity.
  - vm_compute. reflexivity.
  - vm_compute. reflexivity.
Defined.

Lemma blank_text_unknown_witness :
  detect_language (U := plain_unicode) sure_english (lit "   ")
  = (lit "unknown", []).
Proof.
  apply (blank_text_unknown (U := plain_unicode) sure_english (lit "   ")).
  vm_compute. repeat constructor.
Defined.

Lemma detector_asked_seldom_witness :
  (length (detect_language (U := plain_unicode) sure_english (lit "Hello")).2
   ≤ 1)%nat.
Proof.
  apply (proj2 (proj2 (detector_asked_seldom (U := plain_unicode) sure_english
                         (lit "Hello")))).
  vm_compute. lia.
Defined.
